(** * NodeDB: a shallow embedding of the storage engine

    The development follows the JavaScript sources
    [database/Collection.js], [database/Index.js], [database/Database.js]
    and [database/CoreDB.js].

    Conventions of the embedding.
    - A JavaScript value is a tree ([value]); numbers are exact rationals
      extended with the two infinities and NaN (no rounding is modelled).
    - An object is the list of its own enumerable properties in insertion
      order; inherited properties are not modelled, and the reordering of
      integer-like keys is ignored.
    - Top-level documents live in an object store ([heap]) and the
      collections hold references to them, because [Collection.update]
      mutates the stored objects in place and may bind one object under two
      keys.  Nested arrays and objects are immutable trees.
    - A [Map] and a [Set] are association lists and lists in insertion
      order.
    - A thrown exception is an [outcome]; stateful code is a function from
      the state to an outcome and the state reached, so that the mutations
      made before a throw stay visible.
    - Operators of the host language whose result depends on implicit
      conversions are fields of a [Host]; [node] is the instance used to
      evaluate concrete runs.
    - Every call is awaited before the next one is made, so the write queue
      is idle at each call and [queueWrite] runs its operation at once; the
      queue itself is the transition system of [WriteQueue].
    - Reads and writes of the storage root succeed, and a file is the JSON
      value it holds. *)

From Stdlib Require Import ZArith QArith String Ascii List Bool Lia DecimalString.
From stdpp Require Import base list.
Import ListNotations.

Local Open Scope string_scope.
Local Open Scope list_scope.
Set Warnings "-register-all".

(** ** Values *)

Inductive num : Type :=
| Fin (q : Q)
| PosInf
| NegInf
| NaN.

Inductive value : Type :=
| VUndef
| VNull
| VBool (b : bool)
| VNum (n : num)
| VStr (s : string)
| VRegExp (source : string)
| VArr (items : list value)
| VObj (fields : list (string * value)).

(** An object: own enumerable properties, in insertion order. *)
Definition obj : Type := list (string * value).

Definition VInt (z : Z) : value := VNum (Fin (inject_Z z)).

Inductive error : Type :=
| DuplicateKey (index : string)
| TypeError
| SyntaxError.

Inductive outcome (A : Type) : Type :=
| Return (a : A)
| Throw (e : error).
Arguments Return {A} a.
Arguments Throw {A} e.

Definition obind {A B : Type} (m : outcome A) (k : A -> outcome B) : outcome B :=
  match m with
  | Return a => k a
  | Throw e => Throw e
  end.

(** [===] on numbers. *)
Definition num_strict_eq (x y : num) : bool :=
  match x, y with
  | Fin p, Fin q => Qeq_bool p q
  | PosInf, PosInf => true
  | NegInf, NegInf => true
  | _, _ => false
  end.

(** SameValueZero on numbers: as [===], but NaN equals itself. *)
Definition num_same (x y : num) : bool :=
  match x, y with
  | NaN, NaN => true
  | _, _ => num_strict_eq x y
  end.

(** [a === b].  Arrays, objects and regular expressions are compared by
    reference; the two operands always come from different allocations (a
    stored document and a query), hence [false]. *)
Definition strict_eq (a b : value) : bool :=
  match a, b with
  | VUndef, VUndef => true
  | VNull, VNull => true
  | VBool x, VBool y => Bool.eqb x y
  | VNum x, VNum y => num_strict_eq x y
  | VStr x, VStr y => String.eqb x y
  | _, _ => false
  end.

(** SameValueZero as used by [Array.prototype.includes]. *)
Definition same_value_zero (a b : value) : bool :=
  match a, b with
  | VNum x, VNum y => num_same x y
  | _, _ => strict_eq a b
  end.

(** Comparison of the keys of a [Map] and of the members of a [Set]
    (SameValueZero).  The keys are document identifiers; an identifier that
    is an array or an object is only ever compared with the reference it was
    stored under, so such keys are compared by content. *)
Fixpoint key_eq (a b : value) {struct a} : bool :=
  match a, b with
  | VUndef, VUndef => true
  | VNull, VNull => true
  | VBool x, VBool y => Bool.eqb x y
  | VNum x, VNum y => num_same x y
  | VStr x, VStr y => String.eqb x y
  | VRegExp x, VRegExp y => String.eqb x y
  | VArr xs, VArr ys =>
      (fix items (l : list value) (r : list value) {struct l} : bool :=
         match l, r with
         | [], [] => true
         | x :: l', y :: r' => key_eq x y && items l' r'
         | _, _ => false
         end) xs ys
  | VObj fs, VObj gs =>
      (fix props (l : list (string * value)) (r : list (string * value))
           {struct l} : bool :=
         match l, r with
         | [], [] => true
         | (k, x) :: l', (k', y) :: r' =>
             String.eqb k k' && key_eq x y && props l' r'
         | _, _ => false
         end) fs gs
  | _, _ => false
  end.

(** ToBoolean. *)
Definition truthy (v : value) : bool :=
  match v with
  | VUndef | VNull => false
  | VBool b => b
  | VNum (Fin q) => negb (Qeq_bool q 0)
  | VNum NaN => false
  | VNum _ => true
  | VStr s => negb (String.eqb s EmptyString)
  | _ => true
  end.

Definition is_undefined (v : value) : bool :=
  match v with VUndef => true | _ => false end.

Definition is_array (v : value) : bool :=
  match v with VArr _ => true | _ => false end.

(** ** Objects *)

Fixpoint obj_get (k : string) (o : obj) : value :=
  match o with
  | [] => VUndef
  | (k', v) :: rest => if String.eqb k k' then v else obj_get k rest
  end.


(** [o[k] = v]: an existing property keeps its place. *)
Fixpoint obj_set (k : string) (v : value) (o : obj) : obj :=
  match o with
  | [] => [(k, v)]
  | (k', v') :: rest =>
      if String.eqb k k' then (k', v) :: rest else (k', v') :: obj_set k v rest
  end.

(** [delete o[k]]. *)
Fixpoint obj_delete (k : string) (o : obj) : obj :=
  match o with
  | [] => []
  | (k', v') :: rest =>
      if String.eqb k k' then obj_delete k rest else (k', v') :: obj_delete k rest
  end.

Definition nat_to_string (n : nat) : string :=
  NilZero.string_of_uint (Nat.to_uint n).

Fixpoint indexed (i : nat) (xs : list value) : list (string * value) :=
  match xs with
  | [] => []
  | x :: rest => (nat_to_string i, x) :: indexed (S i) rest
  end.

Fixpoint chars (s : string) : list value :=
  match s with
  | EmptyString => []
  | String c rest => VStr (String c EmptyString) :: chars rest
  end.

(** The own enumerable string-keyed properties of a value that is neither
    null nor undefined. *)
Definition own_entries (v : value) : list (string * value) :=
  match v with
  | VObj fs => fs
  | VArr xs => indexed 0 xs
  | VStr s => indexed 0 (chars s)
  | _ => []
  end.

(** [Object.entries(v)] and [Object.keys(v)] throw on null and undefined. *)
Definition Object_entries (v : value) : outcome (list (string * value)) :=
  match v with
  | VUndef | VNull => Throw TypeError
  | _ => Return (own_entries v)
  end.

(** [Object.assign(target, source)]: a null or undefined source is skipped. *)
Definition Object_assign (target : obj) (source : value) : obj :=
  fold_left (fun t kv => obj_set (fst kv) (snd kv) t) (own_entries source) target.

(** [v[k]] for a value that is neither null nor undefined. *)
Definition prop_get (v : value) (k : string) : value :=
  match v with
  | VObj fs => obj_get k fs
  | VArr xs =>
      if String.eqb k "length" then VInt (Z.of_nat (length xs))
      else obj_get k (indexed 0 xs)
  | VStr s =>
      if String.eqb k "length" then VInt (Z.of_nat (String.length s))
      else obj_get k (indexed 0 (chars s))
  | _ => VUndef
  end.

(** [s.startsWith('$')]. *)
Definition starts_with_dollar (s : string) : bool :=
  match s with
  | String c _ => Ascii.eqb c "$"%char
  | EmptyString => false
  end.

(** [path.split('.')]. *)
Fixpoint split_dot (s : string) : list string :=
  match s with
  | EmptyString => [EmptyString]
  | String c rest =>
      if Ascii.eqb c "."%char then EmptyString :: split_dot rest
      else match split_dot rest with
           | [] => [String c EmptyString]
           | w :: ws => String c w :: ws
           end
  end.

(** [parts.join(sep)] over parts that are strings or null; null joins as the
    empty string. *)
Fixpoint join (sep : string) (parts : list (option string)) : string :=
  match parts with
  | [] => EmptyString
  | [p] => default EmptyString p
  | p :: rest => default EmptyString p ++ sep ++ join sep rest
  end.

(** ** The host language *)

(** An integer or an infinity, the result of ToIntegerOrInfinity. *)
Inductive zinf : Type :=
| ZFin (z : Z)
| ZPosInf
| ZNegInf.

(** The operations of the host whose result depends on implicit conversions,
    on a textual format or on the engine. *)
Record Host : Type := {
  (** [a < b], [a <= b], [a > b], [a >= b] *)
  js_lt : value -> value -> bool;
  js_le : value -> value -> bool;
  js_gt : value -> value -> bool;
  js_ge : value -> value -> bool;
  (** [a + b] and [a / b] *)
  js_plus : value -> value -> value;
  js_div : value -> value -> value;
  (** ToNumber and ToString *)
  to_number : value -> num;
  to_string : value -> string;
  (** [JSON.stringify(v)] for a value other than undefined *)
  JSON_stringify : value -> string;
  (** [new RegExp(pattern).test(subject)] *)
  regexp_test : value -> value -> outcome bool;
  (** [s.includes(v)] on a string [s] *)
  string_includes : string -> value -> outcome bool;
  (** [array.sort(compare)] *)
  array_sort : forall A : Type, (A -> A -> Z) -> list A -> list A
}.
Arguments array_sort _ {A} _ _.

(** ** Map and Set *)

Section JsMap.
Context {K V : Type} (eqb : K -> K -> bool).

Fixpoint Map_has (k : K) (m : list (K * V)) : bool :=
  match m with
  | [] => false
  | (k', _) :: rest => eqb k' k || Map_has k rest
  end.

Fixpoint Map_get (k : K) (m : list (K * V)) : option V :=
  match m with
  | [] => None
  | (k', v) :: rest => if eqb k' k then Some v else Map_get k rest
  end.

(** [m.set(k, v)]: an existing key keeps its place. *)
Fixpoint Map_set (k : K) (v : V) (m : list (K * V)) : list (K * V) :=
  match m with
  | [] => [(k, v)]
  | (k', v') :: rest =>
      if eqb k' k then (k', v) :: rest else (k', v') :: Map_set k v rest
  end.

Fixpoint Map_delete (k : K) (m : list (K * V)) : list (K * V) :=
  match m with
  | [] => []
  | (k', v') :: rest =>
      if eqb k' k then rest else (k', v') :: Map_delete k rest
  end.

Definition Map_values (m : list (K * V)) : list V := map snd m.
Definition Map_keys (m : list (K * V)) : list K := map fst m.
End JsMap.

Fixpoint Set_has (x : value) (s : list value) : bool :=
  match s with
  | [] => false
  | y :: rest => key_eq y x || Set_has x rest
  end.

Definition Set_add (x : value) (s : list value) : list value :=
  if Set_has x s then s else s ++ [x].

Fixpoint Set_delete (x : value) (s : list value) : list value :=
  match s with
  | [] => []
  | y :: rest => if key_eq y x then rest else y :: Set_delete x rest
  end.

(** ** database/Index.js *)

Inductive operation : Type := OpInsert | OpUpdate | OpDelete.

Module Index.

Record t : Type := {
  name : string;
  collection : string;
  fields : list string;
  unique : bool;
  sparse : bool;
  indexData : list (string * list value)
}.

Definition with_indexData (d : list (string * list value)) (i : t) : t :=
  {| name := name i; collection := collection i; fields := fields i;
     unique := unique i; sparse := sparse i; indexData := d |}.

(** [new Index(name, collection, fields, options, db)] *)
Definition new (nm coll : string) (flds : list string) (uniq sprs : bool) : t :=
  {| name := nm; collection := coll; fields := flds;
     unique := uniq; sparse := sprs; indexData := [] |}.

Definition getNestedValue (o : obj) (path : string) : value :=
  fold_left
    (fun current key =>
       if truthy current && negb (is_undefined (prop_get current key))
       then prop_get current key else VUndef)
    (split_dot path) (VObj o).

Section WithHost.
Context (host : Host).

Definition keyParts (i : t) (document : obj) : list (option string) :=
  map (fun field =>
         let v := getNestedValue document field in
         if negb (is_undefined v) then Some (JSON_stringify host v) else None)
      (fields i).

(** [None] is the source's [null] key. *)
Definition getIndexKey (i : t) (document : obj) : option string :=
  let parts := keyParts i document in
  if sparse i && existsb (fun part => match part with None => true | Some _ => false end) parts
  then None
  else Some (join "|" parts).

(** The ids under [key] after [indexData.get(key).add(id)], the entry
    being created when missing. *)
Definition add_id (key : string) (id : value) (d : list (string * list value))
  : list (string * list value) :=
  let d1 := if Map_has String.eqb key d then d else Map_set String.eqb key [] d in
  match Map_get String.eqb key d1 with
  | Some ids => Map_set String.eqb key (Set_add id ids) d1
  | None => d1
  end.

(** [indexData.get(key).delete(id)], then the entry is dropped when its
    set is empty. *)
Definition remove_id (key : string) (id : value) (d : list (string * list value))
  : list (string * list value) :=
  match Map_get String.eqb key d with
  | Some ids =>
      let ids' := Set_delete id ids in
      if (length ids' =? 0)%nat then Map_delete String.eqb key d
      else Map_set String.eqb key ids' d
  | None => d
  end.

(** [a === b] on keys that are a string or null. *)
Definition same_key (a b : option string) : bool :=
  match a, b with
  | Some x, Some y => String.eqb x y
  | None, None => true
  | _, _ => false
  end.

(** [index.update(document, operation, originalDoc)]; the result is the
    outcome together with the index as the call leaves it. *)
Definition update (i : t) (document : obj) (op : operation)
           (originalDoc : option obj) : outcome unit * t :=
  let key := getIndexKey i document in
  let originalKey :=
    match originalDoc with
    | Some o => getIndexKey i o
    | None => None
    end in
  let id := obj_get "_id" document in
  match op with
  | OpInsert =>
      match key with
      | Some k =>
          if unique i && Map_has String.eqb k (indexData i)
          then (Throw (DuplicateKey (name i)), i)
          else (Return tt, with_indexData (add_id k id (indexData i)) i)
      | None => (Return tt, i)
      end
  | OpUpdate =>
      if negb (same_key originalKey key) then
        let d1 :=
          match originalKey with
          | Some ok =>
              if Map_has String.eqb ok (indexData i)
              then remove_id ok id (indexData i) else indexData i
          | None => indexData i
          end in
        match key with
        | Some k =>
            if unique i && Map_has String.eqb k d1
            then (Throw (DuplicateKey (name i)), with_indexData d1 i)
            else (Return tt, with_indexData (add_id k id d1) i)
        | None => (Return tt, with_indexData d1 i)
        end
      else (Return tt, i)
  | OpDelete =>
      match key with
      | Some k =>
          if Map_has String.eqb k (indexData i)
          then (Return tt, with_indexData (remove_id k id (indexData i)) i)
          else (Return tt, i)
      | None => (Return tt, i)
      end
  end.

(** [index.find(query)] *)
Definition find (i : t) (query : obj) : list value :=
  match getIndexKey i query with
  | Some k => default [] (Map_get String.eqb k (indexData i))
  | None => []
  end.

(** The records written by [index.save()]. *)
Definition save (i : t) : list (string * list value) := indexData i.

End WithHost.
End Index.

(** ** Arrays *)

Section Arrays.
Context (host : Host).

Definition num_to_zinf (n : num) : zinf :=
  match n with
  | Fin q => ZFin (Z.quot (Qnum q) (Zpos (Qden q)))
  | PosInf => ZPosInf
  | NegInf => ZNegInf
  | NaN => ZFin 0
  end.

(** ToIntegerOrInfinity. *)
Definition to_integer_or_infinity (v : value) : zinf :=
  match v with
  | VNum n => num_to_zinf n
  | VUndef => ZFin 0
  | VNull => ZFin 0
  | VBool b => ZFin (if b then 1 else 0)
  | _ => num_to_zinf (to_number host v)
  end.

(** The position a relative index of [slice] denotes in an array of
    length [len]. *)
Definition clamp_index (len : nat) (i : zinf) : nat :=
  match i with
  | ZNegInf => 0
  | ZPosInf => len
  | ZFin z =>
      if (z <? 0)%Z then Z.to_nat (Z.max (Z.of_nat len + z) 0)
      else Nat.min (Z.to_nat z) len
  end.

(** [xs.slice(start, end)]; an undefined [end] stands for the length. *)
Definition Array_slice {A : Type} (xs : list A) (start stop : value) : list A :=
  let len := length xs in
  let k := clamp_index len (to_integer_or_infinity start) in
  let final :=
    if is_undefined stop then len
    else clamp_index len (to_integer_or_infinity stop) in
  firstn (final - k) (skipn k xs).

(** [xs.includes(v)]. *)
Definition Array_includes (xs : list value) (v : value) : bool :=
  existsb (fun x => same_value_zero x v) xs.

(** [v.includes(x)] on an arbitrary value [v]. *)
Definition includes (v x : value) : outcome bool :=
  match v with
  | VArr xs => Return (Array_includes xs x)
  | VStr s => string_includes host s x
  | _ => Throw TypeError
  end.

(** [xs.every(f)], [xs.some(f)] and [xs.filter(f)] for a callback that
    may throw. *)
Section Callbacks.
Context {A : Type} (f : A -> outcome bool).

Fixpoint every (xs : list A) : outcome bool :=
  match xs with
  | [] => Return true
  | x :: rest =>
      match f x with
      | Return true => every rest
      | Return false => Return false
      | Throw e => Throw e
      end
  end.

Fixpoint some (xs : list A) : outcome bool :=
  match xs with
  | [] => Return false
  | x :: rest =>
      match f x with
      | Return true => Return true
      | Return false => some rest
      | Throw e => Throw e
      end
  end.

Fixpoint Array_filter (xs : list A) : outcome (list A) :=
  match xs with
  | [] => Return []
  | x :: rest =>
      match f x with
      | Return b =>
          match Array_filter rest with
          | Return ys => Return (if b then x :: ys else ys)
          | Throw e => Throw e
          end
      | Throw e => Throw e
      end
  end.
End Callbacks.
End Arrays.

(** ** The query language of database/Collection.js *)

Module Query.
Section WithHost.
Context (host : Host).

(** One iteration of the loop of [handleComparisonOperators]: [false]
    is the early [return false]. *)
Definition comparison (docValue : value) (operator : string) (v : value)
  : outcome bool :=
  if String.eqb operator "$eq" then Return (strict_eq docValue v)
  else if String.eqb operator "$ne" then Return (negb (strict_eq docValue v))
  else if String.eqb operator "$gt" then Return (negb (js_le host docValue v))
  else if String.eqb operator "$gte" then Return (negb (js_lt host docValue v))
  else if String.eqb operator "$lt" then Return (negb (js_ge host docValue v))
  else if String.eqb operator "$lte" then Return (negb (js_gt host docValue v))
  else if String.eqb operator "$in" then includes host v docValue
  else if String.eqb operator "$nin" then
    obind (includes host v docValue) (fun b => Return (negb b))
  else if String.eqb operator "$regex" then regexp_test host v docValue
  else Return true.

Definition handleComparisonOperators (docValue : value)
           (queryObj : list (string * value)) : outcome bool :=
  every (fun kv => comparison docValue (fst kv) (snd kv)) queryObj.

Definition compareValues (docValue queryValue : value) : outcome bool :=
  match queryValue with
  | VUndef | VNull => Return (strict_eq docValue queryValue)
  | VRegExp _ =>
      match docValue with
      | VStr _ => regexp_test host queryValue docValue
      | _ => Return false
      end
  | VObj fs => handleComparisonOperators docValue fs
  | VArr xs => Return (Array_includes xs docValue)
  | _ => Return (strict_eq docValue queryValue)
  end.

(** The loop over the field conditions of [matchesQuery]. *)
Definition fieldsMatch (document : obj) (entries : list (string * value))
  : outcome bool :=
  every (fun kv =>
           if starts_with_dollar (fst kv) then Return true
           else compareValues (obj_get (fst kv) document) (snd kv))
        entries.

(** [q[key]] handed to [found], for the properties of an object. *)
Section Property.
Context {A : Type} (key : string) (found : value -> A) (missing : A).

Fixpoint with_property (fs : list (string * value)) : A :=
  match fs with
  | [] => missing
  | (k, v) :: rest =>
      if String.eqb key k then found v else with_property rest
  end.
End Property.

(** [matchesQuery] with [handleQueryOperators] unfolded in it: the two
    are mutually recursive in the source.  [query.$and] is read with
    [with_property]; a truthy value that is not an array has no [every]
    or [some]. *)
Fixpoint matchesQuery (document : obj) (query : value) {struct query}
  : outcome bool :=
  match Object_entries query with
  | Throw e => Throw e
  | Return entries =>
      match fieldsMatch document entries with
      | Throw e => Throw e
      | Return false => Return false
      | Return true =>
          match query with
          | VObj fs =>
              let on_array (run : list value -> outcome bool)
                           (otherwise : outcome bool) (v : value) : outcome bool :=
                if truthy v then
                  match v with
                  | VArr conditions => run conditions
                  | _ => Throw TypeError
                  end
                else otherwise in
              let nor :=
                with_property "$nor"
                  (on_array
                     (fun conditions =>
                        obind (some (matchesQuery document) conditions)
                              (fun b => Return (negb b)))
                     (Return true))
                  (Return true) fs in
              let or :=
                with_property "$or"
                  (on_array (some (matchesQuery document)) nor) nor fs in
              with_property "$and"
                (on_array (every (matchesQuery document)) or) or fs
          | _ => Return true
          end
      end
  end.

Definition applyQuery {A : Type} (view : A -> obj) (documents : list A)
           (query : value) : outcome (list A) :=
  Array_filter (fun doc => matchesQuery (view doc) query) documents.
End WithHost.
End Query.

(** ** database/CoreDB.js *)

(** A reference to a stored document object. *)
Definition ref : Type := nat.

(** What [JSON.parse(JSON.stringify(v))] yields for [v] inside an array or
    an object: an undefined array item and a number that is not finite
    become null, an undefined property is dropped, a regular expression
    becomes the empty object. *)
Fixpoint json_norm (v : value) : value :=
  match v with
  | VUndef => VNull
  | VNum (Fin q) => VNum (Fin q)
  | VNum _ => VNull
  | VRegExp _ => VObj []
  | VArr xs => VArr (map json_norm xs)
  | VObj fs =>
      VObj ((fix props (l : list (string * value)) : list (string * value) :=
               match l with
               | [] => []
               | (k, x) :: rest =>
                   if is_undefined x then props rest
                   else (k, json_norm x) :: props rest
               end) fs)
  | _ => v
  end.

Module CoreDB.

(** An entry of [db.collections]: the bare [Map] that [loadCollection]
    and [createCollection] store, or a [Collection] instance with its
    [documents]. *)
Inductive collrep : Type :=
| RawMap (documents : list (value * ref))
| Instance (documents : list (value * ref)).

Inductive event : Type :=
| connected
| disconnected
| documentInserted (collection : string) (document : ref)
| documentUpdated (collection : string) (query update : value) (updatedCount : nat)
| documentDeleted (collection : string) (query : value) (deletedCount : nat)
| collectionDropped (name : string).

Record t : Type := {
  heap : list obj;
  collections : list (string * collrep);
  indexes : list (string * Index.t);
  (** [<root>/collections/<name>.json], as the JSON value it holds *)
  collectionFiles : list (string * value);
  (** [<root>/indexes/<name>.json] *)
  indexFiles : list (string * list (string * list value));
  (** the events emitted so far, oldest first *)
  events : list event;
  isConnected : bool
}.

Definition with_heap (h : list obj) (db : t) : t :=
  {| heap := h; collections := collections db; indexes := indexes db;
     collectionFiles := collectionFiles db; indexFiles := indexFiles db;
     events := events db; isConnected := isConnected db |}.

Definition with_collections (c : list (string * collrep)) (db : t) : t :=
  {| heap := heap db; collections := c; indexes := indexes db;
     collectionFiles := collectionFiles db; indexFiles := indexFiles db;
     events := events db; isConnected := isConnected db |}.

Definition with_indexes (i : list (string * Index.t)) (db : t) : t :=
  {| heap := heap db; collections := collections db; indexes := i;
     collectionFiles := collectionFiles db; indexFiles := indexFiles db;
     events := events db; isConnected := isConnected db |}.

Definition with_collectionFiles (f : list (string * value)) (db : t) : t :=
  {| heap := heap db; collections := collections db; indexes := indexes db;
     collectionFiles := f; indexFiles := indexFiles db;
     events := events db; isConnected := isConnected db |}.

Definition with_indexFiles (f : list (string * list (string * list value)))
           (db : t) : t :=
  {| heap := heap db; collections := collections db; indexes := indexes db;
     collectionFiles := collectionFiles db; indexFiles := f;
     events := events db; isConnected := isConnected db |}.

Definition with_isConnected (b : bool) (db : t) : t :=
  {| heap := heap db; collections := collections db; indexes := indexes db;
     collectionFiles := collectionFiles db; indexFiles := indexFiles db;
     events := events db; isConnected := b |}.

(** [db.emit(...)] *)
Definition emit (e : event) (db : t) : t :=
  {| heap := heap db; collections := collections db; indexes := indexes db;
     collectionFiles := collectionFiles db; indexFiles := indexFiles db;
     events := events db ++ [e]; isConnected := isConnected db |}.

(** [new CoreDB(options)] over the storage root that holds the given
    files. *)
Definition new (cfiles : list (string * value))
           (ifiles : list (string * list (string * list value))) : t :=
  {| heap := []; collections := []; indexes := [];
     collectionFiles := cfiles; indexFiles := ifiles;
     events := []; isConnected := false |}.

(** The object a reference denotes. *)
Definition deref (db : t) (r : ref) : obj := default [] (heap db !! r).

(** A new object in the store. *)
Definition alloc (o : obj) (db : t) : ref * t :=
  (length (heap db), with_heap (heap db ++ [o]) db).

(** The loop of [loadCollection] over the parsed documents. *)
Fixpoint loadDocuments (docs : list value) (collectionMap : list (value * ref))
         (db : t) : list (value * ref) * t :=
  match docs with
  | [] => (collectionMap, db)
  | doc :: rest =>
      if truthy doc && truthy (prop_get doc "_id") then
        match doc with
        | VObj fs =>
            let (r, db1) := alloc fs db in
            loadDocuments rest (Map_set key_eq (prop_get doc "_id") r collectionMap) db1
        | _ => loadDocuments rest collectionMap db
        end
      else loadDocuments rest collectionMap db
  end.

(** [loadCollection(collectionName)]: a file that is missing, or does not
    hold an array, ends in the [catch] branch. *)
Definition loadCollection (collectionName : string) (db : t) : t :=
  match Map_get String.eqb collectionName (collectionFiles db) with
  | Some (VArr documents) =>
      let (collectionMap, db1) := loadDocuments documents [] db in
      with_collections
        (Map_set String.eqb collectionName (RawMap collectionMap) (collections db1)) db1
  | _ =>
      with_collections
        (Map_set String.eqb collectionName (RawMap []) (collections db)) db
  end.

(** [loadCollections()]: one [loadCollection] per file of the directory. *)
Definition loadCollections (db : t) : t :=
  fold_left (fun d name => loadCollection name d) (Map_keys (collectionFiles db)) db.

(** [connect()] *)
Definition connect (db : t) : t :=
  emit connected (with_isConnected true (loadCollections db)).

(** [saveCollection(collectionName)]: the whole document set is written,
    whichever way the collection is held. *)
Definition saveCollection (collectionName : string) (db : t) : t :=
  match Map_get String.eqb collectionName (collections db) with
  | None => db
  | Some (RawMap documents) | Some (Instance documents) =>
      with_collectionFiles
        (Map_set String.eqb collectionName
                 (json_norm (VArr (map (fun r => VObj (deref db r)) (Map_values documents))))
                 (collectionFiles db))
        db
  end.

(** [queueWrite(operation)] on an idle queue: [processWriteQueue] takes the
    operation back out and runs it to completion. *)
Definition queueWrite (operation : t -> t) (db : t) : t := operation db.

(** [disconnect()]: the queue is empty. *)
Definition disconnect (db : t) : t :=
  emit disconnected (with_isConnected false db).

(** The store a new process builds over the files this one leaves:
    [new Database(options)] on the same storage root, then [connect()]. *)
Definition reopen (db : t) : t :=
  connect (new (collectionFiles db) (indexFiles db)).

End CoreDB.

(** ** The files of database/Index.js *)

Module IndexFile.
Import CoreDB.

(** [new Set(ids)] *)
Definition Set_of (ids : list value) : list value :=
  fold_left (fun s x => Set_add x s) ids [].

(** The map [load()] builds from the records it parsed. *)
Definition indexData_of (records : list (string * list value))
  : list (string * list value) :=
  fold_left (fun d record => Map_set String.eqb (fst record) (Set_of (snd record)) d)
            records [].

(** [index.save()]: the records [{key, ids}] are written to the file of the
    index. *)
Definition save (i : Index.t) (db : t) : t :=
  with_indexFiles (Map_set String.eqb (Index.name i) (Index.indexData i) (indexFiles db)) db.

(** [index.load()]: the ids come back as [JSON.parse] yields them; without a
    file the index starts empty. *)
Definition load (i : Index.t) (db : t) : Index.t :=
  match Map_get String.eqb (Index.name i) (indexFiles db) with
  | Some records =>
      Index.with_indexData
        (indexData_of (map (fun record => (fst record, map json_norm (snd record))) records)) i
  | None => Index.with_indexData [] i
  end.

End IndexFile.

(** ** database/Collection.js *)

(** The sources of nondeterminism of a call: the identifier [uuidv4()]
    returns and the successive readings of [new Date().toISOString()]. *)
Record Env : Type := {
  uuidv4 : string;
  now : nat -> string
}.

Record UpdateResult : Type := {
  matchedCount : nat;
  modifiedCount : nat;
  upsertedCount : option nat
}.

(** The options of [createIndex]. *)
Record IndexOptions : Type := {
  opt_name : option string;
  opt_unique : bool;
  opt_sparse : bool
}.

(** [v[k]], which throws on null and undefined. *)
Definition get_property (v : value) (k : string) : outcome value :=
  match v with
  | VUndef | VNull => Throw TypeError
  | _ => Return (prop_get v k)
  end.

(** A parameter with the default value [{}]. *)
Definition or_empty (v : value) : value :=
  if is_undefined v then VObj [] else v.

(** [a || b] *)
Definition js_or (a b : value) : value := if truthy a then a else b.

Module Collection.
Import CoreDB.

(** [this.documents] of the collection named [this]; a collection the store
    holds as a bare [Map], or does not hold yet, is read the way
    [Database.collection] wraps it. *)
Definition documents (this : string) (db : t) : list (value * ref) :=
  match Map_get String.eqb this (collections db) with
  | Some (RawMap d) | Some (Instance d) => d
  | None => []
  end.

Definition set_documents (this : string) (d : list (value * ref)) (db : t) : t :=
  with_collections (Map_set String.eqb this (Instance d) (collections db)) db.

(** An assignment to the stored object [r]. *)
Definition store (r : ref) (o : obj) (db : t) : t :=
  with_heap (<[r := o]> (heap db)) db.

Section WithHost.
Context (host : Host).

Definition applyQuery {A : Type} (view : A -> obj) (docs : list A) (query : value)
  : outcome (list A) :=
  Query.applyQuery host view docs query.

(** The comparator of [applySorting] for the entries of the sort
    specification. *)
Fixpoint compareBy (entries : list (string * value)) (a b : obj) : Z :=
  match entries with
  | [] => 0%Z
  | (field, direction) :: rest =>
      let aVal := obj_get field a in
      let bVal := obj_get field b in
      let sortOrder :=
        if strict_eq direction (VInt 1) || strict_eq direction (VStr "asc")
        then 1%Z else (-1)%Z in
      if js_lt host aVal bVal then (-1 * sortOrder)%Z
      else if js_gt host aVal bVal then (1 * sortOrder)%Z
      else compareBy rest a b
  end.

(** [applySorting(documents, sort)]: the comparator reads
    [Object.entries(sort)], so a null specification only throws once
    two documents are compared. *)
Definition applySorting {A : Type} (view : A -> obj) (docs : list A) (sort : value)
  : outcome (list A) :=
  match Object_entries sort with
  | Return entries =>
      Return (array_sort host (fun a b => compareBy entries (view a) (view b)) docs)
  | Throw e => if (2 <=? length docs)%nat then Throw e else Return docs
  end.

(** [applyPagination(documents, options)] *)
Definition applyPagination {A : Type} (docs : list A) (options : value) : list A :=
  let skip := js_or (prop_get options "skip") (VInt 0) in
  let limit := js_or (prop_get options "limit") (VInt (Z.of_nat (length docs))) in
  Array_slice host docs skip (js_plus host skip limit).

(** [find(query, options)]; the result is the array of the stored
    objects themselves. *)
Definition find (this : string) (query options : value) (db : t)
  : outcome (list ref) :=
  let query := or_empty query in
  let options := or_empty options in
  let results := Map_values (documents this db) in
  obind (Object_entries query) (fun keys =>
  obind (if (0 <? length keys)%nat
         then applyQuery (deref db) results query
         else Return results) (fun results =>
  obind (get_property options "sort") (fun sort =>
  obind (if truthy sort
         then applySorting (deref db) results sort
         else Return results) (fun results =>
  Return (if truthy (prop_get options "limit") || truthy (prop_get options "skip")
          then applyPagination results options
          else results))))).

(** [findOne(query)] *)
Definition findOne (this : string) (query : value) (db : t) : outcome (option ref) :=
  obind (find this query (VObj [("limit", VInt 1)]) db) (fun results =>
  Return (head results)).

(** [count(query)] *)
Definition count (this : string) (query : value) (db : t) : outcome nat :=
  obind (find this query VUndef db) (fun results => Return (length results)).

(** The loop of [updateIndexes] over [db.indexes]; the indexes visited
    before a throw keep their update. *)
Fixpoint updateIndexes_loop (this : string) (document : obj) (op : operation)
         (originalDoc : option obj) (ixs : list (string * Index.t))
  : outcome unit * list (string * Index.t) :=
  match ixs with
  | [] => (Return tt, [])
  | (indexName, index) :: rest =>
      if String.eqb (Index.collection index) this then
        match Index.update host index document op originalDoc with
        | (Return _, index') =>
            let (r, rest') := updateIndexes_loop this document op originalDoc rest in
            (r, (indexName, index') :: rest')
        | (Throw e, index') => (Throw e, (indexName, index') :: rest)
        end
      else
        let (r, rest') := updateIndexes_loop this document op originalDoc rest in
        (r, (indexName, index) :: rest')
  end.

(** [updateIndexes(document, operation, originalDoc)] *)
Definition updateIndexes (this : string) (document : obj) (op : operation)
           (originalDoc : option obj) (db : t) : outcome unit * t :=
  let (r, ixs) := updateIndexes_loop this document op originalDoc (indexes db) in
  (r, with_indexes ixs db).

(** The assignments [insert] makes to the document it is given. *)
Definition stamp (document : obj) (env : Env) : obj :=
  let document :=
    if negb (truthy (obj_get "_id" document))
    then obj_set "_id" (VStr (uuidv4 env)) document else document in
  let document := obj_set "_createdAt" (VStr (now env 0)) document in
  obj_set "_updatedAt" (VStr (now env 1)) document.

(** [insert(document)]: the result is the stored object. *)
Definition insert (this : string) (document : obj) (env : Env) (db : t)
  : outcome ref * t :=
  let document := stamp document env in
  let (r, db) := alloc document db in
  let db := set_documents this (Map_set key_eq (obj_get "_id" document) r (documents this db)) db in
  match updateIndexes this document OpInsert None db with
  | (Throw e, db) => (Throw e, db)
  | (Return _, db) =>
      let db := queueWrite (saveCollection this) db in
      let db := emit (documentInserted this r) db in
      (Return r, db)
  end.

(** [insertMany(documents)], each document with the environment of its
    [insert]. *)
Fixpoint insertMany (this : string) (docs : list (obj * Env)) (db : t)
  : outcome (list ref) * t :=
  match docs with
  | [] => (Return [], db)
  | (doc, env) :: rest =>
      match insert this doc env db with
      | (Throw e, db) => (Throw e, db)
      | (Return r, db) =>
          match insertMany this rest db with
          | (Throw e, db) => (Throw e, db)
          | (Return rs, db) => (Return (r :: rs), db)
          end
      end
  end.

(** A [forEach] over [Object.keys(values)] that rewrites the document. *)
Definition forEachKey (values : value) (f : obj -> string -> obj) (document : obj)
  : outcome unit * obj :=
  match Object_entries values with
  | Throw e => (Throw e, document)
  | Return entries => (Return tt, fold_left f (map fst entries) document)
  end.

(** One iteration of the loop of [applyUpdateOperations]. *)
Definition applyUpdateOperation (operator : string) (values : value) (document : obj)
  : outcome unit * obj :=
  if starts_with_dollar operator then
    if String.eqb operator "$set" then
      (Return tt, Object_assign document values)
    else if String.eqb operator "$unset" then
      forEachKey values (fun d key => obj_delete key d) document
    else if String.eqb operator "$inc" then
      forEachKey values
        (fun d key =>
           obj_set key (js_plus host (js_or (obj_get key d) (VInt 0)) (prop_get values key)) d)
        document
    else if String.eqb operator "$push" then
      forEachKey values
        (fun d key =>
           let d := if is_array (obj_get key d) then d else obj_set key (VArr []) d in
           match obj_get key d with
           | VArr xs => obj_set key (VArr (xs ++ [prop_get values key])) d
           | _ => d
           end)
        document
    else (Return tt, document)
  else if String.eqb operator "_id" then (Return tt, document)
  else (Return tt, obj_set operator values document).

Fixpoint applyUpdateOperations_loop (entries : list (string * value)) (document : obj)
  : outcome unit * obj :=
  match entries with
  | [] => (Return tt, document)
  | (operator, values) :: rest =>
      match applyUpdateOperation operator values document with
      | (Throw e, document) => (Throw e, document)
      | (Return _, document) => applyUpdateOperations_loop rest document
      end
  end.

(** [applyUpdateOperations(document, update, options)]: the document
    as the call leaves it, also when it throws. *)
Definition applyUpdateOperations (document : obj) (update : value) (options : value)
  : outcome unit * obj :=
  match Object_entries update with
  | Throw e => (Throw e, document)
  | Return entries => applyUpdateOperations_loop entries document
  end.

(** [document[key].push(values[key])] as the copy [{ ...doc }] sees it.
    The copy is shallow: each of its properties holds the very value the
    document held when the copy was made, so an array that [push] extends
    in place is extended in the copy too.  [touched] lists the properties
    of the document that were assigned or deleted since, whose values the
    copy does not share any more. *)
Definition pushShared (values : value) (st : obj * list string) (key : string)
  : obj * list string :=
  if existsb (String.eqb key) (snd st) then st
  else
    match obj_get key (fst st) with
    | VArr xs => (obj_set key (VArr (xs ++ [prop_get values key])) (fst st), snd st)
    | _ => (fst st, key :: snd st)
    end.

(** One iteration of the loop of [applyUpdateOperations], seen from the
    copy: [$set], [$unset], [$inc] and a plain key assign or delete
    properties of the document and leave the copy alone; [$push] replaces
    what is not an array and extends an array in place. *)
Definition shareStep (st : obj * list string) (entry : string * value)
  : obj * list string :=
  let operator := fst entry in
  let values := snd entry in
  let keys := map fst (own_entries values) in
  if starts_with_dollar operator then
    if String.eqb operator "$set" || String.eqb operator "$unset"
       || String.eqb operator "$inc"
    then (fst st, keys ++ snd st)
    else if String.eqb operator "$push" then fold_left (pushShared values) keys st
    else st
  else if String.eqb operator "_id" then st
  else (fst st, operator :: snd st).

(** [originalDoc = { ...doc }] as [updateIndexes] reads it once
    [applyUpdateOperations(doc, update, options)] has returned. *)
Definition originalDoc (doc : obj) (update : value) : obj :=
  fst (fold_left shareStep (own_entries update) (doc, [])).

(** The body of the loop of [update] over the documents found, from the
    [i]-th one on; [Return (inl n)] is the count the loop ends with and
    [Return (inr r)] the [return] from inside the loop. *)
Fixpoint update_loop (this : string) (query update options : value) (env : Env)
         (found : nat) (docs : list ref) (i : nat) (updatedCount : nat) (db : t)
  : outcome (nat + UpdateResult) * t :=
  match docs with
  | [] => (Return (inl updatedCount), db)
  | doc :: rest =>
      let originalDoc := originalDoc (deref db doc) update in
      match get_property options "upsert" with
      | Throw e => (Throw e, db)
      | Return upsert =>
          if truthy upsert && (found =? 0)%nat then
            match insert this (Object_assign (Object_assign [] query) update) env db with
            | (Throw e, db) => (Throw e, db)
            | (Return _, db) =>
                (Return (inr {| matchedCount := 0; modifiedCount := 1;
                                upsertedCount := Some 1 |}), db)
            end
          else
            match applyUpdateOperations (deref db doc) update options with
            | (Throw e, document) => (Throw e, store doc document db)
            | (Return _, document) =>
                let document := obj_set "_updatedAt" (VStr (now env i)) document in
                let db := store doc document db in
                let db := set_documents this
                            (Map_set key_eq (obj_get "_id" document) doc (documents this db)) db in
                match updateIndexes this document OpUpdate (Some originalDoc) db with
                | (Throw e, db) => (Throw e, db)
                | (Return _, db) =>
                    update_loop this query update options env found rest (S i)
                                (S updatedCount) db
                end
            end
      end
  end.

(** [update(query, update, options)] *)
Definition update (this : string) (query update options : value) (env : Env) (db : t)
  : outcome UpdateResult * t :=
  let options := or_empty options in
  match find this query VUndef db with
  | Throw e => (Throw e, db)
  | Return docs =>
      match update_loop this query update options env (length docs) docs 0 0 db with
      | (Throw e, db) => (Throw e, db)
      | (Return (inr result), db) => (Return result, db)
      | (Return (inl updatedCount), db) =>
          let db :=
            if (0 <? updatedCount)%nat then
              emit (documentUpdated this query update updatedCount)
                   (queueWrite (saveCollection this) db)
            else db in
          (Return {| matchedCount := length docs; modifiedCount := updatedCount;
                     upsertedCount := None |}, db)
      end
  end.

(** The loop of [delete] over the documents found. *)
Fixpoint delete_loop (this : string) (docs : list ref) (deletedIds : list value) (db : t)
  : outcome (list value) * t :=
  match docs with
  | [] => (Return deletedIds, db)
  | doc :: rest =>
      let document := deref db doc in
      let db := set_documents this
                  (Map_delete key_eq (obj_get "_id" document) (documents this db)) db in
      let deletedIds := deletedIds ++ [obj_get "_id" document] in
      match updateIndexes this document OpDelete None db with
      | (Throw e, db) => (Throw e, db)
      | (Return _, db) => delete_loop this rest deletedIds db
      end
  end.

(** [delete(query)]: the result is [deletedCount]. *)
Definition delete (this : string) (query : value) (db : t) : outcome nat * t :=
  match find this query VUndef db with
  | Throw e => (Throw e, db)
  | Return docs =>
      match delete_loop this docs [] db with
      | (Throw e, db) => (Throw e, db)
      | (Return deletedIds, db) =>
          let db :=
            if (0 <? length deletedIds)%nat then
              emit (documentDeleted this query (length deletedIds))
                   (queueWrite (saveCollection this) db)
            else db in
          (Return (length deletedIds), db)
      end
  end.


(** [createIndex(fields, options)]: the index is registered and saved
    only when every document went in. *)
Fixpoint buildIndex (index : Index.t) (docs : list obj) : outcome unit * Index.t :=
  match docs with
  | [] => (Return tt, index)
  | doc :: rest =>
      match Index.update host index doc OpInsert None with
      | (Throw e, index) => (Throw e, index)
      | (Return _, index) => buildIndex index rest
      end
  end.

Definition createIndex (this : string) (fields : list string) (options : IndexOptions)
           (db : t) : outcome string * t :=
  let indexName :=
    match opt_name options with
    | Some n => if String.eqb n EmptyString then (this ++ "_" ++ join "_" (map Some fields))%string else n
    | None => (this ++ "_" ++ join "_" (map Some fields))%string
    end in
  let index := Index.new indexName this fields (opt_unique options) (opt_sparse options) in
  match buildIndex index (map (deref db) (Map_values (documents this db))) with
  | (Throw e, _) => (Throw e, db)
  | (Return _, index) =>
      let db := with_indexes (Map_set String.eqb indexName index (indexes db)) db in
      let db := with_indexFiles
                  (Map_set String.eqb indexName (Index.save index) (indexFiles db)) db in
      (Return indexName, db)
  end.

(** [dropIndex(indexName)] *)
Definition dropIndex (this : string) (indexName : string) (db : t) : t :=
  match Map_get String.eqb indexName (indexes db) with
  | Some index =>
      if String.eqb (Index.collection index) this then
        with_indexFiles (Map_delete String.eqb indexName (indexFiles db))
          (with_indexes (Map_delete String.eqb indexName (indexes db)) db)
      else db
  | None => db
  end.

End WithHost.
End Collection.

(** ** database/Database.js *)

(** Addition of numbers. *)
Definition num_add (x y : num) : num :=
  match x, y with
  | NaN, _ | _, NaN => NaN
  | PosInf, NegInf | NegInf, PosInf => NaN
  | PosInf, _ | _, PosInf => PosInf
  | NegInf, _ | _, NegInf => NegInf
  | Fin p, Fin q => Fin (Qred (p + q))
  end.

(** [typeof v === 'object'] *)
Definition typeof_object (v : value) : bool :=
  match v with
  | VNull | VArr _ | VObj _ | VRegExp _ => true
  | _ => false
  end.

Module Database.
Import CoreDB.

(** [collection(name)]: the collection is created, or its bare [Map] is
    wrapped, on first use. *)
Definition collection (name : string) (db : t) : t :=
  match Map_get String.eqb name (collections db) with
  | None => with_collections (Map_set String.eqb name (Instance []) (collections db)) db
  | Some (Instance _) => db
  | Some (RawMap d) =>
      with_collections (Map_set String.eqb name (Instance d) (collections db)) db
  end.

(** [createCollection(name)] *)
Definition createCollection (name : string) (db : t) : t :=
  let db :=
    if Map_has String.eqb name (collections db) then db
    else with_collections (Map_set String.eqb name (RawMap []) (collections db)) db in
  saveCollection name (collection name db).

(** [listCollections()] *)
Definition listCollections (db : t) : list string := Map_keys (collections db).

(** [getIndexes(collectionName)] *)
Definition getIndexes (collectionName : string) (db : t) : list Index.t :=
  List.filter (fun index => String.eqb (Index.collection index) collectionName)
              (Map_values (indexes db)).

(** [dropIndex(indexName)] *)
Definition dropIndex (indexName : string) (db : t) : t :=
  match Map_get String.eqb indexName (indexes db) with
  | Some index =>
      Collection.dropIndex (Index.collection index) indexName
                           (collection (Index.collection index) db)
  | None => db
  end.

(** [dropCollection(name)] *)
Definition dropCollection (name : string) (db : t) : t :=
  if Map_has String.eqb name (collections db) then
    let db := with_collections (Map_delete String.eqb name (collections db)) db in
    let db := with_collectionFiles (Map_delete String.eqb name (collectionFiles db)) db in
    let dropped :=
      map fst (List.filter (fun ni => String.eqb (Index.collection (snd ni)) name)
                           (indexes db)) in
    let db :=
      fold_left (fun d indexName =>
                   with_indexFiles (Map_delete String.eqb indexName (indexFiles d))
                     (with_indexes (Map_delete String.eqb indexName (indexes d)) d))
                dropped db in
    emit (collectionDropped name) db
  else db.

(** [getNestedValue(obj, path)]: a path that is not a string yields
    undefined. *)
Definition getNestedValue (o : obj) (path : value) : value :=
  match path with
  | VStr p => Index.getNestedValue o p
  | _ => VUndef
  end.

Section WithHost.
Context (host : Host).

(** [createIndex(collectionName, fields, options)] *)
Definition createIndex (collectionName : string) (fields : list string)
           (options : IndexOptions) (db : t) : outcome string * t :=
  Collection.createIndex host collectionName fields options (collection collectionName db).

(** [getGroupKey(doc, idSpec)] *)
Definition getGroupKey (doc : obj) (idSpec : value) : outcome value :=
  match idSpec with
  | VStr field => Return (obj_get field doc)
  | VNull => Return VNull
  | _ =>
      obind (Object_entries idSpec) (fun entries =>
      Return (VStr (JSON_stringify host
                      (VObj (fold_left
                               (fun key af => obj_set (fst af) (getNestedValue doc (snd af)) key)
                               entries [])))))
  end.

(** [x++] on a property: the value it leaves. *)
Definition increment (v : value) : value :=
  match v with
  | VNum n => VNum (num_add n (Fin 1))
  | _ => VNum (num_add (to_number host v) (Fin 1))
  end.

(** [applyAccumulator(groupDoc, field, operator, value)]: the group
    document it leaves. *)
Definition applyAccumulator (groupDoc : obj) (field operator : string) (v : value) : obj :=
  let groupDoc :=
    if negb (truthy (obj_get field groupDoc)) then
      if String.eqb operator "$sum" then obj_set field (VInt 0) groupDoc
      else if String.eqb operator "$avg" then
        obj_set field (VObj [("sum", VInt 0); ("count", VInt 0)]) groupDoc
      else if String.eqb operator "$min" then
        obj_set field (if negb (is_undefined v) then v else VNum PosInf) groupDoc
      else if String.eqb operator "$max" then
        obj_set field (if negb (is_undefined v) then v else VNum NegInf) groupDoc
      else if String.eqb operator "$push" then obj_set field (VArr []) groupDoc
      else obj_set field (VInt 0) groupDoc
    else groupDoc in
  let current := obj_get field groupDoc in
  if String.eqb operator "$sum" then
    obj_set field (js_plus host current (js_or v (VInt 0))) groupDoc
  else if String.eqb operator "$avg" then
    if typeof_object current && negb (is_undefined (prop_get current "sum")) then
      let sum := js_plus host (prop_get current "sum") (js_or v (VInt 0)) in
      let count := increment (prop_get current "count") in
      obj_set field (js_div host sum count) groupDoc
    else groupDoc
  else if String.eqb operator "$min" then
    if negb (is_undefined v) && js_lt host v current then obj_set field v groupDoc
    else groupDoc
  else if String.eqb operator "$max" then
    if negb (is_undefined v) && js_gt host v current then obj_set field v groupDoc
    else groupDoc
  else if String.eqb operator "$push" then
    match current with
    | VArr xs => obj_set field (VArr (xs ++ [v])) groupDoc
    | _ => groupDoc
    end
  else groupDoc.

(** The loop of [applyGroupStage] over the accumulators of the group
    specification, for one document. *)
Fixpoint accumulate (doc : obj) (entries : list (string * value)) (groupDoc : obj)
  : outcome obj :=
  match entries with
  | [] => Return groupDoc
  | (field, accumulator) :: rest =>
      if negb (String.eqb field "_id") then
        obind (Object_entries accumulator) (fun acc =>
        match acc with
        | [] => Throw TypeError
        | (operator, fieldPath) :: _ =>
            match fieldPath with
            | VStr _ =>
                accumulate doc rest
                  (applyAccumulator groupDoc field operator (getNestedValue doc fieldPath))
            | _ => accumulate doc rest groupDoc
            end
        end)
      else accumulate doc rest groupDoc
  end.

(** The group of a key, created on first use, rewritten by [f].  A key
    that is an array or an object is a new allocation for every
    document, so it always opens a group. *)
Fixpoint with_group (groupKey : value) (f : obj -> outcome obj)
         (groups : list (value * obj)) : outcome (list (value * obj)) :=
  match groups with
  | [] => obind (f [("_id", groupKey)]) (fun g => Return [(groupKey, g)])
  | (k, g) :: rest =>
      if same_value_zero k groupKey
      then obind (f g) (fun g' => Return ((k, g') :: rest))
      else obind (with_group groupKey f rest) (fun rest' => Return ((k, g) :: rest'))
  end.

Fixpoint group_loop (_id : value) (entries : list (string * value)) (docs : list obj)
         (groups : list (value * obj)) : outcome (list (value * obj)) :=
  match docs with
  | [] => Return groups
  | doc :: rest =>
      obind (getGroupKey doc _id) (fun groupKey =>
      obind (with_group groupKey (accumulate doc entries) groups) (fun groups =>
      group_loop _id entries rest groups))
  end.

(** [applyGroupStage(documents, group)] *)
Definition applyGroupStage (docs : list obj) (group : value) : outcome (list obj) :=
  obind (get_property group "_id") (fun _id =>
  obind (group_loop _id (own_entries group) docs []) (fun groups =>
  Return (Map_values groups))).

(** [evaluateProjectionExpression(doc, expression)] *)
Definition evaluateProjectionExpression (doc : obj) (expression : value) : outcome value :=
  obind (get_property expression "$concat") (fun concat =>
  if truthy concat then
    match concat with
    | VArr paths =>
        Return (VStr (join EmptyString
                        (map (fun path =>
                                match getNestedValue doc path with
                                | VUndef | VNull => None
                                | v => Some (to_string host v)
                                end) paths)))
    | _ => Throw TypeError
    end
  else Return VNull).

(** The body of the callback of [applyProjectStage] for one document. *)
Fixpoint project (doc : obj) (entries : list (string * value)) (projected : obj)
  : outcome obj :=
  match entries with
  | [] => Return projected
  | (field, v) :: rest =>
      if strict_eq v (VInt 1) || strict_eq v (VBool true) then
        project doc rest (obj_set field (getNestedValue doc (VStr field)) projected)
      else
        match v with
        | VStr _ => project doc rest (obj_set field (getNestedValue doc v) projected)
        | _ =>
            if typeof_object v then
              obind (evaluateProjectionExpression doc v) (fun x =>
              project doc rest (obj_set field x projected))
            else project doc rest projected
        end
  end.

Fixpoint project_all (projection : value) (docs : list obj) : outcome (list obj) :=
  match docs with
  | [] => Return []
  | doc :: rest =>
      obind (Object_entries projection) (fun entries =>
      obind (project doc entries []) (fun p =>
      obind (project_all projection rest) (fun ps => Return (p :: ps))))
  end.

(** [applyProjectStage(documents, projection)] *)
Definition applyProjectStage (docs : list obj) (projection : value) : outcome (list obj) :=
  project_all projection docs.

(** One stage of the loop of [aggregate]. *)
Definition stage_step (results : list obj) (stage : value) : outcome (list obj) :=
  obind (Object_entries stage) (fun entries =>
  match entries with
  | [] => Throw TypeError
  | (operator, v) :: _ =>
      if String.eqb operator "$match" then Collection.applyQuery host id results v
      else if String.eqb operator "$group" then applyGroupStage results v
      else if String.eqb operator "$sort" then Collection.applySorting host id results v
      else if String.eqb operator "$limit" then Return (Array_slice host results (VInt 0) v)
      else if String.eqb operator "$skip" then Return (Array_slice host results v VUndef)
      else if String.eqb operator "$project" then applyProjectStage results v
      else Return results
  end).

Fixpoint stages (pipeline : list value) (results : list obj) : outcome (list obj) :=
  match pipeline with
  | [] => Return results
  | stage :: rest => obind (stage_step results stage) (stages rest)
  end.

(** [aggregate(collectionName, pipeline)] *)
Definition aggregate (collectionName : string) (pipeline : list value) (db : t)
  : outcome (list obj) * t :=
  let db := collection collectionName db in
  (stages pipeline (map (deref db) (Map_values (Collection.documents collectionName db))),
   db).

End WithHost.
End Database.

(** ** The write queue of database/CoreDB.js *)

Module WriteQueue.
Section Queue.
(** The queued operations are opaque. *)
Context {Op : Type}.

(** [writeQueue] and [isWriting] are the fields of the store.  An
    activation of [processWriteQueue] that has entered its loop is
    suspended at [await operation()]: [awaiting] lists the operations
    such activations wait for, which are the operations in execution,
    and [ready] counts the activations whose operation has settled and
    that have not been resumed yet.  [started] and [enqueued] record the
    operations in the order they were started and pushed. *)
Record state : Type := {
  writeQueue : list Op;
  isWriting : bool;
  awaiting : list Op;
  ready : nat;
  started : list Op;
  enqueued : list Op
}.

Definition init : state :=
  {| writeQueue := []; isWriting := false; awaiting := []; ready := 0;
     started := []; enqueued := [] |}.

(** The head of the [while] loop: the next operation is shifted and
    called, or the loop ends and [isWriting] is reset. *)
Definition loop_head (s : state) : state :=
  match writeQueue s with
  | operation :: rest =>
      {| writeQueue := rest; isWriting := isWriting s;
         awaiting := operation :: awaiting s; ready := ready s;
         started := started s ++ [operation]; enqueued := enqueued s |}
  | [] =>
      {| writeQueue := []; isWriting := false;
         awaiting := awaiting s; ready := ready s;
         started := started s; enqueued := enqueued s |}
  end.

(** [processWriteQueue()] up to its first suspension. *)
Definition processWriteQueue (s : state) : state :=
  if isWriting s || (length (writeQueue s) =? 0)%nat then s
  else loop_head {| writeQueue := writeQueue s; isWriting := true;
                    awaiting := awaiting s; ready := ready s;
                    started := started s; enqueued := enqueued s |}.

(** [queueWrite(operation)] up to its first suspension. *)
Definition queueWrite (operation : Op) (s : state) : state :=
  let s := {| writeQueue := writeQueue s ++ [operation]; isWriting := isWriting s;
              awaiting := awaiting s; ready := ready s;
              started := started s; enqueued := enqueued s ++ [operation] |} in
  if negb (isWriting s) then processWriteQueue s else s.

(** The [i]-th operation in execution settles, by fulfilment or by a
    rejection that the [catch] absorbs. *)
Definition settle (i : nat) (s : state) : option state :=
  match awaiting s !! i with
  | Some _ =>
      Some {| writeQueue := writeQueue s; isWriting := isWriting s;
              awaiting := take i (awaiting s) ++ drop (S i) (awaiting s);
              ready := S (ready s);
              started := started s; enqueued := enqueued s |}
  | None => None
  end.

(** An activation whose operation has settled goes round the loop. *)
Definition resume (s : state) : option state :=
  match ready s with
  | S n =>
      Some (loop_head {| writeQueue := writeQueue s; isWriting := isWriting s;
                         awaiting := awaiting s; ready := n;
                         started := started s; enqueued := enqueued s |})
  | O => None
  end.

(** One uninterrupted run of the single thread. *)
Inductive step : state -> state -> Prop :=
| step_queueWrite (operation : Op) (s : state) :
    step s (queueWrite operation s)
| step_processWriteQueue (s : state) :
    step s (processWriteQueue s)
| step_settle (i : nat) (s s' : state) :
    settle i s = Some s' -> step s s'
| step_resume (s s' : state) :
    resume s = Some s' -> step s s'.

Inductive reachable : state -> Prop :=
| reachable_init : reachable init
| reachable_step (s s' : state) : reachable s -> step s s' -> reachable s'.

(** The invariant of the queue. *)
Definition invariant (s : state) : Prop :=
  length (awaiting s) + ready s <= 1
  /\ enqueued s = started s ++ writeQueue s
  /\ (isWriting s = true -> length (awaiting s) + ready s = 1)
  /\ (isWriting s = false -> length (awaiting s) + ready s = 0 /\ writeQueue s = []).
End Queue.
Arguments state : clear implicits.
End WriteQueue.

(** ** The snapshot writes of a store *)

Module SnapshotWrites.
Import WriteQueue.

(** The operations [insert], [update] and [delete] hand to [queueWrite]
    are the closures [async () => { await this.db.saveCollection(this.name) }],
    named here by their collection: while one is in execution, its
    [saveCollection] is suspended at [fs.writeFile].
    [Database.createCollection] awaits [saveCollection] itself, without
    [queueWrite]: [direct] lists the collections of those calls that are
    suspended at [fs.writeFile]. *)
Record state : Type := {
  queue : WriteQueue.state string;
  direct : list string
}.

Definition init : state := {| queue := WriteQueue.init; direct := [] |}.

(** The collections whose snapshot is being written. *)
Definition writing (s : state) : list string := awaiting (queue s) ++ direct s.

(** [createCollection(name)] up to the suspension of its
    [saveCollection(name)]. *)
Definition createCollection (name : string) (s : state) : state :=
  {| queue := queue s; direct := direct s ++ [name] |}.

(** The [i]-th write started outside the queue completes. *)
Definition written (i : nat) (s : state) : option state :=
  match direct s !! i with
  | Some _ =>
      Some {| queue := queue s; direct := take i (direct s) ++ drop (S i) (direct s) |}
  | None => None
  end.

(** One uninterrupted run of the single thread. *)
Inductive step : state -> state -> Prop :=
| step_queue (s : state) (q' : WriteQueue.state string) :
    WriteQueue.step (queue s) q' -> step s {| queue := q'; direct := direct s |}
| step_createCollection (name : string) (s : state) :
    step s (createCollection name s)
| step_written (i : nat) (s s' : state) :
    written i s = Some s' -> step s s'.

Inductive reachable : state -> Prop :=
| reachable_init : reachable init
| reachable_step (s s' : state) : reachable s -> step s s' -> reachable s'.

End SnapshotWrites.

(** ** A host for concrete runs *)

(** [node] is exact on numbers and on strings.  Where the host language
    would first convert an operand (a string compared with a number, an
    object added to a string, ...) it gives a fixed answer, regular
    expressions are matched as literal text, and a string is printed by
    [JSON_stringify] without escapes; no run evaluated below reaches such a
    case. *)
Module Node.
Local Open Scope string_scope.

Definition num_lt (x y : num) : bool :=
  match x, y with
  | NaN, _ | _, NaN => false
  | Fin p, Fin q => negb (Qle_bool q p)
  | NegInf, NegInf => false
  | NegInf, _ => true
  | _, PosInf => match x with PosInf => false | _ => true end
  | _, _ => false
  end.

Definition num_le (x y : num) : bool :=
  match x, y with
  | NaN, _ | _, NaN => false
  | _, _ => num_lt x y || num_strict_eq x y
  end.

Definition num_sign (x : num) : Z :=
  match x with
  | Fin q => Z.sgn (Qnum q)
  | PosInf => 1
  | NegInf => (-1)
  | NaN => 0
  end.

Definition num_div (x y : num) : num :=
  match x, y with
  | NaN, _ | _, NaN => NaN
  | Fin p, Fin q =>
      if Qeq_bool q 0 then
        match Z.sgn (Qnum p) with
        | Z0 => NaN
        | Zpos _ => PosInf
        | Zneg _ => NegInf
        end
      else Fin (Qred (p / q))
  | Fin _, _ => Fin 0
  | _, Fin q =>
      match (num_sign x * (if Qle_bool 0 q then 1 else -1))%Z with
      | Zneg _ => NegInf
      | _ => PosInf
      end
  | _, _ => NaN
  end.

Definition lt (a b : value) : bool :=
  match a, b with
  | VNum x, VNum y => num_lt x y
  | VStr x, VStr y => String.ltb x y
  | _, _ => false
  end.

Definition le (a b : value) : bool :=
  match a, b with
  | VNum x, VNum y => num_le x y
  | VStr x, VStr y => String.leb x y
  | _, _ => false
  end.

Definition plus (a b : value) : value :=
  match a, b with
  | VNum x, VNum y => VNum (num_add x y)
  | VStr x, VStr y => VStr (x ++ y)
  | _, _ => VNum NaN
  end.

Definition div (a b : value) : value :=
  match a, b with
  | VNum x, VNum y => VNum (num_div x y)
  | _, _ => VNum NaN
  end.

Definition toNumber (v : value) : num :=
  match v with
  | VNull => Fin 0
  | VBool b => Fin (if b then 1 else 0)
  | VNum n => n
  | _ => NaN
  end.

Definition Z_to_string (z : Z) : string :=
  match z with
  | Z0 => "0"
  | Zpos p => nat_to_string (Pos.to_nat p)
  | Zneg p => "-" ++ nat_to_string (Pos.to_nat p)
  end.

Definition num_to_string (n : num) : string :=
  match n with
  | Fin q =>
      match Qden (Qred q) with
      | xH => Z_to_string (Qnum (Qred q))
      | d => Z_to_string (Qnum (Qred q)) ++ "/" ++ nat_to_string (Pos.to_nat d)
      end
  | PosInf => "Infinity"
  | NegInf => "-Infinity"
  | NaN => "NaN"
  end.

Definition toString (v : value) : string :=
  match v with
  | VUndef => "undefined"
  | VNull => "null"
  | VBool true => "true"
  | VBool false => "false"
  | VNum n => num_to_string n
  | VStr s => s
  | _ => "[object Object]"
  end.

(** The double quote. *)
Definition dquote : ascii := ascii_of_nat 34.

Definition quote (s : string) : string := String dquote (s ++ String dquote EmptyString).

Fixpoint stringify (v : value) : string :=
  match v with
  | VUndef | VNull => "null"
  | VBool true => "true"
  | VBool false => "false"
  | VNum (Fin q) => num_to_string (Fin q)
  | VNum _ => "null"
  | VStr s => quote s
  | VRegExp _ => "{}"
  | VArr xs =>
      "[" ++ (fix items (l : list value) : string :=
                match l with
                | [] => EmptyString
                | [x] => stringify x
                | x :: rest => stringify x ++ "," ++ items rest
                end) xs ++ "]"
  | VObj fs =>
      "{" ++ (fix props (l : list (string * value)) (first : bool) : string :=
                match l with
                | [] => EmptyString
                | (k, x) :: rest =>
                    if is_undefined x then props rest first
                    else (if first then EmptyString else ",") ++ quote k ++ ":" ++ stringify x
                           ++ props rest false
                end) fs true ++ "}"
  end.

Fixpoint is_prefix (p s : string) : bool :=
  match p, s with
  | EmptyString, _ => true
  | String a p', String b s' => Ascii.eqb a b && is_prefix p' s'
  | _, _ => false
  end.

Fixpoint contains (s p : string) : bool :=
  is_prefix p s ||
  match s with
  | EmptyString => false
  | String _ s' => contains s' p
  end.

Definition test (pattern subject : value) : outcome bool :=
  match pattern with
  | VStr p | VRegExp p => Return (contains (toString subject) p)
  | _ => Return false
  end.

Definition stringIncludes (s : string) (v : value) : outcome bool :=
  match v with
  | VRegExp _ => Throw TypeError
  | _ => Return (contains s (toString v))
  end.

(** A stable insertion sort: an item goes after the items that do not
    compare greater than it. *)
Section Sort.
Context {A : Type} (compare : A -> A -> Z).

Fixpoint insert_sorted (x : A) (sorted : list A) : list A :=
  match sorted with
  | [] => [x]
  | y :: rest =>
      if (0 <? compare y x)%Z then x :: y :: rest
      else y :: insert_sorted x rest
  end.

Definition sort (xs : list A) : list A :=
  fold_left (fun sorted x => insert_sorted x sorted) xs [].
End Sort.

End Node.

Definition node : Host :=
  {| js_lt := Node.lt;
     js_le := Node.le;
     js_gt := fun a b => Node.lt b a;
     js_ge := fun a b => Node.le b a;
     js_plus := Node.plus;
     js_div := Node.div;
     to_number := Node.toNumber;
     to_string := Node.toString;
     JSON_stringify := Node.stringify;
     regexp_test := Node.test;
     string_includes := Node.stringIncludes;
     array_sort := @Node.sort |}.

(** ** Sample data *)

Module Sample.

Definition env (id : string) : Env := {| uuidv4 := id; now := fun _ => "2024-01-01T00:00:00.000Z" |}.

(** A store connected over an empty storage root. *)
Definition empty : CoreDB.t := CoreDB.connect (CoreDB.new [] []).

Definition insert (document : obj) (id : string) (db : CoreDB.t) : CoreDB.t :=
  snd (Collection.insert node "users" document (env id) db).

(** The store once the handle [db.collection("users")] has been taken:
    the collection is there and empty. *)
Definition users : CoreDB.t := Database.collection "users" empty.

(** Three users aged 25, 30 and 18. *)
Definition ages : CoreDB.t :=
  insert [("age", VInt 18)] "u3"
    (insert [("age", VInt 30)] "u2"
       (insert [("age", VInt 25)] "u1" empty)).

Definition pipeline : list value :=
  [ VObj [("$match", VObj [("age", VObj [("$gte", VInt 20)])])];
    VObj [("$group", VObj [("_id", VNull);
                           ("avg", VObj [("$avg", VStr "age")]);
                           ("count", VObj [("$sum", VInt 1)])])] ].

Definition jane : value := VObj [("name", VStr "Jane")].
Definition set_age_30 : value := VObj [("$set", VObj [("age", VInt 30)])].
Definition upsert : value := VObj [("upsert", VBool true)].

Definition john : obj := [("_id", VStr "a"); ("name", VStr "John"); ("email", VStr "john@example.com")].
Definition duplicate : obj := [("_id", VStr "b"); ("name", VStr "Duplicate"); ("email", VStr "john@example.com")].

Definition by_email : Index.t := Index.new "users_email" "users" ["email"] true false.
Definition by_email_sparse : Index.t := Index.new "users_email" "users" ["email"] true true.

Definition options (unique : bool) : IndexOptions :=
  {| opt_name := None; opt_unique := unique; opt_sparse := false |}.

(** John stored, with an index on the name and a unique index on the
    email address. *)
Definition indexed : CoreDB.t :=
  snd (Collection.createIndex node "users" ["email"] (options true)
         (snd (Collection.createIndex node "users" ["name"] (options false)
                 (insert john "unused" empty)))).

(** John after [update({name: "John"}, {$set: {age: 30}})]. *)
Definition aged : CoreDB.t :=
  snd (Collection.update node "users" (VObj [("name", VStr "John")]) set_age_30
         VUndef (env "unused") (insert john "unused" empty)).

(** Five products priced 1000, 500, 20, 300 and 100, inserted in that
    order. *)
Definition product (name : string) (price : Z) : obj :=
  [("name", VStr name); ("price", VInt price)].

Definition products : CoreDB.t :=
  snd (Collection.insertMany node "products"
         [(product "Laptop" 1000, env "p1"); (product "Phone" 500, env "p2");
          (product "Book" 20, env "p3"); (product "Desk" 300, env "p4");
          (product "Lamp" 100, env "p5")]
         empty).

(** The names of the documents a [find] returned. *)
Definition names (db : CoreDB.t) (found : outcome (list ref)) : outcome (list value) :=
  obind found (fun rs => Return (map (fun r => obj_get "name" (CoreDB.deref db r)) rs)).

(** The unique index on the email address with John in it, and with John
    and Carol in it. *)
Definition carol : obj := [("_id", VStr "c"); ("name", VStr "Carol"); ("email", VStr "carol@example.com")].
Definition john_indexed : Index.t := snd (Index.update node by_email john OpInsert None).
Definition two_indexed : Index.t := snd (Index.update node john_indexed carol OpInsert None).

(** A user with an index on its tags, and the same after
    [update({}, {$push: {tags: "y"}})]. *)
Definition tagged : CoreDB.t :=
  snd (Collection.createIndex node "users" ["tags"] (options false)
         (insert [("_id", VStr "a"); ("tags", VArr [VStr "x"])] "unused" empty)).
Definition pushed : CoreDB.t :=
  snd (Collection.update node "users" (VObj []) (VObj [("$push", VObj [("tags", VStr "y")])])
         VUndef (env "unused") tagged).

(** One document whose identifier was rewritten by an update. *)
Definition renamed : CoreDB.t :=
  snd (Collection.update node "users" (VObj []) (VObj [("$set", VObj [("_id", VStr "b")])])
         VUndef (env "unused") (insert [("_id", VStr "a"); ("n", VInt 1)] "unused" empty)).

End Sample.

(** ** Notions used by the statements *)

(** No index bound to the collection [this] is unique. *)
Definition no_unique_index (this : string) (ixs : list (string * Index.t)) : Prop :=
  forall n i, In (n, i) ixs -> Index.collection i = this -> Index.unique i = false.

(** The documents of a collection, in the order [find] returns them. *)
Definition contents (this : string) (db : CoreDB.t) : list obj :=
  map (CoreDB.deref db) (Map_values (Collection.documents this db)).

(** No two keys of the list are the same key. *)
Fixpoint distinct (keys : list value) : Prop :=
  match keys with
  | [] => True
  | k :: rest => Forall (fun k' => key_eq k k' = false) rest /\ distinct rest
  end.

(** The entry binds a document to its own identifier, which is truthy, and
    the document is made of JSON values: its snapshot parses back to
    itself. *)
Definition own_entry (db : CoreDB.t) (kr : value * ref) : Prop :=
  key_eq (fst kr) (obj_get "_id" (CoreDB.deref db (snd kr))) = true
  /\ truthy (obj_get "_id" (CoreDB.deref db (snd kr))) = true
  /\ json_norm (VObj (CoreDB.deref db (snd kr))) = VObj (CoreDB.deref db (snd kr)).

(** Every document of the collection [this] is stored under its own
    identifier, and the keys of its document set are distinct, as [Map.set]
    keeps them. *)
Definition keyed_by_id (this : string) (db : CoreDB.t) : Prop :=
  distinct (Map_keys (Collection.documents this db))
  /\ Forall (own_entry db) (Collection.documents this db).

(** No two names of the list are the same. *)
Fixpoint distinct_names (names : list string) : Prop :=
  match names with
  | [] => True
  | n :: rest => Forall (fun n' => String.eqb n n' = false) rest /\ distinct_names rest
  end.

(** The data of an index as [Map] and [Set] keep them: no key twice, and
    under every key a set of ids that is not empty and holds no id twice. *)
Definition index_wf (d : list (string * list value)) : Prop :=
  distinct_names (Map_keys d)
  /\ Forall (fun kv => snd kv <> [] /\ distinct (snd kv)) d.

(** Every key of the index leads to exactly one id. *)
Definition one_id_per_key (d : list (string * list value)) : Prop :=
  Forall (fun kv => length (snd kv) = 1) d.


(** The operators [handleComparisonOperators] knows. *)
Definition known_operator (operator : string) : bool :=
  existsb (String.eqb operator)
          ["$eq"; "$ne"; "$gt"; "$gte"; "$lt"; "$lte"; "$in"; "$nin"; "$regex"].



(** The path has a single segment. *)
Fixpoint no_dot (path : string) : bool :=
  match path with
  | EmptyString => true
  | String c rest => negb (Ascii.eqb c "."%char) && no_dot rest
  end.

(** The host adds integers as integers.  The numbers of JavaScript do so
    as long as the sum is within 2^53 in magnitude; the statements that
    assume this add a [skip] and a [limit], and [slice] clamps both its
    bounds at the length of the array. *)
Definition adds_integers (host : Host) : Prop :=
  forall a b : Z, js_plus host (VInt a) (VInt b) = VInt (a + b).




(** Runs of the write queue in which only queued operations settle and the
    loop of [processWriteQueue] goes on. *)
Inductive drains {Op : Type} : WriteQueue.state Op -> WriteQueue.state Op -> Prop :=
| drains_done (s : WriteQueue.state Op) : drains s s
| drains_settle (i : nat) (s s' s'' : WriteQueue.state Op) :
    WriteQueue.settle i s = Some s' -> drains s' s'' -> drains s s''
| drains_resume (s s' s'' : WriteQueue.state Op) :
    WriteQueue.resume s = Some s' -> drains s' s'' -> drains s s''.


(** What [results.slice(skip, skip + limit)] keeps of the results when
    both are natural numbers, a limit of 0 standing for no limit. *)
Definition page {A : Type} (skip limit : nat) (results : list A) : list A :=
  if (limit =? 0)%nat then skipn skip results else firstn limit (skipn skip results).

(** The option holds the natural number [n], a missing option counting
    as 0. *)
Definition reads_as (v : value) (n : nat) : Prop :=
  v = VInt (Z.of_nat n) \/ (v = VUndef /\ n = 0).

(** Every entry of the collection [this] denotes an object of the store. *)
Definition stored (this : string) (db : CoreDB.t) : Prop :=
  Forall (fun r => r < length (CoreDB.heap db)) (Map_values (Collection.documents this db)).

Ltac by_computation :=
  vm_compute; repeat first [discriminate | exact I | reflexivity | split | constructor].

Ltac close_invariant :=
  unfold WriteQueue.invariant; cbn; repeat split; intros;
  first [assumption | discriminate | lia | reflexivity | idtac].

(** * Properties *)

(** ** Keys, maps and sets *)

Lemma num_same_refl (n : num) : num_same n n = true.
Proof.
  destruct n; simpl; try reflexivity.
  apply Qeq_bool_iff. reflexivity.
Qed.

Lemma key_eq_refl : forall v : value, key_eq v v = true.
Proof.
  fix IH 1. intros [ | | b | n | s | s | xs | fs]; simpl; try reflexivity.
  - destruct b; reflexivity.
  - apply num_same_refl.
  - apply String.eqb_refl.
  - apply String.eqb_refl.
  - induction xs as [|x xs IHxs]; [reflexivity|].
    rewrite IH, IHxs. reflexivity.
  - induction fs as [|[k x] fs IHfs]; [reflexivity|].
    rewrite String.eqb_refl, IH, IHfs. reflexivity.
Qed.

Section MapFacts.
Context {V : Type}.

Lemma Map_get_set_same (k : string) (v : V) (m : list (string * V)) :
  Map_get String.eqb k (Map_set String.eqb k v m) = Some v.
Proof.
  induction m as [|[k' v'] m IH]; simpl.
  - rewrite String.eqb_refl. reflexivity.
  - destruct (String.eqb k' k) eqn:E; simpl; rewrite E; [reflexivity | exact IH].
Qed.

Lemma Map_has_set_same (k : string) (v : V) (m : list (string * V)) :
  Map_has String.eqb k (Map_set String.eqb k v m) = true.
Proof.
  induction m as [|[k' v'] m IH]; simpl.
  - rewrite String.eqb_refl. reflexivity.
  - destruct (String.eqb k' k) eqn:E; simpl; rewrite E; [reflexivity | exact IH].
Qed.

Lemma Map_has_get (k : string) (m : list (string * V)) :
  Map_has String.eqb k m = false -> Map_get String.eqb k m = None.
Proof.
  induction m as [|[k' v'] m IH]; simpl; [reflexivity|].
  destruct (String.eqb k' k); simpl; [discriminate | exact IH].
Qed.

Lemma Map_has_delete_set (k : string) (v : V) (m : list (string * V)) :
  Map_has String.eqb k m = false ->
  Map_delete String.eqb k (Map_set String.eqb k v m) = m.
Proof.
  induction m as [|[k' v'] m IH]; simpl.
  - rewrite String.eqb_refl. reflexivity.
  - destruct (String.eqb k' k) eqn:E; simpl; [discriminate|].
    intros H. rewrite E, IH by exact H. reflexivity.
Qed.

Lemma Map_set_set (k : string) (v w : V) (m : list (string * V)) :
  Map_set String.eqb k w (Map_set String.eqb k v m) = Map_set String.eqb k w m.
Proof.
  induction m as [|[k' v'] m IH]; simpl.
  - rewrite String.eqb_refl. reflexivity.
  - destruct (String.eqb k' k) eqn:E; simpl; rewrite E; [reflexivity|].
    rewrite IH. reflexivity.
Qed.
End MapFacts.

Lemma Set_delete_singleton (x : value) : Set_delete x [x] = [].
Proof. simpl. rewrite key_eq_refl. reflexivity. Qed.

(** ** Index *)

Section IndexFacts.
Context (host : Host).

(** The key of a document depends on the index through its fields and
    its sparse flag only. *)
Lemma getIndexKey_with_indexData (i : Index.t) (d : list (string * list value)) (o : obj) :
  Index.getIndexKey host (Index.with_indexData d i) o = Index.getIndexKey host i o.
Proof. reflexivity. Qed.

(** On a key that has no entry, [add_id] creates the entry with the id
    alone. *)
Lemma add_id_fresh (k : string) (id : value) (d : list (string * list value)) :
  Map_has String.eqb k d = false ->
  Index.add_id k id d = Map_set String.eqb k [id] d.
Proof.
  intros H. unfold Index.add_id. rewrite H.
  rewrite Map_get_set_same. simpl. apply Map_set_set.
Qed.

(** An insert into a unique index either throws and leaves the index as
    it was, or returns. *)
Lemma insert_throw_unchanged (i i' : Index.t) (o : obj) (e : error) :
  Index.update host i o OpInsert None = (Throw e, i') ->
  i' = i /\ e = DuplicateKey (Index.name i) /\ Index.unique i = true.
Proof.
  unfold Index.update.
  destruct (Index.getIndexKey host i o) as [k|]; [|discriminate].
  destruct (Index.unique i); simpl; [|discriminate].
  destruct (Map_has String.eqb k (Index.indexData i)); [|discriminate].
  intros H. injection H as <- <-. auto.
Qed.

(** C5: in a unique index, once a document is indexed a second document
    with the same composite key is rejected with DuplicateKey and the
    index stays as it was; deleting the first document removes the entry
    of the key, and the second document can then be inserted. *)
Theorem unique_index_key_reusable_after_delete
        (i i1 : Index.t) (first second : obj) (k : string) :
  Index.unique i = true ->
  Index.getIndexKey host i first = Some k ->
  Index.getIndexKey host i second = Some k ->
  Index.update host i first OpInsert None = (Return tt, i1) ->
  Index.update host i1 second OpInsert None = (Throw (DuplicateKey (Index.name i)), i1)
  /\ exists i2 i3,
      Index.update host i1 first OpDelete None = (Return tt, i2)
      /\ Map_has String.eqb k (Index.indexData i2) = false
      /\ Index.update host i2 second OpInsert None = (Return tt, i3)
      /\ Map_get String.eqb k (Index.indexData i3) = Some [obj_get "_id" second].
Proof.
  intros Hu H1 H2 Hins.
  unfold Index.update in Hins. rewrite H1, Hu in Hins. simpl in Hins.
  destruct (Map_has String.eqb k (Index.indexData i)) eqn:Hk; [discriminate|].
  injection Hins as <-.
  rewrite add_id_fresh by exact Hk.
  split.
  - unfold Index.update. rewrite getIndexKey_with_indexData, H2. simpl.
    rewrite Hu, Map_has_set_same. reflexivity.
  - eexists _, _. split; [|split; [|split]].
    + unfold Index.update. rewrite getIndexKey_with_indexData, H1. simpl.
      rewrite Map_has_set_same. unfold Index.remove_id.
      rewrite Map_get_set_same, Set_delete_singleton. simpl.
      rewrite Map_has_delete_set by exact Hk. reflexivity.
    + exact Hk.
    + unfold Index.update. simpl. rewrite !getIndexKey_with_indexData, H2.
      simpl. rewrite Hu, Hk. simpl. rewrite add_id_fresh by exact Hk. reflexivity.
    + simpl. apply Map_get_set_same.
Qed.

(** A field that resolves to undefined contributes a null key part. *)
Lemma keyParts_missing (i : Index.t) (document : obj) (f : string) :
  In f (Index.fields i) ->
  Index.getNestedValue document f = VUndef ->
  existsb (fun part => match part with None => true | Some _ => false end)
          (Index.keyParts host i document) = true.
Proof.
  unfold Index.keyParts. induction (Index.fields i) as [|g fs IH]; simpl.
  - intros [].
  - intros [-> | Hin] Hf.
    + rewrite Hf. reflexivity.
    + rewrite IH by assumption. apply orb_true_r.
Qed.

(** C6: a sparse index computes no key for a document that misses an
    indexed field; inserting such a document returns and leaves the index
    as it was, so two such documents never conflict, whatever the unique
    flag; the document is not found through the index and an update to
    such a document never raises. *)
Theorem sparse_index_excludes_missing_field
        (i : Index.t) (document other : obj) (f g : string) :
  Index.sparse i = true ->
  In f (Index.fields i) -> Index.getNestedValue document f = VUndef ->
  In g (Index.fields i) -> Index.getNestedValue other g = VUndef ->
  Index.getIndexKey host i document = None
  /\ Index.update host i document OpInsert None = (Return tt, i)
  /\ Index.update host i other OpInsert None = (Return tt, i)
  /\ Index.find host i document = []
  /\ forall original, fst (Index.update host i document OpUpdate original) = Return tt.
Proof.
  intros Hs Hf Hfu Hg Hgu.
  assert (Hd : Index.getIndexKey host i document = None).
  { unfold Index.getIndexKey. rewrite Hs, (keyParts_missing i document f Hf Hfu). reflexivity. }
  assert (Ho : Index.getIndexKey host i other = None).
  { unfold Index.getIndexKey. rewrite Hs, (keyParts_missing i other g Hg Hgu). reflexivity. }
  repeat split.
  - exact Hd.
  - unfold Index.update. rewrite Hd. reflexivity.
  - unfold Index.update. rewrite Ho. reflexivity.
  - unfold Index.find. rewrite Hd. reflexivity.
  - intros original. unfold Index.update. rewrite Hd.
    destruct (negb _); reflexivity.
Qed.

End IndexFacts.

(** The unique index on the email address: John is indexed, the document
    with the same address is rejected until John is deleted. *)
Lemma unique_index_key_reusable_after_delete_example :
  Index.update node (snd (Index.update node Sample.by_email Sample.john OpInsert None))
               Sample.duplicate OpInsert None
  = (Throw (DuplicateKey "users_email"),
     snd (Index.update node Sample.by_email Sample.john OpInsert None))
  /\ exists i2 i3,
      Index.update node (snd (Index.update node Sample.by_email Sample.john OpInsert None))
                   Sample.john OpDelete None = (Return tt, i2)
      /\ Map_has String.eqb (Node.quote "john@example.com") (Index.indexData i2) = false
      /\ Index.update node i2 Sample.duplicate OpInsert None = (Return tt, i3)
      /\ Map_get String.eqb (Node.quote "john@example.com") (Index.indexData i3) = Some [VStr "b"].
Proof.
  apply (unique_index_key_reusable_after_delete node Sample.by_email _
           Sample.john Sample.duplicate (Node.quote "john@example.com"));
    reflexivity.
Defined.

(** Two documents without an email address in a sparse unique index. *)
Lemma sparse_index_excludes_missing_field_example :
  Index.getIndexKey node Sample.by_email_sparse [("_id", VStr "a")] = None
  /\ Index.update node Sample.by_email_sparse [("_id", VStr "a")] OpInsert None
     = (Return tt, Sample.by_email_sparse)
  /\ Index.update node Sample.by_email_sparse [("_id", VStr "b")] OpInsert None
     = (Return tt, Sample.by_email_sparse)
  /\ Index.find node Sample.by_email_sparse [("_id", VStr "a")] = []
  /\ forall original,
      fst (Index.update node Sample.by_email_sparse [("_id", VStr "a")] OpUpdate original)
      = Return tt.
Proof.
  apply (sparse_index_excludes_missing_field node Sample.by_email_sparse
           [("_id", VStr "a")] [("_id", VStr "b")] "email" "email");
    first [reflexivity | left; reflexivity].
Defined.

(** ** Collection *)

Lemma obj_get_set_other (k k' : string) (v : value) (o : obj) :
  String.eqb k k' = false -> obj_get k (obj_set k' v o) = obj_get k o.
Proof.
  intros H. induction o as [|[j w] o IH]; simpl.
  - rewrite H. reflexivity.
  - destruct (String.eqb k' j) eqn:E; simpl.
    + apply String.eqb_eq in E. subst j. rewrite H. reflexivity.
    + destruct (String.eqb k j); [reflexivity | exact IH].
Qed.

Lemma obj_get_set_same (k : string) (v : value) (o : obj) :
  obj_get k (obj_set k v o) = v.
Proof.
  induction o as [|[j w] o IH]; simpl.
  - rewrite String.eqb_refl. reflexivity.
  - destruct (String.eqb k j) eqn:E; simpl; rewrite E; [reflexivity | exact IH].
Qed.

(** The identifier of the document [insert] stores: the one given when it
    is truthy. *)
Lemma stamp_id (document : obj) (env : Env) :
  truthy (obj_get "_id" document) = true ->
  obj_get "_id" (Collection.stamp document env) = obj_get "_id" document.
Proof.
  intros H. unfold Collection.stamp. rewrite H. simpl.
  rewrite !obj_get_set_other by reflexivity. reflexivity.
Qed.

Section KeyedMapFacts.
Context {K V : Type} (eqb : K -> K -> bool).

Lemma Map_set_keys (k : K) (v : V) (m : list (K * V)) :
  Map_has eqb k m = true -> Map_keys (Map_set eqb k v m) = Map_keys m.
Proof.
  unfold Map_keys. induction m as [|[k' v'] m IH]; simpl; [discriminate|].
  destruct (eqb k' k); simpl; [reflexivity|].
  intros H. rewrite IH by exact H. reflexivity.
Qed.

Lemma Map_get_set_present (k : K) (v : V) (m : list (K * V)) :
  Map_has eqb k m = true -> Map_get eqb k (Map_set eqb k v m) = Some v.
Proof.
  induction m as [|[k' v'] m IH]; simpl; [discriminate|].
  destruct (eqb k' k) eqn:E; simpl; rewrite E; [reflexivity | exact IH].
Qed.

Lemma Map_has_set_present (k : K) (v : V) (m : list (K * V)) :
  Map_has eqb k m = true -> Map_has eqb k (Map_set eqb k v m) = true.
Proof.
  induction m as [|[k' v'] m IH]; simpl; [discriminate|].
  destruct (eqb k' k) eqn:E; simpl; rewrite E; [reflexivity | exact IH].
Qed.
End KeyedMapFacts.

Lemma Map_get_key_set (k : value) (r : ref) (m : list (value * ref)) :
  Map_get key_eq k (Map_set key_eq k r m) = Some r.
Proof.
  induction m as [|[k' v'] m IH]; simpl.
  - rewrite key_eq_refl. reflexivity.
  - destruct (key_eq k' k) eqn:E; simpl; rewrite E; [reflexivity | exact IH].
Qed.

Lemma documents_set_documents (this : string) (d : list (value * ref)) (db : CoreDB.t) :
  Collection.documents this (Collection.set_documents this d db) = d.
Proof.
  unfold Collection.documents, Collection.set_documents. simpl.
  rewrite Map_get_set_same. reflexivity.
Qed.

Section CollectionFacts.
Context (host : Host).

(** An index that is not unique accepts every operation. *)
Lemma Index_update_not_unique (i : Index.t) (o : obj) (op : operation) (original : option obj) :
  Index.unique i = false ->
  exists i', Index.update host i o op original = (Return tt, i')
             /\ Index.unique i' = false /\ Index.collection i' = Index.collection i.
Proof.
  intros Hu. unfold Index.update. rewrite Hu. simpl.
  destruct op.
  - destruct (Index.getIndexKey host i o); eexists; split; try reflexivity; auto.
  - destruct (negb _).
    + destruct (Index.getIndexKey host i o); eexists; split; try reflexivity; auto.
    + eexists; split; try reflexivity; auto.
  - destruct (Index.getIndexKey host i o) as [k|].
    + destruct (Map_has String.eqb k (Index.indexData i));
        eexists; split; try reflexivity; auto.
    + eexists; split; try reflexivity; auto.
Qed.

Lemma updateIndexes_loop_returns (this : string) (o : obj) (op : operation)
      (original : option obj) (ixs : list (string * Index.t)) :
  no_unique_index this ixs ->
  exists ixs', Collection.updateIndexes_loop host this o op original ixs = (Return tt, ixs')
               /\ no_unique_index this ixs'.
Proof.
  induction ixs as [|[n i] ixs IH]; intros Hno; cbn [Collection.updateIndexes_loop].
  - eexists; split; [reflexivity | exact Hno].
  - destruct IH as (ixs' & E & Hno').
    { intros m j Hin. apply (Hno m j). right. exact Hin. }
    destruct (String.eqb (Index.collection i) this) eqn:Ec.
    + apply String.eqb_eq in Ec.
      destruct (Index_update_not_unique i o op original) as (i' & Ei & Hu & Hc).
      { apply (Hno n i); [left; reflexivity | exact Ec]. }
      rewrite Ei, E. eexists; split; [reflexivity|].
      intros m j [Heq | Hin] Hcj; [|exact (Hno' m j Hin Hcj)].
      injection Heq as <- <-. exact Hu.
    + rewrite E. eexists; split; [reflexivity|].
      intros m j [Heq | Hin] Hcj; [|exact (Hno' m j Hin Hcj)].
      injection Heq as <- <-. rewrite Hcj, String.eqb_refl in Ec. discriminate.
Qed.

(** What a throw of the loop of [updateIndexes] leaves behind during an
    insert: the indexes before the one that rejects have taken the
    document, the rejecting index and those after it are as they were. *)
Lemma updateIndexes_loop_throws (this : string) (o : obj)
      (ixs ixs' : list (string * Index.t)) (e : error) :
  Collection.updateIndexes_loop host this o OpInsert None ixs = (Throw e, ixs') ->
  exists pre pre' n i post,
    ixs = pre ++ (n, i) :: post
    /\ ixs' = pre' ++ (n, i) :: post
    /\ Collection.updateIndexes_loop host this o OpInsert None pre = (Return tt, pre')
    /\ Index.collection i = this
    /\ Index.unique i = true
    /\ e = DuplicateKey (Index.name i)
    /\ Index.update host i o OpInsert None = (Throw e, i).
Proof.
  revert ixs'.
  induction ixs as [|[n i] ixs IH]; intros ixs';
    cbn [Collection.updateIndexes_loop]; [discriminate|].
  destruct (String.eqb (Index.collection i) this) eqn:Ec.
  - destruct (Index.update host i o OpInsert None) as [[[]|e'] i'] eqn:Ei.
    + destruct (Collection.updateIndexes_loop host this o OpInsert None ixs)
        as [r rest'] eqn:El.
      intros H. simpl in H. injection H as -> <-.
      destruct (IH rest' eq_refl) as (pre & pre' & m & j & post & -> & -> & Hp & Hc & Hu & He & Hj).
      exists ((n, i) :: pre), ((n, i') :: pre'), m, j, post.
      repeat split; try assumption.
      cbn [Collection.updateIndexes_loop]. rewrite Ec, Ei, Hp. reflexivity.
    + intros H. injection H as <- <-.
      destruct (insert_throw_unchanged host i i' o e' Ei) as (-> & -> & Hu).
      exists [], [], n, i, ixs. apply String.eqb_eq in Ec.
      repeat split; try assumption.
  - destruct (Collection.updateIndexes_loop host this o OpInsert None ixs)
      as [r rest'] eqn:El.
    intros H. simpl in H. injection H as -> <-.
    destruct (IH rest' eq_refl) as (pre & pre' & m & j & post & -> & -> & Hp & Hc & Hu & He & Hj).
    exists ((n, i) :: pre), ((n, i) :: pre'), m, j, post.
    repeat split; try assumption.
    cbn [Collection.updateIndexes_loop]. rewrite Ec, Hp. reflexivity.
Qed.

(** [insert] in terms of the loop over the indexes. *)
Lemma insert_unfold (this : string) (document : obj) (env : Env) (db : CoreDB.t) :
  Collection.insert host this document env db =
  let stored := Collection.stamp document env in
  let r := length (CoreDB.heap db) in
  let db1 :=
    Collection.set_documents this
      (Map_set key_eq (obj_get "_id" stored) r (Collection.documents this db))
      (CoreDB.with_heap (CoreDB.heap db ++ [stored]) db) in
  match Collection.updateIndexes_loop host this stored OpInsert None (CoreDB.indexes db) with
  | (Throw e, ixs) => (Throw e, CoreDB.with_indexes ixs db1)
  | (Return _, ixs) =>
      (Return r,
       CoreDB.emit (CoreDB.documentInserted this r)
                   (CoreDB.saveCollection this (CoreDB.with_indexes ixs db1)))
  end.
Proof.
  unfold Collection.insert, CoreDB.alloc, Collection.updateIndexes, CoreDB.queueWrite.
  cbn [CoreDB.indexes Collection.set_documents CoreDB.with_collections CoreDB.with_heap].
  destruct (Collection.updateIndexes_loop host this (Collection.stamp document env)
              OpInsert None (CoreDB.indexes db)) as [[[]|e] ixs]; reflexivity.
Qed.

Lemma deref_new (db db' : CoreDB.t) (o : obj) :
  CoreDB.heap db' = CoreDB.heap db ++ [o] ->
  CoreDB.deref db' (length (CoreDB.heap db)) = o.
Proof.
  intros H. unfold CoreDB.deref. rewrite H.
  rewrite (list_lookup_middle (CoreDB.heap db) [] o) by reflexivity. reflexivity.
Qed.

Lemma documents_saveCollection (this name : string) (db : CoreDB.t) :
  Collection.documents this (CoreDB.saveCollection name db) = Collection.documents this db.
Proof.
  unfold CoreDB.saveCollection.
  destruct (Map_get String.eqb name (CoreDB.collections db)) as [[d|d]|]; reflexivity.
Qed.

Lemma heap_saveCollection (name : string) (db : CoreDB.t) :
  CoreDB.heap (CoreDB.saveCollection name db) = CoreDB.heap db.
Proof.
  unfold CoreDB.saveCollection.
  destruct (Map_get String.eqb name (CoreDB.collections db)) as [[d|d]|]; reflexivity.
Qed.

(** C2, as the code has it: when [insert] fails with DuplicateKey, the
    index that rejects the document and the indexes after it are as they
    were, nothing is written and no event is emitted; the document has
    been stored under its identifier and stays in the document set, and
    the indexes visited before the rejecting one keep the entry they
    took. *)
Theorem insert_duplicate_key_is_not_rolled_back
        (this : string) (document : obj) (env : Env) (db db' : CoreDB.t) (e : error) :
  Collection.insert host this document env db = (Throw e, db') ->
  let stored := Collection.stamp document env in
  exists pre pre' n i post,
    e = DuplicateKey (Index.name i)
    /\ Index.collection i = this /\ Index.unique i = true
    /\ CoreDB.indexes db = pre ++ (n, i) :: post
    /\ CoreDB.indexes db' = pre' ++ (n, i) :: post
    /\ Collection.updateIndexes_loop host this stored OpInsert None pre = (Return tt, pre')
    /\ Collection.documents this db'
       = Map_set key_eq (obj_get "_id" stored) (length (CoreDB.heap db))
                 (Collection.documents this db)
    /\ Map_get key_eq (obj_get "_id" stored) (Collection.documents this db')
       = Some (length (CoreDB.heap db))
    /\ CoreDB.deref db' (length (CoreDB.heap db)) = stored
    /\ CoreDB.collectionFiles db' = CoreDB.collectionFiles db
    /\ CoreDB.events db' = CoreDB.events db.
Proof.
  rewrite insert_unfold. cbv zeta.
  destruct (Collection.updateIndexes_loop host this (Collection.stamp document env)
              OpInsert None (CoreDB.indexes db)) as [[[]|e'] ixs] eqn:El; [discriminate|].
  intros H. injection H as -> <-.
  destruct (updateIndexes_loop_throws this _ _ _ _ El)
    as (pre & pre' & n & i & post & Hix & -> & Hp & Hc & Hu & He & _).
  exists pre, pre', n, i, post.
  assert (Hd : Collection.documents this
                 (CoreDB.with_indexes (pre' ++ (n, i) :: post)
                    (Collection.set_documents this
                       (Map_set key_eq (obj_get "_id" (Collection.stamp document env))
                                (length (CoreDB.heap db)) (Collection.documents this db))
                       (CoreDB.with_heap (CoreDB.heap db ++ [Collection.stamp document env]) db)))
               = Map_set key_eq (obj_get "_id" (Collection.stamp document env))
                         (length (CoreDB.heap db)) (Collection.documents this db)).
  { apply (documents_set_documents this _
             (CoreDB.with_heap (CoreDB.heap db ++ [Collection.stamp document env]) db)). }
  repeat split; try assumption; try reflexivity.
  - rewrite Hd. apply Map_get_key_set.
  - apply deref_new. reflexivity.
Qed.

(** C10, as the code has it: an insert whose explicit identifier is
    already a key of the document set raises no error on that account.
    The stored document is replaced under the same key, the keys of the
    document set and hence its size are unchanged; the call returns the
    new document unless a unique index bound to the collection rejects
    it with DuplicateKey, which is the only error it can raise, and no
    index can reject it when none is unique. *)
Theorem insert_existing_id_replaces
        (this : string) (document : obj) (env : Env) (db : CoreDB.t) :
  truthy (obj_get "_id" document) = true ->
  Map_has key_eq (obj_get "_id" document) (Collection.documents this db) = true ->
  let r := length (CoreDB.heap db) in
  let result := Collection.insert host this document env db in
  Map_keys (Collection.documents this (snd result)) = Map_keys (Collection.documents this db)
  /\ length (Collection.documents this (snd result)) = length (Collection.documents this db)
  /\ Map_get key_eq (obj_get "_id" document) (Collection.documents this (snd result)) = Some r
  /\ CoreDB.deref (snd result) r = Collection.stamp document env
  /\ (fst result = Return r \/ exists n, fst result = Throw (DuplicateKey n))
  /\ (no_unique_index this (CoreDB.indexes db) -> fst result = Return r).
Proof.
  intros Hid Hhas r result. subst r result.
  rewrite insert_unfold. cbv zeta.
  rewrite (stamp_id document env Hid).
  set (stored := Collection.stamp document env).
  set (docs := Map_set key_eq (obj_get "_id" document) (length (CoreDB.heap db))
                       (Collection.documents this db)).
  set (db1 := Collection.set_documents this docs
                (CoreDB.with_heap (CoreDB.heap db ++ [stored]) db)).
  assert (Hdocs : forall ixs, Collection.documents this (CoreDB.with_indexes ixs db1) = docs).
  { intros ixs. apply (documents_set_documents this docs
                         (CoreDB.with_heap (CoreDB.heap db ++ [stored]) db)). }
  assert (Hkeys : Map_keys docs = Map_keys (Collection.documents this db)).
  { apply Map_set_keys. exact Hhas. }
  assert (Hlen : length docs = length (Collection.documents this db)).
  { unfold Map_keys in Hkeys. rewrite <- (length_map fst docs), Hkeys. apply length_map. }
  assert (Hget : Map_get key_eq (obj_get "_id" document) docs = Some (length (CoreDB.heap db))).
  { apply Map_get_set_present. exact Hhas. }
  destruct (Collection.updateIndexes_loop host this stored OpInsert None (CoreDB.indexes db))
    as [[[]|e] ixs] eqn:El; cbn [fst snd].
  - assert (Hemit : forall ev d, Collection.documents this (CoreDB.emit ev d)
                                = Collection.documents this d) by reflexivity.
    rewrite Hemit, documents_saveCollection, Hdocs.
    repeat split; try assumption.
    + apply deref_new. cbn [CoreDB.heap CoreDB.emit]. rewrite heap_saveCollection. reflexivity.
    + left. reflexivity.
  - rewrite Hdocs. repeat split; try assumption.
    + apply deref_new. reflexivity.
    + right. destruct (updateIndexes_loop_throws this _ _ _ _ El)
        as (_ & _ & _ & i & _ & _ & _ & _ & _ & _ & -> & _).
      eexists. reflexivity.
    + intros Hno. destruct (updateIndexes_loop_returns this stored OpInsert None _ Hno)
        as (ixs' & E & _).
      rewrite E in El. discriminate.
Qed.

(** Without a matching document the loop of [update] has no iteration:
    nothing is changed, whatever the options. *)
Lemma update_without_match (this : string) (query update options : value)
      (env : Env) (db : CoreDB.t) :
  Collection.find host this query VUndef db = Return [] ->
  Collection.update host this query update options env db
  = (Return {| matchedCount := 0; modifiedCount := 0; upsertedCount := None |}, db).
Proof. intros H. unfold Collection.update. rewrite H. reflexivity. Qed.

(** When documents were found, the branch that would insert is never
    taken and the loop counts every document it visits. *)
Lemma update_loop_counts (this : string) (query update options : value) (env : Env)
      (found : nat) (docs : list ref) :
  found <> 0 ->
  forall (i n : nat) (db db' : CoreDB.t) (x : nat + UpdateResult),
    Collection.update_loop host this query update options env found docs i n db
    = (Return x, db') ->
    x = inl (n + length docs).
Proof.
  intros Hf. apply Nat.eqb_neq in Hf.
  induction docs as [|doc rest IH]; intros i n db db' x; cbn [Collection.update_loop].
  - intros H. injection H as <- _. f_equal. simpl. lia.
  - destruct (get_property options "upsert") as [u|]; [|discriminate].
    rewrite Hf, andb_false_r.
    destruct (Collection.applyUpdateOperations host (CoreDB.deref db doc) update options)
      as [[[]|e] d]; [|discriminate].
    destruct (Collection.updateIndexes host this _ OpUpdate _ _) as [[[]|e] db1];
      [|discriminate].
    intros H. apply IH in H. rewrite H. f_equal. simpl. lia.
Qed.

(** C9: a result returned by [update] has [modifiedCount] equal to
    [matchedCount], the number of documents the query matches, and
    carries no upsert count; a matched document counts as modified
    whether or not its fields changed. *)
Theorem update_modified_equals_matched
        (this : string) (query update options : value) (env : Env)
        (db db' : CoreDB.t) (r : UpdateResult) :
  Collection.update host this query update options env db = (Return r, db') ->
  modifiedCount r = matchedCount r
  /\ Collection.count host this query db = Return (matchedCount r)
  /\ upsertedCount r = None.
Proof.
  unfold Collection.update, Collection.count.
  destruct (Collection.find host this query VUndef db) as [docs|]; [|discriminate].
  destruct docs as [|doc rest].
  - cbn. intros H. injection H as <- _. auto.
  - destruct (Collection.update_loop host this query update (or_empty options) env
                (length (doc :: rest)) (doc :: rest) 0 0 db) as [[x|e] db1] eqn:E;
      [|discriminate].
    apply update_loop_counts in E; [|discriminate]. subst x.
    intros H. injection H as <- _. auto.
Qed.

Lemma updateIndexes_returns (this : string) (o : obj) (op : operation)
      (original : option obj) (db : CoreDB.t) :
  no_unique_index this (CoreDB.indexes db) ->
  exists db', Collection.updateIndexes host this o op original db = (Return tt, db')
              /\ no_unique_index this (CoreDB.indexes db').
Proof.
  intros Hno. unfold Collection.updateIndexes.
  destruct (updateIndexes_loop_returns this o op original _ Hno) as (ixs' & E & Hno').
  rewrite E. eexists; split; [reflexivity | exact Hno'].
Qed.

(** [update] returns when [find] does, the update specification can be
    applied to every document and no index bound to the collection is
    unique. *)
Lemma update_returns (this : string) (query update options : value) (env : Env)
      (db : CoreDB.t) (docs : list ref) :
  Collection.find host this query VUndef db = Return docs ->
  (forall d, fst (Collection.applyUpdateOperations host d update (or_empty options))
             = Return tt) ->
  (exists u, get_property (or_empty options) "upsert" = Return u) ->
  no_unique_index this (CoreDB.indexes db) ->
  exists r db', Collection.update host this query update options env db = (Return r, db').
Proof.
  intros Hfind Happly [u Hu] Hno. unfold Collection.update. rewrite Hfind.
  assert (Hloop : forall found rest i n d,
             found <> 0 -> no_unique_index this (CoreDB.indexes d) ->
             exists x d', Collection.update_loop host this query update (or_empty options)
                            env found rest i n d = (Return x, d')).
  { intros found rest. induction rest as [|doc rest IH]; intros i n d Hf Hd;
      cbn [Collection.update_loop].
    - eauto.
    - rewrite Hu. apply Nat.eqb_neq in Hf as Hf'. rewrite Hf', andb_false_r.
      specialize (Happly (CoreDB.deref d doc)).
      destruct (Collection.applyUpdateOperations host (CoreDB.deref d doc) update
                  (or_empty options)) as [o d1]. simpl in Happly. subst o.
      match goal with
      | |- context [Collection.updateIndexes host this ?o OpUpdate ?orig ?st] =>
          destruct (updateIndexes_returns this o OpUpdate orig st Hd) as (d2 & E & Hd2)
      end.
      rewrite E. apply IH; assumption. }
  destruct docs as [|doc rest].
  - cbn. eauto.
  - destruct (Hloop (length (doc :: rest)) (doc :: rest) 0 0 db) as (x & d' & E);
      [discriminate | exact Hno |].
    rewrite E. destruct x; eauto.
Qed.

(** A key of the update specification without a [$] never changes the
    identifier: the key [_id] itself is skipped. *)
Lemma plain_keys_keep_id (entries : list (string * value)) (document : obj) :
  Forall (fun kv => starts_with_dollar (fst kv) = false) entries ->
  exists document',
    Collection.applyUpdateOperations_loop host entries document = (Return tt, document')
    /\ obj_get "_id" document' = obj_get "_id" document.
Proof.
  intros H. revert document.
  induction H as [|[k v] entries Hk _ IH]; intros document;
    cbn [Collection.applyUpdateOperations_loop].
  - eauto.
  - unfold Collection.applyUpdateOperation. simpl in Hk. rewrite Hk.
    destruct (String.eqb k "_id") eqn:E.
    + apply IH.
    + destruct (IH (obj_set k v document)) as (d' & E' & Hid).
      exists d'. split; [exact E'|]. rewrite Hid.
      apply obj_get_set_other. rewrite String.eqb_sym. exact E.
Qed.

(** C4, what the code does: unlike the plain key [_id], which is
    skipped, [$set] assigns [_id] like any other field. *)
Theorem set_operator_rewrites_id (document : obj) (v options : value) :
  Collection.applyUpdateOperations host document
    (VObj [("$set", VObj [("_id", v)])]) options
  = (Return tt, obj_set "_id" v document)
  /\ obj_get "_id" (obj_set "_id" v document) = v.
Proof. split; [reflexivity | apply obj_get_set_same]. Qed.

End CollectionFacts.

(** ** Aggregation *)

Section DatabaseFacts.
Context (host : Host).

(** Once the field of [$avg] holds a truthy value that is not an object,
    which is what its first document leaves there, a further document
    does not change the group. *)
Lemma avg_stays_after_first (groupDoc : obj) (field : string) (v : value) :
  truthy (obj_get field groupDoc) = true ->
  typeof_object (obj_get field groupDoc) = false ->
  Database.applyAccumulator host groupDoc field "$avg" v = groupDoc.
Proof.
  intros Ht Ho. unfold Database.applyAccumulator. rewrite Ht. cbn. rewrite Ho. reflexivity.
Qed.

(** The first document of a group leaves its own value divided by one in
    the field of [$avg]. *)
Lemma avg_of_first (field : string) (key v : value) :
  String.eqb field "_id" = false ->
  Database.applyAccumulator host [("_id", key)] field "$avg" v
  = [("_id", key);
     (field, js_div host (js_plus host (VInt 0) (js_or v (VInt 0)))
                    (VNum (num_add (Fin 0) (Fin 1))))].
Proof.
  intros Hf. unfold Database.applyAccumulator. cbn.
  repeat (first [rewrite Hf | rewrite String.eqb_refl]; cbn).
  reflexivity.
Qed.

(** An accumulator whose operand is not a string is passed over. *)
Lemma accumulator_without_path_is_skipped
      (doc : obj) (field operator : string) (operand : value)
      (rest : list (string * value)) (groupDoc : obj) :
  match operand with VStr _ => False | _ => True end ->
  Database.accumulate host doc ((field, VObj [(operator, operand)]) :: rest) groupDoc
  = Database.accumulate host doc rest groupDoc.
Proof.
  intros H. cbn [Database.accumulate].
  destruct (negb (String.eqb field "_id")); [|reflexivity].
  cbn. destruct operand; try reflexivity. contradiction.
Qed.

End DatabaseFacts.

(** ** Concrete runs *)

(** The query operators and the pagination on the five products. *)
Example price_greater_than_200 :
  Sample.names Sample.products
    (Collection.find node "products" (VObj [("price", VObj [("$gt", VInt 200)])]) VUndef
                     Sample.products)
  = Return [VStr "Laptop"; VStr "Phone"; VStr "Desk"].
Proof. vm_compute. reflexivity. Qed.

Example skip_two_limit_two :
  Sample.names Sample.products
    (Collection.find node "products" (VObj [])
                     (VObj [("skip", VInt 2); ("limit", VInt 2)]) Sample.products)
  = Return [VStr "Book"; VStr "Desk"].
Proof. vm_compute. reflexivity. Qed.

Example sorted_by_price :
  Sample.names Sample.products
    (Collection.find node "products" (VObj [])
                     (VObj [("sort", VObj [("price", VInt 1)])]) Sample.products)
  = Return [VStr "Book"; VStr "Lamp"; VStr "Desk"; VStr "Phone"; VStr "Laptop"].
Proof. vm_compute. reflexivity. Qed.

Example cheap_or_named_desk :
  Sample.names Sample.products
    (Collection.find node "products"
       (VObj [("$or", VArr [VObj [("price", VObj [("$lt", VInt 50)])];
                            VObj [("name", VStr "Desk")]])])
       VUndef Sample.products)
  = Return [VStr "Book"; VStr "Desk"].
Proof. vm_compute. reflexivity. Qed.

(** The unique index on the email address, through the collection: the
    second document is rejected, and once John is deleted a document with
    his address is accepted. *)
Example unique_email_through_collection :
  fst (Collection.insert node "users" Sample.duplicate (Sample.env "unused") Sample.indexed)
  = Throw (DuplicateKey "users_email")
  /\ fst (Collection.insert node "users"
            [("_id", VStr "c"); ("email", VStr "john@example.com")] (Sample.env "unused")
            (snd (Collection.delete node "users" (VObj [("name", VStr "John")])
                    (snd (Collection.insert node "users" Sample.duplicate
                            (Sample.env "unused") Sample.indexed)))))
     = Return 2.
Proof. split; vm_compute; reflexivity. Qed.

(** C1, what the code does: the upsert branch sits inside the loop over the
    matched documents, so with no match it is never reached.  On the empty
    collection, [update({name: "Jane"}, {$set: {age: 30}}, {upsert: true})]
    returns matchedCount 0 and modifiedCount 0 without an upsert count,
    leaves the store as it was, and a following [find({name: "Jane"})]
    finds nothing. *)
Theorem upsert_without_match_inserts_nothing :
  Collection.update node "users" Sample.jane Sample.set_age_30 Sample.upsert
                    (Sample.env "u1") Sample.users
  = (Return {| matchedCount := 0; modifiedCount := 0; upsertedCount := None |}, Sample.users)
  /\ Collection.find node "users" Sample.jane VUndef
                     (snd (Collection.update node "users" Sample.jane Sample.set_age_30
                             Sample.upsert (Sample.env "u1") Sample.users))
     = Return []
  /\ contents "users"
       (snd (Collection.update node "users" Sample.jane Sample.set_age_30
               Sample.upsert (Sample.env "u1") Sample.users))
     = [].
Proof.
  assert (H : Collection.find node "users" Sample.jane VUndef Sample.users = Return [])
    by reflexivity.
  rewrite (update_without_match node "users" Sample.jane Sample.set_age_30 Sample.upsert
             (Sample.env "u1") Sample.users H).
  split; [reflexivity | split; [exact H | reflexivity]].
Qed.

(** Through [update]: the document inserted as [a] is afterwards stored
    with the identifier [b], under both keys. *)
Example update_rewrites_stored_id :
  Map_keys (Collection.documents "users" Sample.renamed) = [VStr "a"; VStr "b"]
  /\ map (obj_get "_id") (contents "users" Sample.renamed) = [VStr "b"; VStr "b"].
Proof. split; vm_compute; reflexivity. Qed.

(** C2 fails as stated: the insert of a document with John's email address
    is rejected by the unique index, yet the rejected document is in the
    document set and the index on the name, visited first, has changed. *)
Lemma insert_duplicate_key_counterexample :
  fst (Collection.insert node "users" Sample.duplicate (Sample.env "unused") Sample.indexed)
  = Throw (DuplicateKey "users_email")
  /\ Map_has key_eq (VStr "b")
       (Collection.documents "users"
          (snd (Collection.insert node "users" Sample.duplicate (Sample.env "unused")
                  Sample.indexed)))
     = true
  /\ CoreDB.indexes
       (snd (Collection.insert node "users" Sample.duplicate (Sample.env "unused")
               Sample.indexed))
     <> CoreDB.indexes Sample.indexed.
Proof.
  split; [reflexivity | split; [reflexivity|]].
  intros H. vm_compute in H. discriminate H.
Qed.

(** The rejected insert of the document with John's email address. *)
Lemma insert_duplicate_key_is_not_rolled_back_example :
  exists pre pre' n i post,
    DuplicateKey "users_email" = DuplicateKey (Index.name i)
    /\ Index.collection i = "users" /\ Index.unique i = true
    /\ CoreDB.indexes Sample.indexed = pre ++ (n, i) :: post
    /\ CoreDB.indexes
         (snd (Collection.insert node "users" Sample.duplicate (Sample.env "unused")
                 Sample.indexed))
       = pre' ++ (n, i) :: post
    /\ Collection.updateIndexes_loop node "users"
         (Collection.stamp Sample.duplicate (Sample.env "unused")) OpInsert None pre
       = (Return tt, pre')
    /\ Collection.documents "users"
         (snd (Collection.insert node "users" Sample.duplicate (Sample.env "unused")
                 Sample.indexed))
       = Map_set key_eq
           (obj_get "_id" (Collection.stamp Sample.duplicate (Sample.env "unused")))
           (length (CoreDB.heap Sample.indexed))
           (Collection.documents "users" Sample.indexed)
    /\ Map_get key_eq
         (obj_get "_id" (Collection.stamp Sample.duplicate (Sample.env "unused")))
         (Collection.documents "users"
            (snd (Collection.insert node "users" Sample.duplicate (Sample.env "unused")
                    Sample.indexed)))
       = Some (length (CoreDB.heap Sample.indexed))
    /\ CoreDB.deref
         (snd (Collection.insert node "users" Sample.duplicate (Sample.env "unused")
                 Sample.indexed))
         (length (CoreDB.heap Sample.indexed))
       = Collection.stamp Sample.duplicate (Sample.env "unused")
    /\ CoreDB.collectionFiles
         (snd (Collection.insert node "users" Sample.duplicate (Sample.env "unused")
                 Sample.indexed))
       = CoreDB.collectionFiles Sample.indexed
    /\ CoreDB.events
         (snd (Collection.insert node "users" Sample.duplicate (Sample.env "unused")
                 Sample.indexed))
       = CoreDB.events Sample.indexed.
Proof.
  apply (insert_duplicate_key_is_not_rolled_back node "users" Sample.duplicate
           (Sample.env "unused") Sample.indexed).
  vm_compute. reflexivity.
Defined.

(** C10 fails as stated: John is stored and indexed by his email address;
    inserting a document with his identifier again raises DuplicateKey. *)
Lemma insert_existing_id_counterexample :
  truthy (obj_get "_id" Sample.john) = true
  /\ Map_has key_eq (obj_get "_id" Sample.john) (Collection.documents "users" Sample.indexed)
     = true
  /\ fst (Collection.insert node "users" Sample.john (Sample.env "unused") Sample.indexed)
     = Throw (DuplicateKey "users_email").
Proof. repeat split; reflexivity. Qed.

(** John inserted twice into a collection without indexes. *)
Lemma insert_existing_id_replaces_example :
  Map_keys (Collection.documents "users"
              (snd (Collection.insert node "users" Sample.john (Sample.env "unused")
                      (Sample.insert Sample.john "unused" Sample.empty))))
  = [VStr "a"]
  /\ fst (Collection.insert node "users" Sample.john (Sample.env "unused")
            (Sample.insert Sample.john "unused" Sample.empty))
     = Return 1.
Proof.
  destruct (insert_existing_id_replaces node "users" Sample.john (Sample.env "unused")
              (Sample.insert Sample.john "unused" Sample.empty) eq_refl eq_refl)
    as (Hkeys & _ & _ & _ & _ & Hret).
  split; [exact Hkeys|].
  apply Hret. intros n i [].
Defined.

(** The same [$set] applied a second time: the document is matched and
    counted as modified although its fields, the time of the update apart,
    are those it had. *)
Lemma update_modified_equals_matched_example :
  modifiedCount {| matchedCount := 1; modifiedCount := 1; upsertedCount := None |}
  = matchedCount {| matchedCount := 1; modifiedCount := 1; upsertedCount := None |}
  /\ Collection.count node "users" (VObj [("name", VStr "John")]) Sample.aged = Return 1
  /\ upsertedCount {| matchedCount := 1; modifiedCount := 1; upsertedCount := None |} = None.
Proof.
  apply (update_modified_equals_matched node "users" (VObj [("name", VStr "John")])
           Sample.set_age_30 VUndef (Sample.env "unused") Sample.aged
           (snd (Collection.update node "users" (VObj [("name", VStr "John")])
                   Sample.set_age_30 VUndef (Sample.env "unused") Sample.aged))).
  vm_compute. reflexivity.
Defined.

(** C3, what the code does: after its first document [$avg] has replaced
    its running sum and count by a number and no longer accumulates, and
    the accumulator [{$sum: 1}] is skipped because its operand is not a
    field path.  Over the ages 25, 30 and 18 the pipeline returns one group
    whose [avg] is 25 and which has no [count]. *)
Theorem aggregate_average_and_count :
  fst (Database.aggregate node "users" Sample.pipeline Sample.ages)
  = Return [[("_id", VNull); ("avg", VInt 25)]].
Proof. vm_compute. reflexivity. Qed.

(** A collection that is not keyed by identifier: after the update that
    rewrote the identifier of its document (C4) the document set has two
    entries, and the store reopened over the saved snapshot holds one
    document. *)
Lemma reload_counterexample :
  Collection.count node "users" (VObj []) (CoreDB.saveCollection "users" Sample.renamed)
  = Return 2
  /\ Collection.count node "users" (VObj [])
       (CoreDB.reopen (CoreDB.saveCollection "users" Sample.renamed))
     = Return 1.
Proof. split; reflexivity. Qed.

(** ** The write queue *)

Section WriteQueueFacts.
Context {Op : Type}.
Import WriteQueue.

Lemma length_remove_nth (l : list Op) (i : nat) (x : Op) :
  l !! i = Some x -> S (length (take i l ++ drop (S i) l)) = length l.
Proof.
  revert i. induction l as [|y l IH]; intros [|i]; simpl; try discriminate.
  - intros _. rewrite drop_0. reflexivity.
  - intros H. rewrite (IH i H). reflexivity.
Qed.

Lemma invariant_init : invariant (@init Op).
Proof. unfold invariant. cbn. repeat split; auto; discriminate. Qed.

Lemma invariant_step (s s' : state Op) : invariant s -> step s s' -> invariant s'.
Proof.
  intros (Hle & Hfifo & Hbusy & Hidle) Hstep.
  destruct Hstep as [operation s | s | i s s' Hs | s s' Hs].
  - unfold queueWrite. cbn [isWriting].
    destruct (isWriting s) eqn:Hw; cbn [negb].
    + specialize (Hbusy eq_refl).
      close_invariant; rewrite Hfifo, app_assoc; reflexivity.
    + destruct (Hidle eq_refl) as (Hzero & Hq).
      unfold processWriteQueue. cbn [isWriting writeQueue]. rewrite ?Hw, Hq. cbn.
      destruct (awaiting s) as [|o l]; [|simpl in Hzero; lia].
      simpl in Hzero. rewrite Hzero.
      close_invariant; rewrite Hfifo, Hq, !app_nil_r; reflexivity.
  - unfold processWriteQueue.
    destruct (isWriting s) eqn:Hw; cbn [orb].
    + specialize (Hbusy eq_refl). unfold invariant. rewrite Hw.
      repeat split; intros; first [assumption | discriminate].
    + destruct (Hidle eq_refl) as (Hzero & Hq). rewrite Hq. cbn.
      unfold invariant. rewrite Hw, Hq.
      repeat split; intros;
        first [assumption | discriminate | reflexivity | rewrite Hfifo, Hq; reflexivity].
  - unfold settle in Hs.
    destruct (awaiting s !! i) as [x|] eqn:Hi; [|discriminate].
    injection Hs as <-. pose proof (length_remove_nth _ _ _ Hi) as Hlen.
    unfold invariant. cbn.
    repeat split.
    + lia.
    + exact Hfifo.
    + intros Hw. specialize (Hbusy Hw). lia.
    + destruct (Hidle H) as (Hzero & _). lia.
    + destruct (Hidle H) as (_ & Hq). exact Hq.
  - unfold resume in Hs.
    destruct (ready s) as [|n] eqn:Hr; [discriminate|].
    injection Hs as <-.
    assert (Hlen : length (awaiting s) = 0 /\ n = 0) by lia.
    destruct Hlen as (Hlen & ->).
    destruct (awaiting s) as [|o l] eqn:Ha; [|discriminate].
    destruct (isWriting s) eqn:Hw; [|destruct (Hidle eq_refl); lia].
    unfold loop_head. cbn [writeQueue].
    destruct (writeQueue s) as [|operation rest] eqn:Hq.
    + close_invariant.
    + close_invariant; rewrite Hfifo, <- app_assoc; reflexivity.
Qed.

Lemma invariant_reachable (s : state Op) : reachable s -> invariant s.
Proof.
  induction 1 as [|s s' _ IH Hstep]; [apply invariant_init|].
  exact (invariant_step s s' IH Hstep).
Qed.

(** In every reachable state of the write queue at most one queued
    operation is in execution, none is while the loop is between two
    operations, and the operations started so far followed by those
    still queued are the operations in the order they were enqueued. *)
Lemma queue_is_serialized (s : state Op) :
  reachable s ->
  length (awaiting s) + ready s <= 1
  /\ enqueued s = started s ++ writeQueue s.
Proof.
  intros H. destruct (invariant_reachable s H) as (Hle & Hfifo & _). auto.
Qed.

End WriteQueueFacts.

(** ** Snapshots *)

(** [find()] without a query returns every document of the collection, in
    the order of the document set. *)
Lemma find_all (host : Host) (this : string) (db : CoreDB.t) :
  Collection.find host this VUndef VUndef db
  = Return (Map_values (Collection.documents this db)).
Proof. reflexivity. Qed.

Lemma num_same_sym (x y : num) : num_same x y = true -> num_same y x = true.
Proof.
  destruct x, y; simpl; try discriminate; try reflexivity. apply Qeq_bool_sym.
Qed.

Lemma num_same_trans (x y z : num) :
  num_same x y = true -> num_same y z = true -> num_same x z = true.
Proof.
  destruct x, y; simpl; try discriminate; destruct z; simpl; try discriminate;
    try reflexivity.
  apply Qeq_bool_trans.
Qed.

Lemma string_eqb_trans (x y z : string) :
  String.eqb x y = true -> String.eqb y z = true -> String.eqb x z = true.
Proof. rewrite !String.eqb_eq. congruence. Qed.

Lemma key_eq_sym : forall a b : value, key_eq a b = true -> key_eq b a = true.
Proof.
  fix IH 1. intros [ | | x | x | x | x | xs | fs] [ | | y | y | y | y | ys | gs];
    simpl; try discriminate; try reflexivity.
  - destruct x, y; simpl; congruence.
  - apply num_same_sym.
  - rewrite String.eqb_sym. auto.
  - rewrite String.eqb_sym. auto.
  - revert ys. induction xs as [|a xs IHxs]; intros [|b ys]; try discriminate; auto.
    intros H. apply andb_true_iff in H as [H1 H2].
    rewrite (IH _ _ H1), (IHxs _ H2). reflexivity.
  - revert gs. induction fs as [|[k a] fs IHfs]; intros [|[k' b] gs]; try discriminate; auto.
    intros H. apply andb_true_iff in H as [H H3]. apply andb_true_iff in H as [H1 H2].
    rewrite String.eqb_sym, H1, (IH _ _ H2), (IHfs _ H3). reflexivity.
Qed.

Lemma key_eq_trans :
  forall a b c : value, key_eq a b = true -> key_eq b c = true -> key_eq a c = true.
Proof.
  fix IH 1. intros [ | | x | x | x | x | xs | fs] [ | | y | y | y | y | ys | gs];
    simpl; try discriminate; intros [ | | z | z | z | z | zs | hs];
    simpl; try discriminate; try reflexivity.
  - destruct x, y, z; simpl; congruence.
  - apply num_same_trans.
  - apply string_eqb_trans.
  - apply string_eqb_trans.
  - revert ys zs. induction xs as [|a xs IHxs]; intros [|b ys] [|c zs];
      try discriminate; auto.
    intros H H'. apply andb_true_iff in H as [H1 H2]. apply andb_true_iff in H' as [H1' H2'].
    rewrite (IH _ _ _ H1 H1'), (IHxs _ _ H2 H2'). reflexivity.
  - revert gs hs. induction fs as [|[k a] fs IHfs]; intros [|[k' b] gs] [|[k'' c] hs];
      try discriminate; auto.
    intros H H'.
    apply andb_true_iff in H as [H H3]. apply andb_true_iff in H as [H1 H2].
    apply andb_true_iff in H' as [H' H3']. apply andb_true_iff in H' as [H1' H2'].
    rewrite (string_eqb_trans _ _ _ H1 H1'), (IH _ _ _ H2 H2'), (IHfs _ _ H3 H3').
    reflexivity.
Qed.

Lemma Map_set_absent {V : Type} (k : value) (v : V) (m : list (value * V)) :
  Forall (fun k' => key_eq k' k = false) (Map_keys m) ->
  Map_set key_eq k v m = m ++ [(k, v)].
Proof.
  unfold Map_keys. induction m as [|[k' v'] m IH]; simpl; [reflexivity|].
  intros H. apply Forall_cons in H as [Hk Hm]. simpl in Hk.
  rewrite Hk, IH by exact Hm. reflexivity.
Qed.

Lemma distinct_before (l r : list value) (k : value) :
  distinct (l ++ k :: r) -> Forall (fun k' => key_eq k' k = false) l.
Proof.
  induction l as [|a l IH]; simpl; [constructor|].
  intros [Ha Hl]. constructor; [|exact (IH Hl)].
  apply Forall_app in Ha as [_ Ha]. apply Forall_cons in Ha as [Ha _]. exact Ha.
Qed.

(** Identifiers that are the same key as distinct keys are distinct. *)
Lemma distinct_transfer (l : list (value * value)) :
  Forall (fun ki => key_eq (fst ki) (snd ki) = true) l ->
  distinct (map fst l) -> distinct (map snd l).
Proof.
  induction l as [|[k i] l IH]; simpl; [auto|].
  intros H [Hk Hd]. apply Forall_cons in H as [Hki Hl]. simpl in Hki.
  split; [|exact (IH Hl Hd)].
  clear IH Hd. induction l as [|[k' i'] l IHl]; simpl; [constructor|].
  apply Forall_cons in Hl as [Hki' Hl]. simpl in Hk, Hki'.
  apply Forall_cons in Hk as [Hkk' Hk].
  constructor; [|exact (IHl Hl Hk)].
  destruct (key_eq i i') eqn:E; [|reflexivity].
  rewrite (key_eq_trans k i k' Hki (key_eq_trans i i' k' E (key_eq_sym k' i' Hki'))) in Hkk'.
  discriminate.
Qed.

Lemma deref_app (db db' : CoreDB.t) (extra : list obj) (r : ref) :
  CoreDB.heap db' = CoreDB.heap db ++ extra ->
  r < length (CoreDB.heap db) ->
  CoreDB.deref db' r = CoreDB.deref db r.
Proof.
  intros H Hr. unfold CoreDB.deref. rewrite H, lookup_app_l by exact Hr. reflexivity.
Qed.

(** Objects appended to the store are read back at the references that
    follow its length. *)
Lemma deref_seq (os : list obj) :
  forall (h : list obj),
    map (fun r => default [] ((h ++ os) !! r)) (seq (length h) (length os)) = os.
Proof.
  induction os as [|o os IH]; intros h; simpl; [reflexivity|].
  rewrite (list_lookup_middle h os o) by reflexivity. simpl. f_equal.
  specialize (IH (h ++ [o])). rewrite length_app in IH. simpl in IH.
  rewrite Nat.add_1_r, <- app_assoc in IH. exact IH.
Qed.

(** [loadDocuments] only adds objects to the store. *)
Lemma loadDocuments_extends (docs : list value) :
  forall (m : list (value * ref)) (db : CoreDB.t),
    exists extra,
      CoreDB.heap (snd (CoreDB.loadDocuments docs m db)) = CoreDB.heap db ++ extra
      /\ CoreDB.collections (snd (CoreDB.loadDocuments docs m db)) = CoreDB.collections db
      /\ CoreDB.collectionFiles (snd (CoreDB.loadDocuments docs m db))
         = CoreDB.collectionFiles db.
Proof.
  induction docs as [|doc docs IH]; intros m db; cbn [CoreDB.loadDocuments].
  - exists []. rewrite app_nil_r. auto.
  - destruct (truthy doc && truthy (prop_get doc "_id")); [|apply IH].
    destruct doc; try apply IH.
    unfold CoreDB.alloc. cbv beta iota.
    match goal with
    | |- context [CoreDB.loadDocuments docs ?m' ?d'] =>
        destruct (IH m' d') as (extra & Hh & Hc & Hf)
    end.
    exists (fields :: extra). rewrite Hh, Hc, Hf. cbn. rewrite <- app_assoc. auto.
Qed.

(** Documents with truthy, distinct identifiers are loaded one entry each,
    in order. *)
Lemma loadDocuments_fresh (os : list obj) :
  forall (m : list (value * ref)) (db : CoreDB.t),
    Forall (fun o => truthy (obj_get "_id" o) = true) os ->
    distinct (Map_keys m ++ map (obj_get "_id") os) ->
    CoreDB.loadDocuments (map VObj os) m db
    = (m ++ combine (map (obj_get "_id") os) (seq (length (CoreDB.heap db)) (length os)),
       CoreDB.with_heap (CoreDB.heap db ++ os) db).
Proof.
  induction os as [|o os IH]; intros m db Ht Hd; cbn [map CoreDB.loadDocuments].
  - cbn. rewrite !app_nil_r. destruct db; reflexivity.
  - apply Forall_cons in Ht as [Ho Ht].
    cbn [truthy prop_get andb]. rewrite Ho. unfold CoreDB.alloc. cbv beta iota.
    rewrite (Map_set_absent _ _ m (distinct_before _ _ _ Hd)).
    rewrite IH.
    + cbn [CoreDB.heap CoreDB.with_heap]. rewrite length_app. cbn [length].
      rewrite Nat.add_1_r, <- !app_assoc. reflexivity.
    + exact Ht.
    + unfold Map_keys in *. rewrite map_app, <- app_assoc. exact Hd.
Qed.

Lemma Map_get_set_other {V : Type} (k k' : string) (v : V) (m : list (string * V)) :
  String.eqb k k' = false ->
  Map_get String.eqb k' (Map_set String.eqb k v m) = Map_get String.eqb k' m.
Proof.
  intros H. induction m as [|[j w] m IH]; simpl.
  - rewrite H. reflexivity.
  - destruct (String.eqb j k) eqn:E; simpl.
    + apply String.eqb_eq in E. subst j. rewrite H. reflexivity.
    + destruct (String.eqb j k'); [reflexivity | exact IH].
Qed.

Lemma Map_has_true_get {V : Type} (k : string) (m : list (string * V)) :
  Map_has String.eqb k m = true -> exists v, Map_get String.eqb k m = Some v.
Proof.
  induction m as [|[j w] m IH]; simpl; [discriminate|].
  destruct (String.eqb j k); simpl; eauto.
Qed.

Lemma Map_keys_set_In {V : Type} (k : string) (v : V) (m : list (string * V)) :
  In k (Map_keys (Map_set String.eqb k v m)).
Proof.
  unfold Map_keys. induction m as [|[j w] m IH]; simpl.
  - left. reflexivity.
  - destruct (String.eqb j k) eqn:E; simpl.
    + left. apply String.eqb_eq. exact E.
    + right. exact IH.
Qed.

Lemma values_combine_seq {A B : Type} (f : A -> B) (xs : list A) :
  forall start : nat,
    Map_values (combine (map f xs) (seq start (length xs))) = seq start (length xs).
Proof.
  unfold Map_values. induction xs as [|x xs IH]; intros start; simpl; [reflexivity|].
  rewrite IH. reflexivity.
Qed.

Lemma loadCollection_files (name : string) (db : CoreDB.t) :
  CoreDB.collectionFiles (CoreDB.loadCollection name db) = CoreDB.collectionFiles db.
Proof.
  unfold CoreDB.loadCollection.
  destruct (Map_get String.eqb name (CoreDB.collectionFiles db)) as [[ | | | | | |docs| ]|];
    try reflexivity.
  destruct (loadDocuments_extends docs [] db) as (extra & _ & _ & Hf).
  destruct (CoreDB.loadDocuments docs [] db) as [m db1]. exact Hf.
Qed.

(** Loading another collection leaves the documents of [this] in place. *)
Lemma loadCollection_other (this name : string) (db : CoreDB.t) :
  String.eqb name this = false ->
  Forall (fun r => r < length (CoreDB.heap db)) (Map_values (Collection.documents this db)) ->
  Forall (fun r => r < length (CoreDB.heap (CoreDB.loadCollection name db)))
         (Map_values (Collection.documents this (CoreDB.loadCollection name db)))
  /\ contents this (CoreDB.loadCollection name db) = contents this db.
Proof.
  intros Hne Hvalid.
  assert (H : exists extra,
             CoreDB.heap (CoreDB.loadCollection name db) = CoreDB.heap db ++ extra
             /\ Collection.documents this (CoreDB.loadCollection name db)
                = Collection.documents this db).
  { unfold CoreDB.loadCollection, Collection.documents.
    destruct (Map_get String.eqb name (CoreDB.collectionFiles db)) as [[ | | | | | |docs| ]|];
      try (exists []; cbn; rewrite app_nil_r, Map_get_set_other by exact Hne; auto).
    destruct (loadDocuments_extends docs [] db) as (extra & Hh & Hc & _).
    destruct (CoreDB.loadDocuments docs [] db) as [m db1]. simpl in Hh, Hc.
    exists extra. cbn. rewrite Map_get_set_other, Hc by exact Hne. auto. }
  destruct H as (extra & Hh & Hd). unfold contents. rewrite Hd. split.
  - eapply Forall_impl; [exact Hvalid|]. intros r Hr. simpl in Hr.
    rewrite Hh, length_app. lia.
  - apply map_ext_Forall. eapply Forall_impl; [exact Hvalid|].
    intros r Hr. exact (deref_app db _ extra r Hh Hr).
Qed.

(** Loading the snapshot of [this] rebuilds the documents it lists. *)
Lemma loadCollection_self (this : string) (os : list obj) (db : CoreDB.t) :
  Map_get String.eqb this (CoreDB.collectionFiles db) = Some (VArr (map VObj os)) ->
  Forall (fun o => truthy (obj_get "_id" o) = true) os ->
  distinct (map (obj_get "_id") os) ->
  Forall (fun r => r < length (CoreDB.heap (CoreDB.loadCollection this db)))
         (Map_values (Collection.documents this (CoreDB.loadCollection this db)))
  /\ contents this (CoreDB.loadCollection this db) = os.
Proof.
  intros Hfile Ht Hd. unfold contents, CoreDB.loadCollection, Collection.documents.
  rewrite Hfile, (loadDocuments_fresh os [] db Ht Hd).
  cbn [CoreDB.collections CoreDB.with_collections CoreDB.with_heap CoreDB.heap app].
  rewrite Map_get_set_same, values_combine_seq. split.
  - apply Forall_forall. intros r Hr. apply elem_of_seq in Hr.
    rewrite length_app. lia.
  - apply (deref_seq os (CoreDB.heap db)).
Qed.

(** After [loadCollections] the collection [this] holds the documents of
    its snapshot. *)
Lemma loadCollections_contents (this : string) (os : list obj)
      (files : list (string * value)) (names : list string) :
  Map_get String.eqb this files = Some (VArr (map VObj os)) ->
  Forall (fun o => truthy (obj_get "_id" o) = true) os ->
  distinct (map (obj_get "_id") os) ->
  forall db : CoreDB.t,
    CoreDB.collectionFiles db = files ->
    In this names
    \/ (Forall (fun r => r < length (CoreDB.heap db))
               (Map_values (Collection.documents this db))
        /\ contents this db = os) ->
    contents this (fold_left (fun d name => CoreDB.loadCollection name d) names db) = os.
Proof.
  intros Hfile Ht Hd. induction names as [|name names IH]; intros db Hf H; simpl.
  - destruct H as [[]|[_ H]]. exact H.
  - apply IH; [rewrite loadCollection_files; exact Hf|].
    destruct (String.eqb name this) eqn:E.
    + apply String.eqb_eq in E. subst name. right.
      apply loadCollection_self; [rewrite Hf; exact Hfile | exact Ht | exact Hd].
    + destruct H as [[Heq|Hin]|[Hv Hc]].
      * subst name. rewrite String.eqb_refl in E. discriminate.
      * left. exact Hin.
      * right. destruct (loadCollection_other this name db E Hv) as [Hv' Hc'].
        split; [exact Hv' | rewrite Hc'; exact Hc].
Qed.

(** Saving the snapshot of a collection keyed by identifier and reopening
    the store over it gives back the same documents in the same order. *)
Lemma saveCollection_then_reopen (this : string) (db : CoreDB.t) :
  Map_has String.eqb this (CoreDB.collections db) = true ->
  keyed_by_id this db ->
  contents this (CoreDB.reopen (CoreDB.saveCollection this db)) = contents this db.
Proof.
  intros Hhas [Hdist Hown].
  set (m := Collection.documents this db) in *.
  assert (Hfile : Map_get String.eqb this
                    (CoreDB.collectionFiles (CoreDB.saveCollection this db))
                  = Some (VArr (map VObj (contents this db)))).
  { destruct (Map_has_true_get this _ Hhas) as [rep Hrep].
    assert (Hsnap : json_norm (VArr (map (fun r => VObj (CoreDB.deref db r)) (Map_values m)))
                    = VArr (map VObj (contents this db))).
    { unfold contents. fold m. cbn [json_norm]. f_equal.
      unfold Map_values. rewrite !map_map. apply map_ext_Forall.
      eapply Forall_impl; [exact Hown|]. intros kr (_ & _ & H). exact H. }
    unfold CoreDB.saveCollection. rewrite Hrep.
    assert (Hm : m = match rep with CoreDB.RawMap d | CoreDB.Instance d => d end).
    { unfold m, Collection.documents. rewrite Hrep. destruct rep; reflexivity. }
    destruct rep as [d|d]; subst d; cbn [CoreDB.collectionFiles CoreDB.with_collectionFiles];
      rewrite Map_get_set_same, Hsnap; reflexivity. }
  unfold CoreDB.reopen, CoreDB.connect, CoreDB.loadCollections.
  change (contents this (CoreDB.emit ?e (CoreDB.with_isConnected ?b ?d))) with (contents this d).
  apply (loadCollections_contents this (contents this db)
           (CoreDB.collectionFiles (CoreDB.saveCollection this db))).
  - exact Hfile.
  - unfold contents. fold m. apply Forall_map, Forall_map.
    eapply Forall_impl; [exact Hown|]. intros kr (_ & H & _). exact H.
  - unfold contents. fold m.
    pose proof (distinct_transfer
                  (map (fun kr => (fst kr, obj_get "_id" (CoreDB.deref db (snd kr)))) m)) as T.
    rewrite !map_map in T. unfold Map_values. rewrite !map_map. apply T.
    + apply Forall_map. eapply Forall_impl; [exact Hown|]. intros kr (H & _). exact H.
    + exact Hdist.
  - reflexivity.
  - left. cbn [CoreDB.collectionFiles CoreDB.new].
    unfold CoreDB.saveCollection.
    destruct (Map_has_true_get this _ Hhas) as [rep Hrep]. rewrite Hrep.
    destruct rep; apply Map_keys_set_In.
Qed.

Lemma Forall_Map_keys_set {V : Type} (P : value -> Prop) (k : value) (v : V)
      (m : list (value * V)) :
  Forall P (Map_keys m) -> P k -> Forall P (Map_keys (Map_set key_eq k v m)).
Proof.
  unfold Map_keys. intros H Hk. induction m as [|[k' v'] m IH]; simpl.
  - constructor; [exact Hk | constructor].
  - apply Forall_cons in H as [Hk' Hm]. destruct (key_eq k' k); simpl.
    + constructor; assumption.
    + constructor; [exact Hk' | exact (IH Hm)].
Qed.

Lemma Map_set_distinct {V : Type} (k : value) (v : V) (m : list (value * V)) :
  distinct (Map_keys m) -> distinct (Map_keys (Map_set key_eq k v m)).
Proof.
  induction m as [|[k' v'] m IH]; simpl.
  - intros _. split; [constructor | exact I].
  - intros [Hk' Hm]. destruct (key_eq k' k) eqn:E; simpl.
    + split; assumption.
    + split; [|exact (IH Hm)].
      apply (Forall_Map_keys_set (fun x => key_eq k' x = false)); assumption.
Qed.

Lemma Forall_Map_set {V : Type} (P : value * V -> Prop) (k : value) (v : V)
      (m : list (value * V)) :
  Forall P m ->
  (forall k', key_eq k' k = true -> P (k', v)) ->
  P (k, v) ->
  Forall P (Map_set key_eq k v m).
Proof.
  intros H Hsame Hnew. induction m as [|[k' v'] m IH]; simpl.
  - constructor; [exact Hnew | constructor].
  - apply Forall_cons in H as [Hk' Hm]. destruct (key_eq k' k) eqn:E.
    + constructor; [exact (Hsame k' E) | exact Hm].
    + constructor; [exact Hk' | exact (IH Hm)].
Qed.

(** A document stored under a truthy identifier is in the store. *)
Lemma own_entry_valid (db : CoreDB.t) (kr : value * ref) :
  own_entry db kr -> snd kr < length (CoreDB.heap db).
Proof.
  intros (_ & H & _). unfold CoreDB.deref in H.
  destruct (CoreDB.heap db !! snd kr) as [o|] eqn:E.
  - exact (lookup_lt_Some _ _ _ E).
  - discriminate H.
Qed.

Lemma own_entry_extend (db db' : CoreDB.t) (extra : list obj) (kr : value * ref) :
  CoreDB.heap db' = CoreDB.heap db ++ extra -> own_entry db kr -> own_entry db' kr.
Proof.
  intros Hh H. pose proof (own_entry_valid db kr H) as Hv.
  unfold own_entry. rewrite (deref_app db db' extra _ Hh Hv). exact H.
Qed.

(** A second save right after a save writes the same files. *)
Lemma saveCollection_twice (name : string) (e : CoreDB.event) (db : CoreDB.t) :
  CoreDB.collectionFiles (CoreDB.saveCollection name (CoreDB.emit e (CoreDB.saveCollection name db)))
  = CoreDB.collectionFiles (CoreDB.emit e (CoreDB.saveCollection name db))
  /\ CoreDB.indexFiles (CoreDB.saveCollection name (CoreDB.emit e (CoreDB.saveCollection name db)))
     = CoreDB.indexFiles (CoreDB.emit e (CoreDB.saveCollection name db)).
Proof.
  unfold CoreDB.saveCollection.
  destruct (Map_get String.eqb name (CoreDB.collections db)) as [[m|m]|] eqn:E;
    cbn; rewrite E; cbn; rewrite ?Map_set_set; auto.
Qed.

Section SnapshotFacts.
Context (host : Host).

(** What a returning [insert] leaves. *)
Lemma insert_returns (this : string) (document : obj) (env : Env)
      (db db' : CoreDB.t) (r : ref) :
  Collection.insert host this document env db = (Return r, db') ->
  CoreDB.heap db' = CoreDB.heap db ++ [Collection.stamp document env]
  /\ Collection.documents this db'
     = Map_set key_eq (obj_get "_id" (Collection.stamp document env))
               (length (CoreDB.heap db)) (Collection.documents this db)
  /\ Map_has String.eqb this (CoreDB.collections db') = true
  /\ CoreDB.reopen (CoreDB.saveCollection this db') = CoreDB.reopen db'.
Proof.
  rewrite insert_unfold. cbv zeta.
  destruct (Collection.updateIndexes_loop host this (Collection.stamp document env)
              OpInsert None (CoreDB.indexes db)) as [[[]|e] ixs]; [|discriminate].
  intros H. injection H as _ <-.
  repeat split.
  - cbn [CoreDB.heap CoreDB.emit]. rewrite heap_saveCollection. reflexivity.
  - change (Collection.documents this (CoreDB.emit ?e ?d)) with (Collection.documents this d).
    rewrite documents_saveCollection.
    apply (documents_set_documents this _
             (CoreDB.with_heap (CoreDB.heap db ++ [Collection.stamp document env]) db)).
  - change (CoreDB.collections (CoreDB.emit ?e ?d)) with (CoreDB.collections d).
    unfold CoreDB.saveCollection. cbn.
    rewrite Map_get_set_same. cbn. apply Map_has_set_same.
  - unfold CoreDB.reopen.
    destruct (saveCollection_twice this (CoreDB.documentInserted this (length (CoreDB.heap db)))
                (CoreDB.with_indexes ixs
                   (Collection.set_documents this
                      (Map_set key_eq (obj_get "_id" (Collection.stamp document env))
                               (length (CoreDB.heap db)) (Collection.documents this db))
                      (CoreDB.with_heap (CoreDB.heap db ++ [Collection.stamp document env]) db))))
      as [-> ->].
    reflexivity.
Qed.

(** A returning [insert] of a document made of JSON values keeps the
    collection keyed by identifier. *)
Lemma insert_keeps_keyed (this : string) (document : obj) (env : Env)
      (db db' : CoreDB.t) (r : ref) :
  keyed_by_id this db ->
  truthy (obj_get "_id" (Collection.stamp document env)) = true ->
  json_norm (VObj (Collection.stamp document env)) = VObj (Collection.stamp document env) ->
  Collection.insert host this document env db = (Return r, db') ->
  keyed_by_id this db'.
Proof.
  intros [Hdist Hown] Ht Hj Hins.
  destruct (insert_returns this document env db db' r Hins) as (Hh & Hd & _ & _).
  unfold keyed_by_id. rewrite Hd. split; [apply Map_set_distinct; exact Hdist|].
  assert (Hnew : CoreDB.deref db' (length (CoreDB.heap db)) = Collection.stamp document env)
    by (apply deref_new; exact Hh).
  apply Forall_Map_set.
  - eapply Forall_impl; [exact Hown|]. intros kr. apply (own_entry_extend db db' _ kr Hh).
  - intros k' Hk'. unfold own_entry. cbn [fst snd]. rewrite Hnew. auto.
  - unfold own_entry. cbn [fst snd]. rewrite Hnew, key_eq_refl. auto.
Qed.

(** Take a collection in which every document is
    stored under its own truthy identifier and is made of JSON values.
    If the store holds the collection, saving its snapshot and reopening
    the store over it gives back the same documents, field for field and
    in the same order; and after inserting any number of documents made
    of JSON values, each insert returning, the collection is still of
    that kind and, after disconnecting, the store reopened over the files
    holds the same documents in the same order. *)
Lemma snapshot_reload (this : string) (db : CoreDB.t) :
  keyed_by_id this db ->
  (Map_has String.eqb this (CoreDB.collections db) = true ->
   contents this (CoreDB.reopen (CoreDB.saveCollection this db)) = contents this db)
  /\ forall (docs : list (obj * Env)) (rs : list ref) (db' : CoreDB.t),
      docs <> [] ->
      Forall (fun de =>
                truthy (obj_get "_id" (Collection.stamp (fst de) (snd de))) = true
                /\ json_norm (VObj (Collection.stamp (fst de) (snd de)))
                   = VObj (Collection.stamp (fst de) (snd de))) docs ->
      Collection.insertMany host this docs db = (Return rs, db') ->
      keyed_by_id this db'
      /\ length rs = length docs
      /\ contents this (CoreDB.reopen (CoreDB.disconnect db')) = contents this db'.
Proof.
  intros Hkeyed. split; [intros Hhas; exact (saveCollection_then_reopen this db Hhas Hkeyed)|].
  assert (Hdisconnect : forall d, CoreDB.reopen (CoreDB.disconnect d) = CoreDB.reopen d)
    by reflexivity.
  intros docs. revert db Hkeyed.
  induction docs as [|[doc env] rest IH]; intros db Hkeyed rs db' Hne Hgood;
    [contradiction|].
  apply Forall_cons in Hgood as [[Ht Hj] Hrest]. cbn [fst snd] in Ht, Hj.
  cbn [Collection.insertMany].
  destruct (Collection.insert host this doc env db) as [[r|e] db1] eqn:Hins; [|discriminate].
  pose proof (insert_keeps_keyed this doc env db db1 r Hkeyed Ht Hj Hins) as Hk1.
  destruct rest as [|de rest].
  - cbn [Collection.insertMany]. intros H. injection H as <- <-.
    destruct (insert_returns this doc env db db1 r Hins) as (_ & _ & Hhas & Hre).
    split; [exact Hk1 | split; [reflexivity|]].
    rewrite Hdisconnect, <- Hre. exact (saveCollection_then_reopen this db1 Hhas Hk1).
  - destruct (Collection.insertMany host this (de :: rest) db1) as [[rs'|e] db2] eqn:Hmany;
      [|discriminate].
    intros H. injection H as <- <-.
    destruct (IH db1 Hk1 rs' db2) as (Hk2 & Hlen & Hc);
      [discriminate | exact Hrest | exact Hmany|].
    split; [exact Hk2 | split; [|exact Hc]].
    cbn [length]. rewrite Hlen. reflexivity.
Qed.

End SnapshotFacts.

(** * Further properties *)

(** ** Maps keyed by strings, sets of ids *)

Section StringMapFacts.
Context {V : Type}.

Lemma Map_get_Forall (P : string * V -> Prop) (k : string) (v : V) (m : list (string * V)) :
  Forall P m -> Map_get String.eqb k m = Some v -> exists k', P (k', v).
Proof.
  induction m as [|[j w] m IH]; simpl; [discriminate|].
  intros H. apply Forall_cons in H as [Hj Hm].
  destruct (String.eqb j k).
  - intros E. injection E as <-. eauto.
  - exact (IH Hm).
Qed.

Lemma Forall_Map_set_names (P : string * V -> Prop) (k : string) (v : V)
      (m : list (string * V)) :
  Forall P m -> (forall k', P (k', v)) -> Forall P (Map_set String.eqb k v m).
Proof.
  intros H Hv. induction m as [|[j w] m IH]; simpl.
  - constructor; [apply Hv | constructor].
  - apply Forall_cons in H as [Hj Hm]. destruct (String.eqb j k).
    + constructor; [apply Hv | exact Hm].
    + constructor; [exact Hj | exact (IH Hm)].
Qed.

Lemma Forall_Map_delete (P : string * V -> Prop) (k : string) (m : list (string * V)) :
  Forall P m -> Forall P (Map_delete String.eqb k m).
Proof.
  intros H. induction m as [|[j w] m IH]; simpl; [constructor|].
  apply Forall_cons in H as [Hj Hm]. destruct (String.eqb j k); [exact Hm|].
  constructor; [exact Hj | exact (IH Hm)].
Qed.

Lemma Forall_keys_Map_set (Q : string -> Prop) (k : string) (v : V) (m : list (string * V)) :
  Forall Q (Map_keys m) -> Q k -> Forall Q (Map_keys (Map_set String.eqb k v m)).
Proof.
  unfold Map_keys. intros H Hk. induction m as [|[j w] m IH]; simpl.
  - constructor; [exact Hk | constructor].
  - apply Forall_cons in H as [Hj Hm]. destruct (String.eqb j k); simpl.
    + constructor; assumption.
    + constructor; [exact Hj | exact (IH Hm)].
Qed.

Lemma Forall_keys_Map_delete (Q : string -> Prop) (k : string) (m : list (string * V)) :
  Forall Q (Map_keys m) -> Forall Q (Map_keys (Map_delete String.eqb k m)).
Proof.
  unfold Map_keys. intros H. induction m as [|[j w] m IH]; simpl; [constructor|].
  apply Forall_cons in H as [Hj Hm]. destruct (String.eqb j k); simpl; [exact Hm|].
  constructor; [exact Hj | exact (IH Hm)].
Qed.

Lemma distinct_names_Map_set (k : string) (v : V) (m : list (string * V)) :
  distinct_names (Map_keys m) -> distinct_names (Map_keys (Map_set String.eqb k v m)).
Proof.
  induction m as [|[j w] m IH]; simpl.
  - intros _. split; [constructor | exact I].
  - intros [Hj Hm]. destruct (String.eqb j k) eqn:E; simpl.
    + split; assumption.
    + split; [|exact (IH Hm)].
      apply (Forall_keys_Map_set (fun n => String.eqb j n = false)); assumption.
Qed.

Lemma distinct_names_Map_delete (k : string) (m : list (string * V)) :
  distinct_names (Map_keys m) -> distinct_names (Map_keys (Map_delete String.eqb k m)).
Proof.
  induction m as [|[j w] m IH]; simpl; [auto|].
  intros [Hj Hm]. destruct (String.eqb j k); simpl; [exact Hm|].
  split; [|exact (IH Hm)].
  apply (Forall_keys_Map_delete (fun n => String.eqb j n = false)). exact Hj.
Qed.

Lemma Map_has_keys_false (k : string) (m : list (string * V)) :
  Forall (fun n => String.eqb n k = false) (Map_keys m) -> Map_has String.eqb k m = false.
Proof.
  unfold Map_keys. induction m as [|[j w] m IH]; simpl; [reflexivity|].
  intros H. apply Forall_cons in H as [Hj Hm]. simpl in Hj. rewrite Hj. exact (IH Hm).
Qed.

(** With distinct keys, a deleted key is gone. *)
Lemma Map_has_delete_same (k : string) (m : list (string * V)) :
  distinct_names (Map_keys m) -> Map_has String.eqb k (Map_delete String.eqb k m) = false.
Proof.
  induction m as [|[j w] m IH]; simpl; [reflexivity|].
  intros [Hj Hm]. destruct (String.eqb j k) eqn:E; simpl.
  - apply String.eqb_eq in E. subst j. apply Map_has_keys_false.
    eapply Forall_impl; [exact Hj|]. intros n Hn. simpl in Hn.
    rewrite String.eqb_sym. exact Hn.
  - rewrite E. exact (IH Hm).
Qed.

Lemma Map_get_delete_other (k k' : string) (m : list (string * V)) :
  String.eqb k k' = false ->
  Map_get String.eqb k' (Map_delete String.eqb k m) = Map_get String.eqb k' m.
Proof.
  intros H. induction m as [|[j w] m IH]; simpl; [reflexivity|].
  destruct (String.eqb j k) eqn:E; simpl.
  - apply String.eqb_eq in E. subst j. rewrite H. reflexivity.
  - destruct (String.eqb j k'); [reflexivity | exact IH].
Qed.

Lemma Map_has_as_get (k : string) (m : list (string * V)) :
  Map_has String.eqb k m = match Map_get String.eqb k m with Some _ => true | None => false end.
Proof.
  induction m as [|[j w] m IH]; simpl; [reflexivity|].
  destruct (String.eqb j k); simpl; [reflexivity | exact IH].
Qed.

(** Writing back the value a key has changes nothing. *)
Lemma Map_set_get_same (k : string) (v : V) (m : list (string * V)) :
  Map_get String.eqb k m = Some v -> Map_set String.eqb k v m = m.
Proof.
  induction m as [|[j w] m IH]; simpl; [discriminate|].
  destruct (String.eqb j k).
  - intros E. injection E as <-. reflexivity.
  - intros E. rewrite (IH E). reflexivity.
Qed.

Lemma Map_delete_set_present (k : string) (v w : V) (m : list (string * V)) :
  Map_get String.eqb k m = Some w ->
  Map_set String.eqb k w (Map_set String.eqb k v m) = m.
Proof.
  intros H. rewrite Map_set_set. apply Map_set_get_same. exact H.
Qed.
End StringMapFacts.

Lemma Set_has_Forall (x : value) (s : list value) :
  Set_has x s = false <-> Forall (fun y => key_eq y x = false) s.
Proof.
  induction s as [|y s IH]; simpl.
  - split; [constructor | reflexivity].
  - rewrite Forall_cons, <- IH. destruct (key_eq y x); simpl; intuition congruence.
Qed.

Lemma distinct_snoc (s : list value) (x : value) :
  distinct s -> Forall (fun y => key_eq y x = false) s -> distinct (s ++ [x]).
Proof.
  induction s as [|y s IH]; simpl.
  - intros _ _. split; [constructor | exact I].
  - intros [Hy Hs] H. apply Forall_cons in H as [Hyx Hsx]. split; [|exact (IH Hs Hsx)].
    apply Forall_app. split; [exact Hy | constructor; [exact Hyx | constructor]].
Qed.

Lemma Set_add_distinct (x : value) (s : list value) :
  distinct s -> distinct (Set_add x s).
Proof.
  intros H. unfold Set_add. destruct (Set_has x s) eqn:E; [exact H|].
  apply distinct_snoc; [exact H | apply Set_has_Forall; exact E].
Qed.

Lemma Set_add_not_empty (x : value) (s : list value) : Set_add x s <> [].
Proof.
  unfold Set_add. destruct (Set_has x s) eqn:E.
  - destruct s; [discriminate E | discriminate].
  - destruct s; discriminate.
Qed.

Lemma Forall_Set_delete (P : value -> Prop) (x : value) (s : list value) :
  Forall P s -> Forall P (Set_delete x s).
Proof.
  intros H. induction s as [|y s IH]; simpl; [constructor|].
  apply Forall_cons in H as [Hy Hs]. destruct (key_eq y x); [exact Hs|].
  constructor; [exact Hy | exact (IH Hs)].
Qed.

Lemma Set_delete_distinct (x : value) (s : list value) :
  distinct s -> distinct (Set_delete x s).
Proof.
  induction s as [|y s IH]; simpl; [auto|].
  intros [Hy Hs]. destruct (key_eq y x); [exact Hs|].
  split; [apply Forall_Set_delete; exact Hy | exact (IH Hs)].
Qed.

Lemma Set_has_add_same (x : value) (s : list value) : Set_has x (Set_add x s) = true.
Proof.
  unfold Set_add. destruct (Set_has x s) eqn:E; [exact E|].
  induction s as [|y s IH]; simpl.
  - rewrite key_eq_refl. reflexivity.
  - simpl in E. apply orb_false_iff in E as [Ey Es]. rewrite Ey. exact (IH Es).
Qed.

Lemma Set_has_add_other (x y : value) (s : list value) :
  Set_has y s = true -> Set_has y (Set_add x s) = true.
Proof.
  intros H. unfold Set_add. destruct (Set_has x s); [exact H|].
  induction s as [|z s IH]; simpl in *; [discriminate|].
  destruct (key_eq z y); [reflexivity | exact (IH H)].
Qed.

(** An id that was not in the set is taken out again by [delete]. *)
Lemma Set_delete_add (x : value) (s : list value) :
  Set_has x s = false -> Set_delete x (Set_add x s) = s.
Proof.
  intros H. unfold Set_add. rewrite H.
  induction s as [|y s IH]; simpl.
  - rewrite key_eq_refl. reflexivity.
  - simpl in H. apply orb_false_iff in H as [Hy Hs]. rewrite Hy, (IH Hs). reflexivity.
Qed.

Lemma Set_has_delete_same (x : value) (s : list value) :
  distinct s -> Set_has x (Set_delete x s) = false.
Proof.
  induction s as [|y s IH]; simpl; [reflexivity|].
  intros [Hy Hs]. destruct (key_eq y x) eqn:E.
  - apply Set_has_Forall. eapply Forall_impl; [exact Hy|].
    intros z Hz. simpl in Hz. destruct (key_eq z x) eqn:Ez; [|reflexivity].
    rewrite <- Hz. symmetry. apply (key_eq_trans y x z); [exact E|].
    apply key_eq_sym. exact Ez.
  - simpl. rewrite E. exact (IH Hs).
Qed.

(** ** database/Index.js: the data an index keeps *)

Section IndexDataFacts.
Context (host : Host).

Lemma add_id_present (k : string) (id : value) (ids : list value)
      (d : list (string * list value)) :
  Map_get String.eqb k d = Some ids ->
  Index.add_id k id d = Map_set String.eqb k (Set_add id ids) d.
Proof.
  intros H. unfold Index.add_id. rewrite Map_has_as_get, H. cbn. rewrite H. reflexivity.
Qed.

Lemma update_tail (P : list (string * list value) -> Prop) (i : Index.t)
      (key : option string) (id : value) (d1 : list (string * list value)) :
  (forall k id d, P d -> (Index.unique i = true -> Map_has String.eqb k d = false) ->
                  P (Index.add_id k id d)) ->
  P d1 ->
  P (Index.indexData
       (snd (match key with
             | Some k =>
                 if Index.unique i && Map_has String.eqb k d1
                 then (Throw (DuplicateKey (Index.name i)), Index.with_indexData d1 i)
                 else (Return tt, Index.with_indexData (Index.add_id k id d1) i)
             | None => (Return tt, Index.with_indexData d1 i)
             end))).
Proof.
  intros Hadd H1. destruct key as [k|]; [|exact H1].
  destruct (Index.unique i) eqn:U; cbn.
  - destruct (Map_has String.eqb k d1) eqn:E; cbn; [exact H1|].
    apply Hadd; [exact H1 | intros _; exact E].
  - apply Hadd; [exact H1 | discriminate].
Qed.

(** What holds of the data of an index and is kept by adding an id (under
    a key that has no entry, when the index is unique) and by removing one,
    holds after every [update]. *)
Lemma update_closed (P : list (string * list value) -> Prop) (i : Index.t) (document : obj)
      (op : operation) (originalDoc : option obj) :
  (forall k id d, P d -> (Index.unique i = true -> Map_has String.eqb k d = false) ->
                  P (Index.add_id k id d)) ->
  (forall k id d, P d -> P (Index.remove_id k id d)) ->
  P (Index.indexData i) ->
  P (Index.indexData (snd (Index.update host i document op originalDoc))).
Proof.
  intros Hadd Hrem H. unfold Index.update.
  destruct op.
  - destruct (Index.getIndexKey host i document) as [k|]; [|exact H].
    destruct (Index.unique i) eqn:U; cbn.
    + destruct (Map_has String.eqb k (Index.indexData i)) eqn:E; cbn; [exact H|].
      apply Hadd; [exact H | intros _; exact E].
    + apply Hadd; [exact H | discriminate].
  - cbv zeta. destruct (negb _); [|exact H].
    apply update_tail; [exact Hadd|].
    destruct (match originalDoc with Some o => Index.getIndexKey host i o | None => None end)
      as [ok|]; [|exact H].
    destruct (Map_has String.eqb ok (Index.indexData i)); [apply Hrem|]; exact H.
  - destruct (Index.getIndexKey host i document) as [k|]; [|exact H].
    destruct (Map_has String.eqb k (Index.indexData i)); cbn; [apply Hrem|]; exact H.
Qed.

Lemma add_id_wf (k : string) (id : value) (d : list (string * list value)) :
  index_wf d -> index_wf (Index.add_id k id d).
Proof.
  intros [Hk Hv]. destruct (Map_get String.eqb k d) as [ids|] eqn:E.
  - rewrite (add_id_present _ _ _ _ E).
    destruct (Map_get_Forall _ _ _ _ Hv E) as [k' [_ Hids]]. simpl in Hids.
    split; [apply distinct_names_Map_set; exact Hk|].
    apply Forall_Map_set_names; [exact Hv|]. intros j. simpl.
    split; [apply Set_add_not_empty | apply Set_add_distinct; exact Hids].
  - rewrite add_id_fresh by (rewrite Map_has_as_get, E; reflexivity).
    split; [apply distinct_names_Map_set; exact Hk|].
    apply Forall_Map_set_names; [exact Hv|]. intros j. simpl.
    split; [discriminate | split; [constructor | exact I]].
Qed.

Lemma remove_id_wf (k : string) (id : value) (d : list (string * list value)) :
  index_wf d -> index_wf (Index.remove_id k id d).
Proof.
  intros [Hk Hv]. unfold Index.remove_id.
  destruct (Map_get String.eqb k d) as [ids|] eqn:E; [|split; assumption].
  destruct (Map_get_Forall _ _ _ _ Hv E) as [k' [_ Hids]]. simpl in Hids.
  destruct (length (Set_delete id ids) =? 0)%nat eqn:L.
  - split; [apply distinct_names_Map_delete; exact Hk | apply Forall_Map_delete; exact Hv].
  - split; [apply distinct_names_Map_set; exact Hk|].
    apply Forall_Map_set_names; [exact Hv|]. intros j. simpl. split.
    + intros Z. rewrite Z in L. discriminate L.
    + apply Set_delete_distinct. exact Hids.
Qed.

(** X1. Whatever the operation and whether it returns or throws,
    [Index.update] leaves the data of the index as a [Map] of [Set]s
    holds them: no key twice, and under every key a set that is not empty
    (an entry whose set becomes empty is deleted) and has no id twice. *)
Theorem index_update_keeps_wf (i : Index.t) (document : obj) (op : operation)
        (originalDoc : option obj) :
  index_wf (Index.indexData i) ->
  index_wf (Index.indexData (snd (Index.update host i document op originalDoc))).
Proof.
  apply (update_closed index_wf).
  - intros k id d H _. apply add_id_wf. exact H.
  - intros k id d H. apply remove_id_wf. exact H.
Qed.

(** X2. In a unique index every key leads to exactly one id, and every
    [update], returning or throwing, keeps it so. *)
Theorem unique_index_one_id_per_key (i : Index.t) (document : obj) (op : operation)
        (originalDoc : option obj) :
  Index.unique i = true ->
  one_id_per_key (Index.indexData i) ->
  one_id_per_key (Index.indexData (snd (Index.update host i document op originalDoc))).
Proof.
  intros U. apply (update_closed one_id_per_key).
  - intros k id d H E. rewrite add_id_fresh by exact (E U).
    apply Forall_Map_set_names; [exact H | reflexivity].
  - intros k id d H. unfold Index.remove_id.
    destruct (Map_get String.eqb k d) as [ids|] eqn:E; [|exact H].
    destruct (length (Set_delete id ids) =? 0)%nat eqn:L.
    + apply Forall_Map_delete. exact H.
    + apply Forall_Map_set_names; [exact H|]. intros j. simpl.
      destruct (Map_get_Forall _ _ _ _ H E) as [k' Hids]. simpl in Hids.
      destruct ids as [|x [|y ids]]; try discriminate Hids.
      simpl in *. destruct (key_eq x id); [discriminate L | reflexivity].
Qed.

Lemma find_after_add (i : Index.t) (k : string) (id : value) (d : list (string * list value))
      (query : obj) (x : value) :
  Set_has x (Index.find host (Index.with_indexData d i) query) = true ->
  Set_has x (Index.find host (Index.with_indexData (Index.add_id k id d) i) query) = true.
Proof.
  unfold Index.find. rewrite !getIndexKey_with_indexData.
  destruct (Index.getIndexKey host i query) as [q|]; [|auto]. cbn.
  destruct (String.eqb k q) eqn:E.
  - apply String.eqb_eq in E. subst q.
    destruct (Map_get String.eqb k d) as [ids|] eqn:G; cbn; [|discriminate].
    rewrite (add_id_present _ _ _ _ G), Map_get_set_same. cbn.
    apply Set_has_add_other.
  - destruct (Map_get String.eqb k d) as [ids|] eqn:G.
    + rewrite (add_id_present _ _ _ _ G), Map_get_set_other by exact E. auto.
    + rewrite add_id_fresh by (rewrite Map_has_as_get, G; reflexivity).
      rewrite Map_get_set_other by exact E. auto.
Qed.

Lemma find_added (i : Index.t) (k : string) (id : value) (d : list (string * list value))
      (document : obj) :
  Index.getIndexKey host i document = Some k ->
  Set_has id (Index.find host (Index.with_indexData (Index.add_id k id d) i) document) = true.
Proof.
  intros K. unfold Index.find. rewrite getIndexKey_with_indexData, K. cbn.
  destruct (Map_get String.eqb k d) as [ids|] eqn:G.
  - rewrite (add_id_present _ _ _ _ G), Map_get_set_same. cbn. apply Set_has_add_same.
  - rewrite add_id_fresh by (rewrite Map_has_as_get, G; reflexivity).
    rewrite Map_get_set_same. cbn. rewrite key_eq_refl. reflexivity.
Qed.

Lemma Index_insert_finds (i i' : Index.t) (document : obj) (originalDoc : option obj) :
  Index.update host i document OpInsert originalDoc = (Return tt, i') ->
  (forall query, Index.getIndexKey host i query = Index.getIndexKey host i document ->
                 Index.getIndexKey host i document <> None ->
                 Set_has (obj_get "_id" document) (Index.find host i' query) = true)
  /\ (forall query x, Set_has x (Index.find host i query) = true ->
                      Set_has x (Index.find host i' query) = true).
Proof.
  unfold Index.update.
  destruct (Index.getIndexKey host i document) as [k|] eqn:K.
  - destruct (Index.unique i && Map_has String.eqb k (Index.indexData i)); [discriminate|].
    intros E. injection E as <-. split.
    + intros query Q _. unfold Index.find. rewrite getIndexKey_with_indexData, Q.
      pose proof (find_added i k (obj_get "_id" document) (Index.indexData i) document K) as F.
      unfold Index.find in F. rewrite getIndexKey_with_indexData, K in F. exact F.
    + intros query x. intros F. apply find_after_add. destruct i; exact F.
  - intros E. injection E as <-. split; [intros query _ N; now destruct N | auto].
Qed.

(** X3. After an insert that returns, [find] on a query with the key of
    the inserted document returns its [_id] (when the document has a key,
    that is unless the index is sparse and a field is missing), and every
    id [find] returned before, for any query, it still returns. *)
Theorem index_insert_then_find (i i' : Index.t) (document : obj) (originalDoc : option obj) :
  Index.update host i document OpInsert originalDoc = (Return tt, i') ->
  (forall query, Index.getIndexKey host i query = Index.getIndexKey host i document ->
                 Index.getIndexKey host i document <> None ->
                 Set_has (obj_get "_id" document) (Index.find host i' query) = true)
  /\ (forall query x, Set_has x (Index.find host i query) = true ->
                      Set_has x (Index.find host i' query) = true).
Proof. apply Index_insert_finds. Qed.

Lemma with_indexData_same (i : Index.t) : Index.with_indexData (Index.indexData i) i = i.
Proof. destruct i; reflexivity. Qed.

Lemma with_indexData_twice (d d' : list (string * list value)) (i : Index.t) :
  Index.with_indexData d' (Index.with_indexData d i) = Index.with_indexData d' i.
Proof. reflexivity. Qed.

Lemma remove_added (k : string) (id : value) (d : list (string * list value)) :
  index_wf d ->
  Set_has id (default [] (Map_get String.eqb k d)) = false ->
  Index.remove_id k id (Index.add_id k id d) = d.
Proof.
  intros [_ Hv] Hid. destruct (Map_get String.eqb k d) as [ids|] eqn:G; cbn in Hid.
  - rewrite (add_id_present _ _ _ _ G). unfold Index.remove_id.
    rewrite Map_get_set_same, Set_delete_add by exact Hid.
    destruct (Map_get_Forall _ _ _ _ Hv G) as [k' [Hne _]]. simpl in Hne.
    destruct ids as [|x ids]; [now destruct Hne|]. cbn [length Nat.eqb].
    apply Map_delete_set_present. exact G.
  - rewrite add_id_fresh by (rewrite Map_has_as_get, G; reflexivity).
    unfold Index.remove_id. rewrite Map_get_set_same. cbn. rewrite key_eq_refl. cbn.
    apply Map_has_delete_set. rewrite Map_has_as_get, G. reflexivity.
Qed.

(** X4. Inserting a document in an index and then deleting it gives the
    index back as it was, entry for entry and in the same order, when the
    id of the document was not already under its key. *)
Theorem index_insert_then_delete (i i1 : Index.t) (document : obj) :
  index_wf (Index.indexData i) ->
  Set_has (obj_get "_id" document) (Index.find host i document) = false ->
  Index.update host i document OpInsert None = (Return tt, i1) ->
  Index.update host i1 document OpDelete None = (Return tt, i).
Proof.
  intros W F. unfold Index.update at 1.
  destruct (Index.getIndexKey host i document) as [k|] eqn:K.
  - destruct (Index.unique i && Map_has String.eqb k (Index.indexData i)); [discriminate|].
    intros E. injection E as <-. unfold Index.update.
    rewrite getIndexKey_with_indexData, K. cbn [Index.indexData Index.with_indexData].
    unfold Index.find in F. rewrite K in F.
    assert (H : Map_has String.eqb k
                  (Index.add_id k (obj_get "_id" document) (Index.indexData i)) = true).
    { destruct (Map_get String.eqb k (Index.indexData i)) as [ids|] eqn:G.
      - rewrite (add_id_present _ _ _ _ G). apply Map_has_set_same.
      - rewrite add_id_fresh by (rewrite Map_has_as_get, G; reflexivity).
        apply Map_has_set_same. }
    rewrite H, remove_added by assumption.
    rewrite with_indexData_twice, with_indexData_same. reflexivity.
  - intros E. injection E as <-. unfold Index.update. rewrite K. reflexivity.
Qed.

(** X5. A unique index that rejects an update has already taken the
    document out of the entry of its former key: the call throws
    DuplicateKey, and afterwards [find] on the original document no longer
    returns the id, while the entry that caused the rejection is as it
    was. *)
Theorem rejected_update_has_left_old_key (i : Index.t) (document original : obj)
        (k0 k : string) :
  index_wf (Index.indexData i) ->
  Index.unique i = true ->
  Index.getIndexKey host i original = Some k0 ->
  Index.getIndexKey host i document = Some k ->
  String.eqb k0 k = false ->
  Map_has String.eqb k (Index.indexData i) = true ->
  let r := Index.update host i document OpUpdate (Some original) in
  fst r = Throw (DuplicateKey (Index.name i))
  /\ Set_has (obj_get "_id" document) (Index.find host (snd r) original) = false
  /\ Index.find host (snd r) document = Index.find host i document.
Proof.
  intros [Wk Wv] U K0 K N H. cbv zeta. unfold Index.update. rewrite K0, K. cbn [Index.same_key].
  rewrite N, U. cbn [negb andb].
  set (id := obj_get "_id" document).
  match goal with |- context [Map_has String.eqb k ?d] => set (d1 := d) end.
  assert (G : Map_get String.eqb k d1 = Map_get String.eqb k (Index.indexData i)).
  { subst d1. destruct (Map_has String.eqb k0 (Index.indexData i)); [|reflexivity].
    unfold Index.remove_id. destruct (Map_get String.eqb k0 (Index.indexData i)); [|reflexivity].
    destruct (length _ =? 0)%nat; [apply Map_get_delete_other | apply Map_get_set_other]; exact N. }
  rewrite (Map_has_as_get k d1), G, <- Map_has_as_get, H. subst d1.
  cbn [fst snd]. split; [reflexivity|]. split.
  - unfold Index.find. rewrite getIndexKey_with_indexData, K0. cbn [Index.indexData Index.with_indexData].
    destruct (Map_get String.eqb k0 (Index.indexData i)) as [ids|] eqn:G0.
    + rewrite Map_has_as_get, G0. unfold Index.remove_id. rewrite G0.
      destruct (Map_get_Forall _ _ _ _ Wv G0) as [k' [_ Hd]]. simpl in Hd.
      destruct (length (Set_delete id ids) =? 0)%nat eqn:L.
      * rewrite Map_has_get; [reflexivity | apply Map_has_delete_same; exact Wk].
      * rewrite Map_get_set_same. cbn. apply Set_has_delete_same. exact Hd.
    + rewrite Map_has_as_get, G0, G0. reflexivity.
  - unfold Index.find. rewrite getIndexKey_with_indexData, K. cbn [Index.indexData Index.with_indexData].
    rewrite G. reflexivity.
Qed.

Lemma keyParts_all_missing (i : Index.t) (document : obj) :
  Forall (fun f => Index.getNestedValue document f = VUndef) (Index.fields i) ->
  Index.keyParts host i document = map (fun _ => None) (Index.fields i).
Proof.
  unfold Index.keyParts. intros H. apply map_ext_Forall.
  eapply Forall_impl; [exact H|]. intros f Hf. simpl in Hf. rewrite Hf. reflexivity.
Qed.

(** X6. In a unique index that is not sparse, documents that have none of
    the indexed fields all get the same key: once one of them has been
    inserted, the insert of a second one throws DuplicateKey and leaves
    the index as it was. *)
Theorem unique_index_rejects_second_missing (i i1 : Index.t) (first second : obj) :
  Index.unique i = true ->
  Index.sparse i = false ->
  Forall (fun f => Index.getNestedValue first f = VUndef) (Index.fields i) ->
  Forall (fun f => Index.getNestedValue second f = VUndef) (Index.fields i) ->
  Index.update host i first OpInsert None = (Return tt, i1) ->
  Index.update host i1 second OpInsert None = (Throw (DuplicateKey (Index.name i)), i1).
Proof.
  intros U S F1 F2. unfold Index.update, Index.getIndexKey.
  rewrite S, U. cbn [andb].
  rewrite (keyParts_all_missing i first F1).
  match goal with |- context [Map_has String.eqb ?k (Index.indexData i)] =>
    destruct (Map_has String.eqb k (Index.indexData i)) end; [discriminate|].
  intros E. injection E as <-. cbn [Index.sparse Index.with_indexData Index.unique andb].
  change (Index.keyParts host (Index.with_indexData ?d i) second)
    with (Index.keyParts host i second).
  rewrite (keyParts_all_missing i second F2).
  cbn [Index.indexData Index.name].
  set (k := join "|" _).
  assert (H : Map_has String.eqb k (Index.add_id k (obj_get "_id" first) (Index.indexData i)) = true).
  { destruct (Map_get String.eqb k (Index.indexData i)) as [ids|] eqn:G.
    - rewrite (add_id_present _ _ _ _ G). apply Map_has_set_same.
    - rewrite add_id_fresh by (rewrite Map_has_as_get, G; reflexivity).
      apply Map_has_set_same. }
  cbn [Index.sparse Index.unique Index.indexData Index.name Index.with_indexData].
  rewrite S, U. cbn [andb]. rewrite H. reflexivity.
Qed.

End IndexDataFacts.

(** The index with John in it stays well formed when the document of the
    same address moves there from another key. *)
Lemma index_update_keeps_wf_example :
  index_wf (Index.indexData
              (snd (Index.update node Sample.two_indexed
                      (obj_set "email" (VStr "john@example.com") Sample.carol)
                      OpUpdate (Some Sample.carol)))).
Proof.
  apply (index_update_keeps_wf node Sample.two_indexed). by_computation.
Defined.

Lemma unique_index_one_id_per_key_example :
  one_id_per_key (Index.indexData
                    (snd (Index.update node Sample.john_indexed Sample.carol OpInsert None))).
Proof.
  apply (unique_index_one_id_per_key node Sample.john_indexed); by_computation.
Defined.

Lemma index_insert_then_find_example :
  (forall query,
      Index.getIndexKey node Sample.john_indexed query
      = Index.getIndexKey node Sample.john_indexed Sample.carol ->
      Index.getIndexKey node Sample.john_indexed Sample.carol <> None ->
      Set_has (obj_get "_id" Sample.carol) (Index.find node Sample.two_indexed query) = true)
  /\ (forall query x,
         Set_has x (Index.find node Sample.john_indexed query) = true ->
         Set_has x (Index.find node Sample.two_indexed query) = true).
Proof.
  apply (index_insert_then_find node Sample.john_indexed Sample.two_indexed Sample.carol None).
  vm_compute; reflexivity.
Defined.

Lemma index_insert_then_delete_example :
  Index.update node Sample.two_indexed Sample.carol OpDelete None
  = (Return tt, Sample.john_indexed).
Proof.
  apply (index_insert_then_delete node Sample.john_indexed Sample.two_indexed Sample.carol);
    by_computation.
Defined.

(** Carol takes John's address: the index rejects the update, and Carol is
    no longer found under her former address either. *)
Lemma rejected_update_has_left_old_key_example :
  let r := Index.update node Sample.two_indexed
             (obj_set "email" (VStr "john@example.com") Sample.carol)
             OpUpdate (Some Sample.carol) in
  fst r = Throw (DuplicateKey (Index.name Sample.two_indexed))
  /\ Set_has (obj_get "_id" (obj_set "email" (VStr "john@example.com") Sample.carol))
             (Index.find node (snd r) Sample.carol) = false
  /\ Index.find node (snd r) (obj_set "email" (VStr "john@example.com") Sample.carol)
     = Index.find node Sample.two_indexed
         (obj_set "email" (VStr "john@example.com") Sample.carol).
Proof.
  apply (rejected_update_has_left_old_key node Sample.two_indexed
           (obj_set "email" (VStr "john@example.com") Sample.carol) Sample.carol
           (Node.quote "carol@example.com") (Node.quote "john@example.com"));
    by_computation.
Defined.

(** Two documents without an email address in the unique index that is
    not sparse. *)
Lemma unique_index_rejects_second_missing_example :
  Index.update node (snd (Index.update node Sample.by_email [("_id", VStr "a")] OpInsert None))
               [("_id", VStr "b")] OpInsert None
  = (Throw (DuplicateKey (Index.name Sample.by_email)),
     snd (Index.update node Sample.by_email [("_id", VStr "a")] OpInsert None)).
Proof.
  apply (unique_index_rejects_second_missing node Sample.by_email _
           [("_id", VStr "a")] [("_id", VStr "b")]);
    by_computation.
Defined.

(** ** database/Index.js: the file of an index *)

Lemma distinct_names_before (l r : list string) (n : string) :
  distinct_names (l ++ n :: r) -> Forall (fun n' => String.eqb n' n = false) l.
Proof.
  induction l as [|a l IH]; simpl; [constructor|].
  intros [Ha Hl]. constructor; [|exact (IH Hl)].
  apply Forall_app in Ha as [_ Ha]. apply Forall_cons in Ha as [Ha _]. exact Ha.
Qed.

Lemma Map_set_new {V : Type} (k : string) (v : V) (m : list (string * V)) :
  Map_has String.eqb k m = false -> Map_set String.eqb k v m = m ++ [(k, v)].
Proof.
  induction m as [|[j w] m IH]; simpl; [reflexivity|].
  destruct (String.eqb j k); simpl; [discriminate|].
  intros H. rewrite (IH H). reflexivity.
Qed.

(** A [Set] built from ids that are distinct holds them in their order. *)
Lemma Set_of_distinct (ids : list value) : distinct ids -> IndexFile.Set_of ids = ids.
Proof.
  unfold IndexFile.Set_of. change ids with ([] ++ ids) at 1 3. generalize (@nil value).
  induction ids as [|x ids IH]; intros acc H; simpl.
  - symmetry. apply app_nil_r.
  - unfold Set_add at 2.
    rewrite (proj2 (Set_has_Forall x acc)) by (eapply distinct_before; exact H).
    rewrite IH by (rewrite <- app_assoc; exact H).
    rewrite <- app_assoc. reflexivity.
Qed.

Lemma indexData_of_from (records acc : list (string * list value)) :
  distinct_names (Map_keys (acc ++ records)) ->
  Forall (fun kv => distinct (snd kv)) records ->
  fold_left (fun d record =>
               Map_set String.eqb (fst record) (IndexFile.Set_of (snd record)) d)
            records acc
  = acc ++ records.
Proof.
  revert acc. induction records as [|[k ids] records IH]; intros acc Hk Hv; simpl.
  - symmetry. apply app_nil_r.
  - apply Forall_cons in Hv as [Hids Hv]. simpl in Hids.
    rewrite Set_of_distinct by exact Hids.
    rewrite Map_set_new.
    + rewrite IH; [|rewrite <- app_assoc; exact Hk | exact Hv].
      rewrite <- app_assoc. reflexivity.
    + apply Map_has_keys_false. eapply distinct_names_before.
      unfold Map_keys in *. rewrite map_app in Hk. exact Hk.
Qed.

Lemma indexData_of_wf (records : list (string * list value)) :
  index_wf records -> IndexFile.indexData_of records = records.
Proof.
  intros [Hk Hv]. unfold IndexFile.indexData_of. rewrite indexData_of_from.
  - reflexivity.
  - exact Hk.
  - eapply Forall_impl; [exact Hv|]. intros kv [_ H]. exact H.
Qed.

(** X7. An index written with [save] and read back with [load] has the
    entries it had, in the same order, whatever it held before the load,
    when its ids are JSON values (as the strings of [uuidv4] are). *)
Theorem index_save_then_load (i : Index.t) (d : list (string * list value)) (db : CoreDB.t) :
  index_wf (Index.indexData i) ->
  Forall (fun kv => Forall (fun id => json_norm id = id) (snd kv)) (Index.indexData i) ->
  IndexFile.load (Index.with_indexData d i) (IndexFile.save i db) = i.
Proof.
  intros W J. unfold IndexFile.load, IndexFile.save. cbn [Index.name Index.with_indexData
    CoreDB.indexFiles CoreDB.with_indexFiles].
  rewrite Map_get_set_same.
  replace (map (fun record => (fst record, map json_norm (snd record))) (Index.indexData i))
    with (Index.indexData i).
  - rewrite indexData_of_wf by exact W. destruct i; reflexivity.
  - induction (Index.indexData i) as [|[k ids] rest IH]; [reflexivity|].
    apply Forall_cons in J as [Jk J]. destruct W as [[_ Wk] Wv].
    apply Forall_cons in Wv as [_ Wv]. simpl. f_equal.
    + f_equal. simpl in Jk. clear -Jk. induction ids as [|x ids IH]; [reflexivity|].
      apply Forall_cons in Jk as [Jx Jk]. simpl. rewrite Jx, <- IH by exact Jk. reflexivity.
    + apply IH; [split; assumption | exact J].
Qed.

Lemma index_save_then_load_example :
  IndexFile.load (Index.with_indexData [] Sample.two_indexed)
                 (IndexFile.save Sample.two_indexed Sample.empty)
  = Sample.two_indexed.
Proof.
  apply (index_save_then_load Sample.two_indexed [] Sample.empty); by_computation.
Defined.

(** ** The query language *)

Section QueryFacts.
Context (host : Host).

Lemma with_property_get {A : Type} (key : string) (found : value -> A) (missing : A)
      (fs : list (string * value)) :
  found VUndef = missing ->
  Query.with_property key found missing fs = found (obj_get key fs).
Proof.
  intros H. induction fs as [|[k v] fs IH]; simpl; [symmetry; exact H|].
  destruct (String.eqb key k); [reflexivity | exact IH].
Qed.

(** [matchesQuery] on an object whose field conditions hold, with the
    three properties the source reads. *)
Lemma matchesQuery_operators (document : obj) (fs : list (string * value)) :
  Query.fieldsMatch host document fs = Return true ->
  Query.matchesQuery host document (VObj fs)
  = let on_array (run : list value -> outcome bool) (otherwise : outcome bool) (v : value) :=
        if truthy v then
          match v with VArr conditions => run conditions | _ => Throw TypeError end
        else otherwise in
    let nor :=
        on_array (fun conditions =>
                    obind (some (Query.matchesQuery host document) conditions)
                          (fun b => Return (negb b)))
                 (Return true) (obj_get "$nor" fs) in
    let or := on_array (some (Query.matchesQuery host document)) nor (obj_get "$or" fs) in
    on_array (every (Query.matchesQuery host document)) or (obj_get "$and" fs).
Proof.
  intros H. cbn [Query.matchesQuery Object_entries own_entries]. rewrite H. cbv zeta.
  rewrite !with_property_get by reflexivity. reflexivity.
Qed.

Lemma fieldsMatch_operators_only (document : obj) (fs : list (string * value)) :
  Forall (fun kv => starts_with_dollar (fst kv) = true) fs ->
  Query.fieldsMatch host document fs = Return true.
Proof.
  unfold Query.fieldsMatch. induction fs as [|[k v] fs IH]; intros H; [reflexivity|].
  apply Forall_cons in H as [Hk H]. simpl in *. rewrite Hk. exact (IH H).
Qed.

(** X8. Of [$and], [$or] and [$nor] only the first one present (in that
    order, whatever the order of the keys) is evaluated: with an [$and]
    array the result is [every] over its conditions, whatever [$or] and
    [$nor] hold; without a truthy [$and], an [$or] array gives [some] over
    its conditions, whatever [$nor] holds; [$nor] is only read when both are
    missing, and a query with none of them matches. *)
Theorem first_logical_operator_wins (document : obj) (fs : list (string * value))
        (conditions : list value) :
  Query.fieldsMatch host document fs = Return true ->
  (obj_get "$and" fs = VArr conditions ->
   Query.matchesQuery host document (VObj fs)
   = every (Query.matchesQuery host document) conditions)
  /\ (truthy (obj_get "$and" fs) = false -> obj_get "$or" fs = VArr conditions ->
      Query.matchesQuery host document (VObj fs)
      = some (Query.matchesQuery host document) conditions)
  /\ (truthy (obj_get "$and" fs) = false -> truthy (obj_get "$or" fs) = false ->
      obj_get "$nor" fs = VArr conditions ->
      Query.matchesQuery host document (VObj fs)
      = obind (some (Query.matchesQuery host document) conditions)
              (fun b => Return (negb b)))
  /\ (truthy (obj_get "$and" fs) = false -> truthy (obj_get "$or" fs) = false ->
      truthy (obj_get "$nor" fs) = false ->
      Query.matchesQuery host document (VObj fs) = Return true).
Proof.
  intros H. rewrite (matchesQuery_operators document fs H). cbv zeta.
  repeat split.
  - intros ->. reflexivity.
  - intros -> ->. reflexivity.
  - intros -> -> ->. reflexivity.
  - intros -> -> ->. reflexivity.
Qed.

Lemma comparison_unknown (docValue v : value) (operator : string) :
  known_operator operator = false ->
  Query.comparison host docValue operator v = Return true.
Proof.
  unfold known_operator, Query.comparison. cbn [existsb]. intros H.
  repeat (apply orb_false_iff in H as [E H]; rewrite E; clear E). reflexivity.
Qed.

(** X9. A condition whose value is an object with none of the nine
    comparison operators as a key, such as an embedded document
    [{address: {city: c}}], holds of every document: the query matches
    them all, whether they have the field or not. *)
Theorem object_condition_without_operator_matches_all
        (document : obj) (field : string) (condition : list (string * value)) :
  starts_with_dollar field = false ->
  Forall (fun kv => known_operator (fst kv) = false) condition ->
  Query.matchesQuery host document (VObj [(field, VObj condition)]) = Return true.
Proof.
  intros F H.
  assert (C : Query.handleComparisonOperators host (obj_get field document) condition
              = Return true).
  { unfold Query.handleComparisonOperators.
    induction condition as [|[op v] condition IH]; [reflexivity|].
    apply Forall_cons in H as [Hop H]. simpl in *.
    rewrite (comparison_unknown _ _ _ Hop). exact (IH H). }
  assert (N : forall key, starts_with_dollar key = true -> String.eqb key field = false).
  { intros key K. apply String.eqb_neq. intros ->. rewrite F in K. discriminate K. }
  rewrite matchesQuery_operators.
  - cbv zeta. cbn [obj_get]. rewrite !N by reflexivity. reflexivity.
  - unfold Query.fieldsMatch. cbn [every fst snd]. rewrite F.
    cbn [Query.compareValues]. rewrite C. reflexivity.
Qed.



End QueryFacts.

Lemma object_condition_without_operator_matches_all_example :
  Query.matchesQuery node [("name", VStr "John")]
                     (VObj [("address", VObj [("city", VStr "Paris")])])
  = Return true.
Proof.
  apply (object_condition_without_operator_matches_all node); by_computation.
Defined.


Lemma first_logical_operator_wins_example :
  let document := [("name", VStr "Desk")] in
  let fs := [("$or", VArr [VObj [("name", VStr "Desk")]]);
             ("$and", VArr [VObj [("name", VStr "Lamp")]])] in
  let conditions := [VObj [("name", VStr "Lamp")]] in
  (obj_get "$and" fs = VArr conditions ->
   Query.matchesQuery node document (VObj fs)
   = every (Query.matchesQuery node document) conditions)
  /\ (truthy (obj_get "$and" fs) = false -> obj_get "$or" fs = VArr conditions ->
      Query.matchesQuery node document (VObj fs)
      = some (Query.matchesQuery node document) conditions)
  /\ (truthy (obj_get "$and" fs) = false -> truthy (obj_get "$or" fs) = false ->
      obj_get "$nor" fs = VArr conditions ->
      Query.matchesQuery node document (VObj fs)
      = obind (some (Query.matchesQuery node document) conditions)
              (fun b => Return (negb b)))
  /\ (truthy (obj_get "$and" fs) = false -> truthy (obj_get "$or" fs) = false ->
      truthy (obj_get "$nor" fs) = false ->
      Query.matchesQuery node document (VObj fs) = Return true).
Proof.
  apply (first_logical_operator_wins node [("name", VStr "Desk")]
           [("$or", VArr [VObj [("name", VStr "Desk")]]);
            ("$and", VArr [VObj [("name", VStr "Lamp")]])]
           [VObj [("name", VStr "Lamp")]]).
  vm_compute; reflexivity.
Defined.

(** ** Collection.find: pagination *)

Lemma Qred_inject_Z (z : Z) : Qred (inject_Z z) = inject_Z z.
Proof.
  unfold Qred, inject_Z.
  pose proof (Z.ggcd_gcd z 1) as G. pose proof (Z.ggcd_correct_divisors z 1) as D.
  destruct (Z.ggcd z 1) as [g [a b]]. simpl in G. rewrite Z.gcd_1_r in G. subst g.
  destruct D as [Da Db]. rewrite Z.mul_1_l in Da, Db. subst a b. reflexivity.
Qed.

(** The host of the examples adds integers as integers. *)
Lemma node_adds_integers : adds_integers node.
Proof.
  intros a b. unfold VInt. cbn.
  replace (inject_Z a + inject_Z b)%Q with (inject_Z (a + b)).
  - rewrite Qred_inject_Z. reflexivity.
  - unfold Qplus, inject_Z. cbn. rewrite !Z.mul_1_r. reflexivity.
Qed.


Lemma truthy_VInt (n : nat) : truthy (VInt (Z.of_nat n)) = negb (n =? 0)%nat.
Proof.
  unfold VInt, truthy, inject_Z, Qeq_bool. cbn. rewrite Z.mul_1_r.
  destruct n; [reflexivity|]. cbn. reflexivity.
Qed.

Lemma firstn_skipn_clamped {A : Type} (s f : nat) (xs : list A) :
  firstn (Nat.min (s + f) (length xs) - Nat.min s (length xs))
         (skipn (Nat.min s (length xs)) xs)
  = firstn f (skipn s xs).
Proof.
  destruct (Nat.le_gt_cases s (length xs)) as [H|H].
  - rewrite (Nat.min_l s) by exact H.
    destruct (Nat.le_gt_cases (s + f) (length xs)) as [H'|H'].
    + rewrite Nat.min_l by exact H'. f_equal. lia.
    + rewrite Nat.min_r by lia.
      rewrite !firstn_all2; [reflexivity | |]; rewrite length_skipn; lia.
  - rewrite !Nat.min_r by lia. rewrite Nat.sub_diag.
    rewrite (skipn_all2 (n:=s)), (skipn_all2 (n:=length xs)) by lia.
    destruct f; reflexivity.
Qed.

Section PaginationFacts.
Context (host : Host).

Lemma to_integer_VInt (z : Z) : to_integer_or_infinity host (VInt z) = ZFin z.
Proof. cbn. rewrite Z.quot_1_r. reflexivity. Qed.

Lemma clamp_index_nat (len n : nat) :
  clamp_index len (ZFin (Z.of_nat n)) = Nat.min n len.
Proof.
  unfold clamp_index. destruct (Z.ltb_spec (Z.of_nat n) 0); [lia|].
  rewrite Nat2Z.id. reflexivity.
Qed.

Lemma js_or_reads (v : value) (n d : nat) :
  reads_as v n ->
  js_or v (VInt (Z.of_nat d)) = VInt (Z.of_nat (if (n =? 0)%nat then d else n))
  /\ truthy v = negb (n =? 0)%nat.
Proof.
  unfold js_or. intros [-> | [-> ->]]; [|split; reflexivity].
  rewrite truthy_VInt. destruct n; split; reflexivity.
Qed.

Lemma applyPagination_page {A : Type} (docs : list A) (options : value) (s l : nat) :
  adds_integers host ->
  reads_as (prop_get options "skip") s ->
  reads_as (prop_get options "limit") l ->
  Collection.applyPagination host docs options = page s l docs.
Proof.
  intros P Hs Hl. unfold Collection.applyPagination.
  change (VInt 0) with (VInt (Z.of_nat 0)). cbv zeta.
  destruct (js_or_reads _ _ 0 Hs) as [-> _].
  destruct (js_or_reads _ _ (length docs) Hl) as [-> _].
  replace (if (s =? 0)%nat then 0 else s) with s by (destruct s; reflexivity).
  rewrite P, <- Nat2Z.inj_add. unfold Array_slice.
  rewrite !to_integer_VInt, !clamp_index_nat. cbn [is_undefined VInt].
  rewrite firstn_skipn_clamped. unfold page.
  destruct (l =? 0)%nat; [|reflexivity].
  apply firstn_all2. rewrite length_skipn. lia.
Qed.

Lemma find_with_page (this : string) (query : value) (opts : list (string * value))
        (s l : nat) (db : CoreDB.t) :
  adds_integers host ->
  obj_get "sort" opts = VUndef ->
  reads_as (obj_get "skip" opts) s ->
  reads_as (obj_get "limit" opts) l ->
  Collection.find host this query (VObj opts) db
  = obind (Collection.find host this query VUndef db)
          (fun results => Return (page s l results)).
Proof.
  intros P Hsort Hs Hl. unfold Collection.find. cbn [or_empty is_undefined].
  destruct (Object_entries (or_empty query)) as [keys|e]; [|reflexivity].
  cbn [obind].
  destruct (if (0 <? length keys)%nat then _ else _) as [results|e]; [|reflexivity].
  cbn [obind get_property prop_get obj_get]. rewrite Hsort. cbn [truthy obind].
  f_equal.
  destruct (js_or_reads _ _ 0 Hs) as [_ ->]. destruct (js_or_reads _ _ 0 Hl) as [_ ->].
  destruct l, s; cbn [Nat.eqb negb orb];
    try (apply applyPagination_page; assumption).
  reflexivity.
Qed.

(** X11. [find] with the options [skip] and [limit] (natural numbers,
    either may be missing) and no [sort] returns what [find] without
    options returns, less its first [skip] results and cut after [limit]
    of them; a [limit] of 0 is no limit.  It throws when and as the plain
    [find] does. *)
Theorem find_pages (this : string) (query : value) (opts : list (string * value))
        (s l : nat) (db : CoreDB.t) :
  adds_integers host ->
  obj_get "sort" opts = VUndef ->
  reads_as (obj_get "skip" opts) s ->
  reads_as (obj_get "limit" opts) l ->
  Collection.find host this query (VObj opts) db
  = obind (Collection.find host this query VUndef db)
          (fun results => Return (page s l results)).
Proof. apply find_with_page. Qed.

(** X12. [findOne] returns the first document [find] returns for the
    query, none when there is no such document, and throws when [find]
    does. *)
Theorem findOne_is_first_found (this : string) (query : value) (db : CoreDB.t) :
  adds_integers host ->
  Collection.findOne host this query db
  = obind (Collection.find host this query VUndef db) (fun results => Return (head results)).
Proof.
  intros P. unfold Collection.findOne.
  rewrite (find_with_page this query [("limit", VInt 1)] 0 1 db P);
    [|reflexivity | right; split; reflexivity | left; reflexivity].
  destruct (Collection.find host this query VUndef db) as [results|e]; [|reflexivity].
  cbn. destruct results; reflexivity.
Qed.

End PaginationFacts.

(** The third and fourth product, and the first product over 200. *)
Lemma find_pages_example :
  Collection.find node "products" VUndef (VObj [("skip", VInt 2); ("limit", VInt 2)])
                  Sample.products
  = obind (Collection.find node "products" VUndef VUndef Sample.products)
          (fun results => Return (page 2 2 results)).
Proof.
  apply (find_pages node "products" VUndef [("skip", VInt 2); ("limit", VInt 2)] 2 2
           Sample.products node_adds_integers);
    [vm_compute; reflexivity | left; vm_compute; reflexivity | left; vm_compute; reflexivity].
Defined.

Lemma findOne_is_first_found_example :
  Collection.findOne node "products" (VObj [("price", VObj [("$gt", VInt 200)])])
                     Sample.products
  = obind (Collection.find node "products" (VObj [("price", VObj [("$gt", VInt 200)])])
                           VUndef Sample.products)
          (fun results => Return (head results)).
Proof.
  apply (findOne_is_first_found node "products" _ Sample.products node_adds_integers).
Defined.

(** ** Collection.delete *)

Lemma filter_all {A : Type} (p : A -> bool) (l : list A) :
  Forall (fun x => p x = true) l -> List.filter p l = l.
Proof.
  induction l as [|x l IH]; intros H; [reflexivity|].
  apply Forall_cons in H as [Hx H]. simpl. rewrite Hx, (IH H). reflexivity.
Qed.


Lemma filter_twice {A : Type} (p q : A -> bool) (l : list A) :
  List.filter q (List.filter p l) = List.filter (fun x => p x && q x) l.
Proof.
  induction l as [|x l IH]; [reflexivity|]. simpl.
  destruct (p x); simpl; [destruct (q x)|]; rewrite IH; reflexivity.
Qed.

Lemma filter_same_on {A : Type} (p q : A -> bool) (l : list A) :
  Forall (fun x => p x = q x) l -> List.filter p l = List.filter q l.
Proof.
  induction l as [|x l IH]; intros H; [reflexivity|].
  apply Forall_cons in H as [Hx H]. simpl. rewrite Hx, (IH H). reflexivity.
Qed.

Lemma Forall_filter_keeps {A : Type} (P : A -> Prop) (p : A -> bool) (l : list A) :
  Forall P l -> Forall P (List.filter p l).
Proof.
  induction l as [|x l IH]; intros H; [constructor|].
  apply Forall_cons in H as [Hx H]. simpl.
  destruct (p x); [constructor; [exact Hx|]|]; exact (IH H).
Qed.




Section MapOfDocuments.
Context (idof : ref -> value).



End MapOfDocuments.

Section DeleteFacts.
Context (host : Host).






Lemma matchesQuery_no_keys (document : obj) (query : value) :
  Object_entries query = Return [] ->
  Query.matchesQuery host document query = Return true.
Proof.
  destruct query as [ | | b | n | s | s | xs | fs]; try discriminate;
    cbn [Query.matchesQuery Object_entries own_entries]; try reflexivity.
  - intros E. injection E as E. rewrite E. reflexivity.
  - intros E. injection E as E. rewrite E. reflexivity.
  - intros E. injection E as ->. reflexivity.
Qed.



End DeleteFacts.


(** ** Collection.insert *)

Section InsertFacts.
Context (host : Host).

Lemma Map_has_false_keys {V : Type} (k : value) (m : list (value * V)) :
  Map_has key_eq k m = false -> Forall (fun k' => key_eq k' k = false) (Map_keys m).
Proof.
  unfold Map_keys. induction m as [|[k' v] m IH]; simpl; [constructor|].
  intros H. apply orb_false_iff in H as [Hk H]. constructor; [exact Hk | exact (IH H)].
Qed.

(** The store after [insert], whether the indexes accepted the document or
    not. *)
Lemma insert_leaves (this : string) (document : obj) (env : Env) (db : CoreDB.t) :
  CoreDB.heap (snd (Collection.insert host this document env db))
  = CoreDB.heap db ++ [Collection.stamp document env]
  /\ Collection.documents this (snd (Collection.insert host this document env db))
     = Map_set key_eq (obj_get "_id" (Collection.stamp document env))
               (length (CoreDB.heap db)) (Collection.documents this db)
  /\ (forall r, fst (Collection.insert host this document env db) = Return r ->
                r = length (CoreDB.heap db)).
Proof.
  rewrite insert_unfold. cbv zeta.
  destruct (Collection.updateIndexes_loop host this (Collection.stamp document env)
              OpInsert None (CoreDB.indexes db)) as [[[]|e] ixs]; cbn [fst snd].
  - split; [|split].
    + cbn [CoreDB.heap CoreDB.emit]. rewrite heap_saveCollection. reflexivity.
    + change (Collection.documents this (CoreDB.emit ?e ?d)) with (Collection.documents this d).
      rewrite documents_saveCollection.
      apply (documents_set_documents this _
               (CoreDB.with_heap (CoreDB.heap db ++ [Collection.stamp document env]) db)).
    + intros r E. injection E as <-. reflexivity.
  - split; [reflexivity|]. split; [|discriminate].
    apply (documents_set_documents this _
             (CoreDB.with_heap (CoreDB.heap db ++ [Collection.stamp document env]) db)).
Qed.

(** X14. A document whose [_id] is not yet a key of the collection is
    added after the documents the collection has, which stay as they are:
    so [find] returns it last.  This holds whether [insert] returns or a
    unique index rejects the document; when it returns, it returns the
    stored document. *)
Theorem insert_new_id_appends (this : string) (document : obj) (env : Env) (db : CoreDB.t) :
  stored this db ->
  Map_has key_eq (obj_get "_id" (Collection.stamp document env))
          (Collection.documents this db) = false ->
  let r := Collection.insert host this document env db in
  contents this (snd r) = contents this db ++ [Collection.stamp document env]
  /\ (forall stored_at, fst r = Return stored_at ->
                        CoreDB.deref (snd r) stored_at = Collection.stamp document env).
Proof.
  intros S N. cbv zeta.
  destruct (insert_leaves this document env db) as (H & D & R).
  split.
  - unfold contents. rewrite D, Map_set_absent by (apply Map_has_false_keys; exact N).
    unfold Map_values. rewrite map_app, map_app. cbn [map snd]. f_equal.
    + apply map_ext_Forall. eapply Forall_impl; [exact S|]. intros r Hr.
      exact (deref_app db _ _ r H Hr).
    + rewrite (deref_new db _ _ H). reflexivity.
  - intros r E. rewrite (R r E). exact (deref_new db _ _ H).
Qed.

Lemma stamp_fields (document : obj) (env : Env) :
  obj_get "_id" (Collection.stamp document env)
  = (if truthy (obj_get "_id" document) then obj_get "_id" document
     else VStr (uuidv4 env))
  /\ obj_get "_createdAt" (Collection.stamp document env) = VStr (now env 0)
  /\ obj_get "_updatedAt" (Collection.stamp document env) = VStr (now env 1)
  /\ (forall k, String.eqb k "_id" = false -> String.eqb k "_createdAt" = false ->
                String.eqb k "_updatedAt" = false ->
                obj_get k (Collection.stamp document env) = obj_get k document).
Proof.
  unfold Collection.stamp. repeat split.
  - rewrite !obj_get_set_other by reflexivity.
    destruct (truthy (obj_get "_id" document)); cbn [negb]; [reflexivity|].
    apply obj_get_set_same.
  - rewrite obj_get_set_other by reflexivity. apply obj_get_set_same.
  - apply obj_get_set_same.
  - intros k K1 K2 K3. rewrite !obj_get_set_other by assumption.
    destruct (truthy (obj_get "_id" document)); cbn [negb]; [reflexivity|].
    apply obj_get_set_other. exact K1.
Qed.

(** X15. The document [insert] returns keeps the [_id] it was given when
    that is truthy and gets the generated one otherwise (also for an [_id]
    of 0 or of the empty string); its [_createdAt] and [_updatedAt] are the
    two readings of the clock, whatever the document held there; every
    other field is as given. *)
Theorem insert_assigns_id_and_timestamps (this : string) (document : obj) (env : Env)
        (db db' : CoreDB.t) (r : ref) :
  Collection.insert host this document env db = (Return r, db') ->
  obj_get "_id" (CoreDB.deref db' r)
  = (if truthy (obj_get "_id" document) then obj_get "_id" document
     else VStr (uuidv4 env))
  /\ obj_get "_createdAt" (CoreDB.deref db' r) = VStr (now env 0)
  /\ obj_get "_updatedAt" (CoreDB.deref db' r) = VStr (now env 1)
  /\ (forall k, String.eqb k "_id" = false -> String.eqb k "_createdAt" = false ->
                String.eqb k "_updatedAt" = false ->
                obj_get k (CoreDB.deref db' r) = obj_get k document).
Proof.
  intros E. destruct (insert_leaves this document env db) as (H & _ & R).
  rewrite E in H, R. cbn [fst snd] in H, R. rewrite (R r eq_refl), (deref_new db _ _ H).
  apply stamp_fields.
Qed.

End InsertFacts.

Lemma insert_new_id_appends_example :
  let r := Collection.insert node "users" Sample.carol (Sample.env "unused") Sample.indexed in
  contents "users" (snd r)
  = contents "users" Sample.indexed ++ [Collection.stamp Sample.carol (Sample.env "unused")]
  /\ (forall stored_at, fst r = Return stored_at ->
                        CoreDB.deref (snd r) stored_at
                        = Collection.stamp Sample.carol (Sample.env "unused")).
Proof.
  apply (insert_new_id_appends node "users" Sample.carol (Sample.env "unused") Sample.indexed).
  - vm_compute. repeat constructor.
  - vm_compute; reflexivity.
Defined.

Lemma insert_assigns_id_and_timestamps_example :
  let document := [("_id", VInt 0); ("name", VStr "Zero")] in
  let r := Collection.insert node "users" document (Sample.env "u1") Sample.empty in
  obj_get "_id" (CoreDB.deref (snd r) 0)
  = (if truthy (obj_get "_id" document) then obj_get "_id" document
     else VStr (uuidv4 (Sample.env "u1")))
  /\ obj_get "_createdAt" (CoreDB.deref (snd r) 0) = VStr (now (Sample.env "u1") 0)
  /\ obj_get "_updatedAt" (CoreDB.deref (snd r) 0) = VStr (now (Sample.env "u1") 1)
  /\ (forall k, String.eqb k "_id" = false -> String.eqb k "_createdAt" = false ->
                String.eqb k "_updatedAt" = false ->
                obj_get k (CoreDB.deref (snd r) 0) = obj_get k document).
Proof.
  apply (insert_assigns_id_and_timestamps node "users"
           [("_id", VInt 0); ("name", VStr "Zero")] (Sample.env "u1") Sample.empty).
  vm_compute; reflexivity.
Defined.

(** ** Collection.createIndex *)

Section CreateIndexFacts.
Context (host : Host).

(** An [update] changes the data of an index and nothing else of it. *)
Lemma Index_update_static (i : Index.t) (o : obj) (op : operation) (original : option obj) :
  snd (Index.update host i o op original)
  = Index.with_indexData (Index.indexData (snd (Index.update host i o op original))) i.
Proof.
  unfold Index.update. destruct op.
  - destruct (Index.getIndexKey host i o); [|symmetry; apply with_indexData_same].
    destruct (Index.unique i && _); [symmetry; apply with_indexData_same | reflexivity].
  - cbv zeta. destruct (negb _); [|symmetry; apply with_indexData_same].
    destruct (Index.getIndexKey host i o); [|reflexivity].
    destruct (Index.unique i && _); reflexivity.
  - destruct (Index.getIndexKey host i o); [|symmetry; apply with_indexData_same].
    destruct (Map_has String.eqb _ _); [reflexivity | symmetry; apply with_indexData_same].
Qed.

Lemma buildIndex_static (docs : list obj) :
  forall index,
    snd (Collection.buildIndex host index docs)
    = Index.with_indexData (Index.indexData (snd (Collection.buildIndex host index docs))) index.
Proof.
  induction docs as [|doc docs IH]; intros index; cbn [Collection.buildIndex].
  - symmetry. apply with_indexData_same.
  - pose proof (Index_update_static index doc OpInsert None) as H.
    destruct (Index.update host index doc OpInsert None) as [[[]|e] i1]; cbn [snd] in *.
    + rewrite (IH i1) at 1. rewrite H. reflexivity.
    + exact H.
Qed.

(** Once the loop of [createIndex] is through, the index finds every
    document it went over. *)
Lemma buildIndex_finds (docs : list obj) :
  forall index index',
    Collection.buildIndex host index docs = (Return tt, index') ->
    (forall query x, Set_has x (Index.find host index query) = true ->
                     Set_has x (Index.find host index' query) = true)
    /\ (forall doc, In doc docs -> Index.getIndexKey host index doc <> None ->
                    Set_has (obj_get "_id" doc) (Index.find host index' doc) = true).
Proof.
  induction docs as [|doc docs IH]; intros index index'; cbn [Collection.buildIndex].
  - intros E. injection E as <-. split; [auto | intros doc []].
  - pose proof (Index_update_static index doc OpInsert None) as S.
    destruct (Index.update host index doc OpInsert None) as [[[]|e] i1] eqn:U;
      [|discriminate].
    cbn [snd] in S. intros B. destruct (IH i1 index' B) as [M F].
    destruct (Index_insert_finds host index i1 doc None U) as [F1 M1].
    assert (K : forall d, Index.getIndexKey host i1 d = Index.getIndexKey host index d).
    { intros d. rewrite S. apply getIndexKey_with_indexData. }
    split.
    + intros query x H. apply M, M1. exact H.
    + intros d [<-|Hd] Hk.
      * apply M, F1; [reflexivity | exact Hk].
      * apply F; [exact Hd | rewrite K; exact Hk].
Qed.

(** X16. When [createIndex] returns, the index is registered under the
    name it returns, bound to the collection, with the fields and flags
    asked for; [find] on it returns the [_id] of every document of the
    collection that has a key; its data is what has been written to its
    file; and the documents are as they were. *)
Theorem createIndex_indexes_every_document
        (this : string) (fields : list string) (options : IndexOptions)
        (db db' : CoreDB.t) (name : string) :
  Collection.createIndex host this fields options db = (Return name, db') ->
  exists index,
    Map_get String.eqb name (CoreDB.indexes db') = Some index
    /\ Index.collection index = this
    /\ Index.fields index = fields
    /\ Index.unique index = opt_unique options
    /\ Index.sparse index = opt_sparse options
    /\ Map_get String.eqb name (CoreDB.indexFiles db') = Some (Index.indexData index)
    /\ (forall doc, In doc (contents this db) ->
                    Index.getIndexKey host index doc <> None ->
                    Set_has (obj_get "_id" doc) (Index.find host index doc) = true)
    /\ contents this db' = contents this db.
Proof.
  unfold Collection.createIndex.
  set (indexName := match opt_name options with Some n => _ | None => _ end).
  set (index0 := Index.new indexName this fields (opt_unique options) (opt_sparse options)).
  pose proof (buildIndex_static (map (CoreDB.deref db)
                                     (Map_values (Collection.documents this db))) index0) as S.
  destruct (Collection.buildIndex host index0 _) as [[[]|e] index] eqn:B; [|discriminate].
  cbn [snd] in S. intros E. injection E as <- <-. exists index.
  cbn [CoreDB.indexes CoreDB.indexFiles CoreDB.with_indexes CoreDB.with_indexFiles].
  rewrite !Map_get_set_same.
  repeat split; try (rewrite S; reflexivity).
  intros doc Hd Hk. destruct (buildIndex_finds _ _ _ B) as [_ F].
  apply F; [exact Hd|]. rewrite S in Hk. exact Hk.
Qed.

Lemma add_id_keeps_key (k k' : string) (id : value) (d : list (string * list value)) :
  Map_has String.eqb k d = true -> Map_has String.eqb k (Index.add_id k' id d) = true.
Proof.
  intros H. rewrite Map_has_as_get in H |- *.
  destruct (Map_get String.eqb k' d) as [ids|] eqn:G.
  - rewrite (add_id_present _ _ _ _ G).
    destruct (String.eqb k' k) eqn:E.
    + apply String.eqb_eq in E. subst k'. rewrite Map_get_set_same. reflexivity.
    + rewrite Map_get_set_other by exact E. exact H.
  - rewrite add_id_fresh by (rewrite Map_has_as_get, G; reflexivity).
    destruct (String.eqb k' k) eqn:E.
    + apply String.eqb_eq in E. subst k'. rewrite Map_get_set_same. reflexivity.
    + rewrite Map_get_set_other by exact E. exact H.
Qed.

(** In a unique index that holds the key of one of the documents, the loop
    of [createIndex] throws. *)
Lemma buildIndex_rejects_present (docs : list obj) (k : string) (d : obj) :
  forall index,
    Index.unique index = true ->
    Map_has String.eqb k (Index.indexData index) = true ->
    In d docs ->
    Index.getIndexKey host index d = Some k ->
    fst (Collection.buildIndex host index docs) = Throw (DuplicateKey (Index.name index)).
Proof.
  induction docs as [|doc docs IH]; intros index U H Hd K; [destruct Hd|].
  cbn [Collection.buildIndex].
  pose proof (Index_update_static index doc OpInsert None) as S.
  destruct (Index.update host index doc OpInsert None) as [[[]|e] i1] eqn:E; cbn [snd] in S.
  - destruct Hd as [->|Hd].
    + unfold Index.update in E. rewrite K, U, H in E. discriminate E.
    + assert (H1 : Map_has String.eqb k (Index.indexData i1) = true).
      { unfold Index.update in E. destruct (Index.getIndexKey host index doc) as [k'|].
        - destruct (Index.unique index && _); [discriminate|].
          injection E as <-. apply add_id_keeps_key. exact H.
        - injection E as <-. exact H. }
      rewrite S.
      change (Index.name index) with (Index.name (Index.with_indexData (Index.indexData i1) index)).
      apply IH; [exact U | exact H1 | exact Hd | rewrite getIndexKey_with_indexData; exact K].
  - destruct (insert_throw_unchanged host _ _ _ _ E) as (_ & -> & _). reflexivity.
Qed.

Lemma buildIndex_rejects_duplicates (pre rest : list obj) (k : string) (d1 d2 : obj) :
  forall index,
    Index.unique index = true ->
    Index.getIndexKey host index d1 = Some k ->
    Index.getIndexKey host index d2 = Some k ->
    In d2 rest ->
    fst (Collection.buildIndex host index (pre ++ d1 :: rest))
    = Throw (DuplicateKey (Index.name index)).
Proof.
  induction pre as [|p pre IH]; intros index U K1 K2 Hd; cbn [app Collection.buildIndex].
  - pose proof (Index_update_static index d1 OpInsert None) as S.
    destruct (Index.update host index d1 OpInsert None) as [[[]|e] i1] eqn:E; cbn [snd] in S.
    + assert (H1 : Map_has String.eqb k (Index.indexData i1) = true).
      { unfold Index.update in E. rewrite K1 in E.
        destruct (Index.unique index && _); [discriminate|].
        injection E as <-. cbn [Index.indexData Index.with_indexData].
        destruct (Map_get String.eqb k (Index.indexData index)) as [ids|] eqn:G.
        - rewrite (add_id_present _ _ _ _ G). apply Map_has_set_same.
        - rewrite add_id_fresh by (rewrite Map_has_as_get, G; reflexivity).
          apply Map_has_set_same. }
      rewrite S.
      change (Index.name index) with (Index.name (Index.with_indexData (Index.indexData i1) index)).
      apply (buildIndex_rejects_present rest k d2);
        [exact U | exact H1 | exact Hd | rewrite getIndexKey_with_indexData; exact K2].
    + destruct (insert_throw_unchanged host _ _ _ _ E) as (_ & -> & _). reflexivity.
  - pose proof (Index_update_static index p OpInsert None) as S.
    destruct (Index.update host index p OpInsert None) as [[[]|e] i1] eqn:E; cbn [snd] in S.
    + rewrite S.
      change (Index.name index) with (Index.name (Index.with_indexData (Index.indexData i1) index)).
      apply IH; [exact U | | | exact Hd]; rewrite getIndexKey_with_indexData; assumption.
    + destruct (insert_throw_unchanged host _ _ _ _ E) as (_ & -> & _). reflexivity.
Qed.

(** X17. [createIndex] with the option [unique] on a collection in which
    two documents have the same key throws the duplicate-key error of the
    new index and leaves the database as it was: the index is neither
    registered nor saved. *)
Theorem createIndex_rejects_duplicates
        (this : string) (fields : list string) (options : IndexOptions) (db : CoreDB.t)
        (pre rest : list obj) (d1 d2 : obj) (k : string) :
  opt_unique options = true ->
  contents this db = pre ++ d1 :: rest ->
  In d2 rest ->
  Index.getIndexKey host (Index.new EmptyString this fields true (opt_sparse options)) d1
  = Some k ->
  Index.getIndexKey host (Index.new EmptyString this fields true (opt_sparse options)) d2
  = Some k ->
  exists name,
    Collection.createIndex host this fields options db = (Throw (DuplicateKey name), db).
Proof.
  intros U C Hd K1 K2. unfold Collection.createIndex.
  set (indexName := match opt_name options with Some n => _ | None => _ end).
  set (index0 := Index.new indexName this fields (opt_unique options) (opt_sparse options)).
  exists indexName.
  pose proof (buildIndex_rejects_duplicates pre rest k d1 d2 index0) as R.
  unfold contents in C. rewrite C.
  destruct (Collection.buildIndex host index0 (pre ++ d1 :: rest)) as [r i1].
  cbn [fst] in R. rewrite R; [reflexivity | exact U | exact K1 | exact K2 | exact Hd].
Qed.

End CreateIndexFacts.

Lemma createIndex_indexes_every_document_example :
  exists index,
    Map_get String.eqb "users_email" (CoreDB.indexes Sample.indexed) = Some index
    /\ Index.collection index = "users"
    /\ Index.fields index = ["email"]
    /\ Index.unique index = opt_unique (Sample.options true)
    /\ Index.sparse index = opt_sparse (Sample.options true)
    /\ Map_get String.eqb "users_email" (CoreDB.indexFiles Sample.indexed)
       = Some (Index.indexData index)
    /\ (forall doc,
           In doc (contents "users"
                     (snd (Collection.createIndex node "users" ["name"] (Sample.options false)
                             (Sample.insert Sample.john "unused" Sample.empty)))) ->
           Index.getIndexKey node index doc <> None ->
           Set_has (obj_get "_id" doc) (Index.find node index doc) = true)
    /\ contents "users" Sample.indexed
       = contents "users"
           (snd (Collection.createIndex node "users" ["name"] (Sample.options false)
                   (Sample.insert Sample.john "unused" Sample.empty))).
Proof.
  apply (createIndex_indexes_every_document node "users" ["email"] (Sample.options true)
           (snd (Collection.createIndex node "users" ["name"] (Sample.options false)
                   (Sample.insert Sample.john "unused" Sample.empty)))
           Sample.indexed "users_email").
  vm_compute; reflexivity.
Defined.

(** Two users with the same name, then a unique index on the name. *)
Lemma createIndex_rejects_duplicates_example :
  exists name,
    Collection.createIndex node "users" ["name"] (Sample.options true)
      (Sample.insert [("_id", VStr "b"); ("name", VStr "John")] "unused"
         (Sample.insert Sample.john "unused" Sample.empty))
    = (Throw (DuplicateKey name),
       Sample.insert [("_id", VStr "b"); ("name", VStr "John")] "unused"
         (Sample.insert Sample.john "unused" Sample.empty)).
Proof.
  apply (createIndex_rejects_duplicates node "users" ["name"] (Sample.options true)
           (Sample.insert [("_id", VStr "b"); ("name", VStr "John")] "unused"
              (Sample.insert Sample.john "unused" Sample.empty))
           []
           [Collection.stamp [("_id", VStr "b"); ("name", VStr "John")] (Sample.env "unused")]
           (Collection.stamp Sample.john (Sample.env "unused"))
           (Collection.stamp [("_id", VStr "b"); ("name", VStr "John")] (Sample.env "unused"))
           (Node.quote "John"));
    [vm_compute; reflexivity | vm_compute; reflexivity | left; vm_compute; reflexivity
    | vm_compute; reflexivity | vm_compute; reflexivity].
Defined.

(** ** CoreDB.connect and the indexes *)

Lemma loadDocuments_indexes (docs : list value) :
  forall (m : list (value * ref)) (db : CoreDB.t),
    CoreDB.indexes (snd (CoreDB.loadDocuments docs m db)) = CoreDB.indexes db
    /\ CoreDB.indexFiles (snd (CoreDB.loadDocuments docs m db)) = CoreDB.indexFiles db.
Proof.
  induction docs as [|doc docs IH]; intros m db; cbn [CoreDB.loadDocuments]; [auto|].
  destruct (truthy doc && truthy (prop_get doc "_id")); [|apply IH].
  destruct doc; try apply IH.
  unfold CoreDB.alloc. cbv beta iota.
  match goal with
  | |- context [CoreDB.loadDocuments docs ?m' ?d'] => destruct (IH m' d') as [-> ->]
  end.
  auto.
Qed.

Lemma loadCollection_indexes (name : string) (db : CoreDB.t) :
  CoreDB.indexes (CoreDB.loadCollection name db) = CoreDB.indexes db
  /\ CoreDB.indexFiles (CoreDB.loadCollection name db) = CoreDB.indexFiles db.
Proof.
  unfold CoreDB.loadCollection.
  destruct (Map_get String.eqb name (CoreDB.collectionFiles db)) as [[ | | | | | |docs| ]|];
    try (split; reflexivity).
  pose proof (loadDocuments_indexes docs [] db) as H.
  destruct (CoreDB.loadDocuments docs [] db) as [m db1]. exact H.
Qed.

Lemma loadCollections_indexes (names : list string) :
  forall db : CoreDB.t,
    CoreDB.indexes (fold_left (fun d name => CoreDB.loadCollection name d) names db)
    = CoreDB.indexes db
    /\ CoreDB.indexFiles (fold_left (fun d name => CoreDB.loadCollection name d) names db)
       = CoreDB.indexFiles db.
Proof.
  induction names as [|name names IH]; intros db; cbn [fold_left]; [auto|].
  destruct (IH (CoreDB.loadCollection name db)) as [-> ->]. apply loadCollection_indexes.
Qed.

(** X18. [connect] loads the snapshots of the collections and no index:
    a database opened on the files another one left has no index, although
    the index files are still there, so until [createIndex] is called again
    no index is searched or kept up to date and no insert is rejected. *)
Theorem reopen_has_no_index (host : Host) (db : CoreDB.t) :
  CoreDB.indexes (CoreDB.reopen db) = []
  /\ CoreDB.indexFiles (CoreDB.reopen db) = CoreDB.indexFiles db
  /\ forall this document env,
      exists db',
        Collection.insert host this document env (CoreDB.reopen db)
        = (Return (length (CoreDB.heap (CoreDB.reopen db))), db').
Proof.
  assert (H : CoreDB.indexes (CoreDB.reopen db) = []
              /\ CoreDB.indexFiles (CoreDB.reopen db) = CoreDB.indexFiles db).
  { unfold CoreDB.reopen, CoreDB.connect, CoreDB.loadCollections.
    cbn [CoreDB.indexes CoreDB.indexFiles CoreDB.emit CoreDB.with_isConnected].
    apply (loadCollections_indexes _ (CoreDB.new (CoreDB.collectionFiles db)
                                                  (CoreDB.indexFiles db))). }
  destruct H as [Hi Hf]. split; [exact Hi|]. split; [exact Hf|].
  intros this document env. rewrite insert_unfold, Hi. cbn. eauto.
Qed.

(** ** Collection.applyUpdateOperations: the operators, field by field *)







Section UpdateOperatorFacts.
Context (host : Host).



End UpdateOperatorFacts.



(** ** Database.aggregate *)

Lemma documents_collection (this name : string) (db : CoreDB.t) :
  Collection.documents this (Database.collection name db) = Collection.documents this db.
Proof.
  unfold Database.collection, Collection.documents.
  destruct (Map_get String.eqb name (CoreDB.collections db)) as [[d|d]|] eqn:E;
    [|reflexivity|]; cbn [CoreDB.collections CoreDB.with_collections];
    (destruct (String.eqb name this) eqn:N;
     [apply String.eqb_eq in N; subst this; rewrite Map_get_set_same, E; reflexivity
     |rewrite Map_get_set_other by exact N; reflexivity]).
Qed.

Lemma heap_collection (name : string) (db : CoreDB.t) :
  CoreDB.heap (Database.collection name db) = CoreDB.heap db.
Proof.
  unfold Database.collection.
  destruct (Map_get String.eqb name (CoreDB.collections db)) as [[d|d]|]; reflexivity.
Qed.

Lemma Array_filter_map {A B : Type} (g : A -> B) (f : B -> outcome bool) (xs : list A) :
  Array_filter f (map g xs)
  = obind (Array_filter (fun x => f (g x)) xs) (fun ys => Return (map g ys)).
Proof.
  induction xs as [|x xs IH]; [reflexivity|]. cbn [map Array_filter]. rewrite IH.
  destruct (f (g x)) as [b|e]; [|reflexivity].
  destruct (Array_filter (fun x => f (g x)) xs) as [ys|e]; [|reflexivity].
  destruct b; reflexivity.
Qed.

Lemma Array_filter_all {A : Type} (f : A -> outcome bool) (xs : list A) :
  Forall (fun x => f x = Return true) xs -> Array_filter f xs = Return xs.
Proof.
  induction xs as [|x xs IH]; intros H; [reflexivity|].
  apply Forall_cons in H as [Hx H]. simpl. rewrite Hx, (IH H). reflexivity.
Qed.

Section AggregateFacts.
Context (host : Host).

Lemma stages_app (p q : list value) (results : list obj) :
  Database.stages host (p ++ q) results
  = obind (Database.stages host p results) (Database.stages host q).
Proof.
  revert results. induction p as [|stage p IH]; intros results; [reflexivity|].
  cbn [app Database.stages].
  destruct (Database.stage_step host results stage) as [r|e]; [|reflexivity].
  cbn [obind]. apply IH.
Qed.

Lemma aggregate_then (name : string) (pipeline : list value) (stage : value) (db : CoreDB.t) :
  fst (Database.aggregate host name (pipeline ++ [stage]) db)
  = obind (fst (Database.aggregate host name pipeline db))
          (fun results => Database.stage_step host results stage).
Proof.
  unfold Database.aggregate. cbn [fst]. rewrite stages_app.
  destruct (Database.stages host pipeline _) as [r|e]; [|reflexivity].
  cbn [obind Database.stages]. destruct (Database.stage_step host r stage); reflexivity.
Qed.

(** X21. A [$limit] stage with the natural number [n] keeps the first
    [n] results, none when [n] is 0 (where the option [limit] of [find]
    keeps them all); with a negative number it drops that many results from
    the end; a [$skip] stage with [n] drops the first [n] results. *)
Theorem limit_and_skip_stages (name : string) (pipeline : list value) (n : nat)
        (db : CoreDB.t) :
  fst (Database.aggregate host name
         (pipeline ++ [VObj [("$limit", VInt (Z.of_nat n))]]) db)
  = obind (fst (Database.aggregate host name pipeline db))
          (fun results => Return (firstn n results))
  /\ fst (Database.aggregate host name
            (pipeline ++ [VObj [("$limit", VInt (- Z.of_nat (S n)))]]) db)
     = obind (fst (Database.aggregate host name pipeline db))
             (fun results => Return (firstn (length results - S n) results))
  /\ fst (Database.aggregate host name
            (pipeline ++ [VObj [("$skip", VInt (Z.of_nat n))]]) db)
     = obind (fst (Database.aggregate host name pipeline db))
             (fun results => Return (skipn n results)).
Proof.
  rewrite !aggregate_then.
  destruct (fst (Database.aggregate host name pipeline db)) as [results|e];
    [|repeat split; reflexivity].
  cbn [obind Database.stage_step Object_entries own_entries String.eqb Ascii.eqb Bool.eqb].
  unfold Array_slice. cbn [is_undefined VInt].
  change (VNum (Fin (inject_Z ?z))) with (VInt z).
  rewrite !to_integer_VInt. change 0%Z with (Z.of_nat 0). rewrite !clamp_index_nat.
  repeat split; f_equal.
  - rewrite Nat.min_0_l, Nat.sub_0_r, skipn_O.
    destruct (Nat.le_gt_cases n (length results)) as [H|H].
    + rewrite Nat.min_l by exact H. reflexivity.
    + rewrite Nat.min_r by lia. rewrite firstn_all. symmetry. apply firstn_all2. lia.
  - rewrite Nat.min_0_l, Nat.sub_0_r, skipn_O. f_equal.
    unfold clamp_index. destruct (Z.ltb_spec (- Z.of_nat (S n)) 0); lia.
  - destruct (Nat.le_gt_cases n (length results)) as [H|H].
    + rewrite Nat.min_l by exact H. apply firstn_all2. rewrite length_skipn. lia.
    + rewrite Nat.min_r by lia. rewrite Nat.sub_diag.
      rewrite (skipn_all2 (n:=n)) by lia. reflexivity.
Qed.

(** X22. A pipeline made of one [$match] stage returns the documents
    [find] returns for its query, and throws when [find] does, for every
    query that is neither null nor undefined. *)
Theorem match_stage_is_find (name : string) (query : value) (db : CoreDB.t)
        (keys : list (string * value)) :
  Object_entries query = Return keys ->
  fst (Database.aggregate host name [VObj [("$match", query)]] db)
  = obind (Collection.find host name query VUndef db)
          (fun found => Return (map (CoreDB.deref db) found)).
Proof.
  intros K.
  assert (U : or_empty query = query) by (destruct query; try reflexivity; discriminate K).
  unfold Database.aggregate, Collection.find. cbn [fst Database.stages].
  cbn [Database.stage_step Object_entries own_entries obind String.eqb Ascii.eqb Bool.eqb].
  rewrite documents_collection, U, K. cbn [obind or_empty is_undefined get_property prop_get
    obj_get truthy orb].
  unfold Collection.applyQuery, Query.applyQuery.
  replace (map (CoreDB.deref (Database.collection name db)))
    with (map (CoreDB.deref db))
    by (unfold CoreDB.deref; rewrite heap_collection; reflexivity).
  rewrite Array_filter_map. cbn [id].
  destruct keys as [|key keys]; cbn [length Nat.ltb Nat.leb].
  - rewrite Array_filter_all; [reflexivity|].
    apply Forall_forall. intros r _. apply matchesQuery_no_keys. exact K.
  - destruct (Array_filter _ _) as [found|e]; reflexivity.
Qed.

End AggregateFacts.

Lemma match_stage_is_find_example :
  fst (Database.aggregate node "products"
         [VObj [("$match", VObj [("price", VObj [("$gt", VInt 200)])])]] Sample.products)
  = obind (Collection.find node "products" (VObj [("price", VObj [("$gt", VInt 200)])])
                           VUndef Sample.products)
          (fun found => Return (map (CoreDB.deref Sample.products) found)).
Proof.
  apply (match_stage_is_find node "products" _ Sample.products
           [("price", VObj [("$gt", VInt 200)])]).
  reflexivity.
Defined.

(** ** Database.applyGroupStage *)


Section GroupFacts.
Context (host : Host).








End GroupFacts.



(** ** Database.applyProjectStage *)


Section ProjectFacts.
Context (host : Host).




End ProjectFacts.


(** ** getNestedValue *)

Lemma split_dot_no_dot (key : string) : no_dot key = true -> split_dot key = [key].
Proof.
  induction key as [|c key IH]; [reflexivity|]. cbn [no_dot split_dot].
  intros H. apply andb_true_iff in H as [Hc H]. apply negb_true_iff in Hc.
  rewrite Hc, (IH H). reflexivity.
Qed.

Lemma split_dot_path (key rest : string) :
  no_dot key = true ->
  split_dot (key ++ String "."%char rest)%string = key :: split_dot rest.
Proof.
  induction key as [|c key IH]; [reflexivity|]. cbn [no_dot split_dot String.append].
  intros H. apply andb_true_iff in H as [Hc H]. apply negb_true_iff in Hc.
  rewrite Hc, (IH H). reflexivity.
Qed.

Lemma split_dot_not_empty (path : string) : split_dot path <> [].
Proof.
  destruct path as [|c path]; [discriminate|]. cbn [split_dot].
  destruct (Ascii.eqb c "."%char); [discriminate|].
  destruct (split_dot path); discriminate.
Qed.

(** X26. [getNestedValue] follows a dotted path: a path without a dot
    reads the field; [key.rest] continues with [rest] in the object the
    field [key] holds, and yields undefined as soon as a field on the way
    is missing or holds a falsy value.  The indexes and the aggregation
    stages read the fields of the documents this way. *)
Theorem nested_path_descends (o inner : obj) (key rest : string) :
  no_dot key = true ->
  Index.getNestedValue o key = obj_get key o
  /\ Database.getNestedValue o (VStr key) = obj_get key o
  /\ (obj_get key o = VObj inner ->
      Index.getNestedValue o (key ++ String "."%char rest)%string = Index.getNestedValue inner rest)
  /\ (truthy (obj_get key o) = false ->
      Index.getNestedValue o (key ++ String "."%char rest)%string = VUndef).
Proof.
  intros N.
  assert (One : Index.getNestedValue o key = obj_get key o).
  { unfold Index.getNestedValue. rewrite (split_dot_no_dot key N). cbn.
    destruct (obj_get key o); reflexivity. }
  split; [exact One|]. split; [exact One|].
  unfold Index.getNestedValue. rewrite (split_dot_path key rest N). cbn [fold_left truthy andb prop_get].
  split.
  - intros ->. reflexivity.
  - intros F.
    assert (U : forall parts v, truthy v = false -> parts <> [] ->
                  fold_left (fun current k =>
                               if truthy current && negb (is_undefined (prop_get current k))
                               then prop_get current k else VUndef) parts v = VUndef).
    { intros parts v Fv Hp. destruct parts as [|p parts]; [now destruct Hp|].
      cbn [fold_left]. rewrite Fv. cbn [andb]. clear.
      induction parts as [|q parts IH]; [reflexivity | exact IH]. }
    apply U; [|apply split_dot_not_empty].
    destruct (negb (is_undefined (obj_get key o))); [exact F | reflexivity].
Qed.

Lemma nested_path_descends_example :
  Index.getNestedValue [("address", VObj [("city", VStr "Paris")])] "address"
  = obj_get "address" [("address", VObj [("city", VStr "Paris")])]
  /\ Database.getNestedValue [("address", VObj [("city", VStr "Paris")])] (VStr "address")
     = obj_get "address" [("address", VObj [("city", VStr "Paris")])]
  /\ (obj_get "address" [("address", VObj [("city", VStr "Paris")])]
      = VObj [("city", VStr "Paris")] ->
      Index.getNestedValue [("address", VObj [("city", VStr "Paris")])]
                           ("address" ++ String "."%char "city")%string
      = Index.getNestedValue [("city", VStr "Paris")] "city")
  /\ (truthy (obj_get "address" [("address", VObj [("city", VStr "Paris")])]) = false ->
      Index.getNestedValue [("address", VObj [("city", VStr "Paris")])]
                           ("address" ++ String "."%char "city")%string
      = VUndef).
Proof.
  apply (nested_path_descends [("address", VObj [("city", VStr "Paris")])]
           [("city", VStr "Paris")] "address" "city").
  vm_compute; reflexivity.
Defined.

(** ** Database.dropCollection *)

Section DeleteByName.
Context {V : Type}.

Lemma Map_delete_filter (n : string) (m : list (string * V)) :
  distinct_names (Map_keys m) ->
  Map_delete String.eqb n m = List.filter (fun kv => negb (String.eqb (fst kv) n)) m.
Proof.
  induction m as [|[k v] m IH]; [reflexivity|]. intros [Hk Hd].
  cbn [Map_delete List.filter fst]. destruct (String.eqb k n) eqn:E; cbn [negb].
  - apply String.eqb_eq in E. subst n. symmetry. apply filter_all.
    unfold Map_keys in Hk. rewrite Forall_map in Hk.
    eapply Forall_impl; [exact Hk|]. intros kv H. simpl in H.
    rewrite String.eqb_sym, H. reflexivity.
  - rewrite (IH Hd). reflexivity.
Qed.

Lemma distinct_names_filter (p : string * V -> bool) (m : list (string * V)) :
  distinct_names (Map_keys m) -> distinct_names (Map_keys (List.filter p m)).
Proof.
  unfold Map_keys. induction m as [|kv m IH]; [auto|]. simpl.
  intros [Hk Hm]. destruct (p kv); simpl; [split|]; try exact (IH Hm).
  rewrite Forall_map in Hk |- *. apply Forall_filter_keeps. exact Hk.
Qed.

Lemma Map_delete_all (names : list string) :
  forall m : list (string * V),
    distinct_names (Map_keys m) ->
    fold_left (fun m n => Map_delete String.eqb n m) names m
    = List.filter (fun kv => negb (existsb (String.eqb (fst kv)) names)) m.
Proof.
  induction names as [|n names IH]; intros m D; cbn [fold_left existsb].
  - symmetry. apply filter_all, Forall_forall. reflexivity.
  - rewrite (Map_delete_filter n m D), IH by (apply distinct_names_filter; exact D).
    rewrite filter_twice. apply filter_same_on, Forall_forall. intros kv _.
    rewrite negb_orb. reflexivity.
Qed.

Lemma distinct_names_one_entry (m : list (string * V)) (k : string) (v v' : V) :
  distinct_names (Map_keys m) -> In (k, v) m -> In (k, v') m -> v = v'.
Proof.
  induction m as [|[j w] m IH]; [intros _ []|]. intros [Hj Hd] H H'.
  unfold Map_keys in Hj. rewrite Forall_map, List.Forall_forall in Hj.
  destruct H as [H|H], H' as [H'|H'].
  - congruence.
  - injection H as -> ->. specialize (Hj _ H'). simpl in Hj.
    rewrite String.eqb_refl in Hj. discriminate Hj.
  - injection H' as -> ->. specialize (Hj _ H). simpl in Hj.
    rewrite String.eqb_refl in Hj. discriminate Hj.
  - exact (IH Hd H H').
Qed.

(** Deleting the keys of the entries that satisfy [p] leaves the entries
    that do not. *)
Lemma Map_delete_selected (p : string * V -> bool) (m : list (string * V)) :
  distinct_names (Map_keys m) ->
  fold_left (fun m n => Map_delete String.eqb n m) (map fst (List.filter p m)) m
  = List.filter (fun kv => negb (p kv)) m.
Proof.
  intros D. rewrite (Map_delete_all _ m D). apply filter_same_on, List.Forall_forall.
  intros [k v] Hin. f_equal. destruct (p (k, v)) eqn:P.
  - apply existsb_exists. exists k. split; [|apply String.eqb_refl].
    apply in_map_iff. exists (k, v). split; [reflexivity|].
    apply filter_In. split; assumption.
  - destruct (existsb _ _) eqn:X; [|reflexivity].
    apply existsb_exists in X as (k' & Hk' & E). cbn [fst] in E.
    apply String.eqb_eq in E. subst k'.
    apply in_map_iff in Hk' as ([k' v'] & Ek & Hf). cbn [fst] in Ek. subst k'.
    apply filter_In in Hf as [Hin' P'].
    rewrite (distinct_names_one_entry m k v v' D Hin Hin'), P' in P. discriminate P.
Qed.
End DeleteByName.

Lemma dropCollection_indexes (names : list string) :
  forall db : CoreDB.t,
    let db' :=
      fold_left (fun d indexName =>
                   CoreDB.with_indexFiles
                     (Map_delete String.eqb indexName (CoreDB.indexFiles d))
                     (CoreDB.with_indexes
                        (Map_delete String.eqb indexName (CoreDB.indexes d)) d))
                names db in
    CoreDB.indexes db'
    = fold_left (fun m n => Map_delete String.eqb n m) names (CoreDB.indexes db)
    /\ CoreDB.events db' = CoreDB.events db
    /\ CoreDB.collections db' = CoreDB.collections db.
Proof.
  induction names as [|n names IH]; intros db; cbn [fold_left]; [cbv zeta; auto|].
  destruct (IH (CoreDB.with_indexFiles
                  (Map_delete String.eqb n (CoreDB.indexFiles db))
                  (CoreDB.with_indexes (Map_delete String.eqb n (CoreDB.indexes db)) db)))
    as (I & E & C).
  cbv zeta in *. rewrite I, E, C. auto.
Qed.

(** X27. Dropping a collection the database holds takes the collection
    out of the list of collections, drops every index bound to it and no
    other index, and emits [collectionDropped]. *)
Theorem dropCollection_drops_its_indexes (name : string) (db : CoreDB.t) :
  distinct_names (Map_keys (CoreDB.collections db)) ->
  distinct_names (Map_keys (CoreDB.indexes db)) ->
  Map_has String.eqb name (CoreDB.collections db) = true ->
  Map_has String.eqb name (CoreDB.collections (Database.dropCollection name db)) = false
  /\ Database.getIndexes name (Database.dropCollection name db) = []
  /\ (forall other, String.eqb other name = false ->
                    Database.getIndexes other (Database.dropCollection name db)
                    = Database.getIndexes other db)
  /\ CoreDB.events (Database.dropCollection name db)
     = CoreDB.events db ++ [CoreDB.collectionDropped name].
Proof.
  intros Dc Di H. unfold Database.dropCollection. rewrite H. cbv zeta.
  cbn [CoreDB.indexes CoreDB.indexFiles CoreDB.with_collections CoreDB.with_collectionFiles].
  set (db1 := CoreDB.with_collectionFiles _ _).
  set (dropped := map fst _).
  destruct (dropCollection_indexes dropped db1) as (I & E & C). cbv zeta in I, E, C.
  unfold Database.getIndexes.
  change (CoreDB.indexes (CoreDB.emit ?e ?d)) with (CoreDB.indexes d).
  change (CoreDB.collections (CoreDB.emit ?e ?d)) with (CoreDB.collections d).
  change (CoreDB.events (CoreDB.emit ?e ?d)) with (CoreDB.events d ++ [e]).
  rewrite I, E, C. unfold dropped, db1. cbn [CoreDB.indexes CoreDB.events].
  rewrite (Map_delete_selected _ _ Di). unfold Map_values.
  split; [apply Map_has_delete_same; exact Dc|]. split; [|split; [|reflexivity]].
  - generalize (CoreDB.indexes db). intros ixs.
    induction ixs as [|[n i] ixs IH]; [reflexivity|].
    cbn [List.filter map snd].
    destruct (String.eqb (Index.collection i) name) eqn:X; cbn [negb map List.filter snd];
      [|rewrite X]; exact IH.
  - intros other O.
    generalize (CoreDB.indexes db). intros ixs.
    induction ixs as [|[n i] ixs IH]; [reflexivity|].
    cbn [List.filter map snd].
    destruct (String.eqb (Index.collection i) name) eqn:X; cbn [negb map List.filter snd].
    + apply String.eqb_eq in X. rewrite X, String.eqb_sym, O. exact IH.
    + rewrite IH. reflexivity.
Qed.

(** The users and their two indexes are dropped. *)
Lemma dropCollection_drops_its_indexes_example :
  Map_has String.eqb "users"
          (CoreDB.collections (Database.dropCollection "users" Sample.indexed)) = false
  /\ Database.getIndexes "users" (Database.dropCollection "users" Sample.indexed) = []
  /\ (forall other, String.eqb other "users" = false ->
                    Database.getIndexes other (Database.dropCollection "users" Sample.indexed)
                    = Database.getIndexes other Sample.indexed)
  /\ CoreDB.events (Database.dropCollection "users" Sample.indexed)
     = CoreDB.events Sample.indexed ++ [CoreDB.collectionDropped "users"].
Proof.
  apply (dropCollection_drops_its_indexes "users" Sample.indexed); by_computation.
Defined.

(** ** CoreDB: the write queue runs dry *)

Section WriteQueueProgress.
Context {Op : Type}.
Import WriteQueue.

(** The activation whose operation has settled takes the queued
    operations one after the other, each settling in its turn. *)
Lemma drains_queue (q : list Op) :
  forall (st enq : list Op),
    enq = st ++ q ->
    drains {| writeQueue := q; isWriting := true; awaiting := []; ready := 1;
              started := st; enqueued := enq |}
           {| writeQueue := []; isWriting := false; awaiting := []; ready := 0;
              started := enq; enqueued := enq |}.
Proof.
  induction q as [|operation q IH]; intros st enq E.
  - rewrite app_nil_r in E. subst st.
    eapply drains_resume; [reflexivity|]. apply drains_done.
  - eapply drains_resume; [reflexivity|]. cbn.
    eapply (drains_settle 0); [reflexivity|]. cbn.
    apply IH. rewrite E, <- app_assoc. reflexivity.
Qed.

(** X28. From every reachable state the write queue runs dry once the
    operations in execution settle: without any further call, the loop
    goes on by itself until the queue is empty, [isWriting] is reset and
    every operation enqueued has been started, in the order of the
    queue. *)
Theorem write_queue_drains (s : state Op) :
  reachable s ->
  drains s {| writeQueue := []; isWriting := false; awaiting := []; ready := 0;
              started := enqueued s; enqueued := enqueued s |}.
Proof.
  intros R. destruct (invariant_reachable s R) as (Hle & Hfifo & Hbusy & Hidle).
  destruct s as [q w a r st enq]. cbn in *.
  destruct w.
  - specialize (Hbusy eq_refl).
    destruct a as [|o [|o' a]]; cbn in Hbusy.
    + assert (r = 1) as -> by lia. apply drains_queue. exact Hfifo.
    + assert (r = 0) as -> by lia.
      eapply (drains_settle 0); [reflexivity|]. cbn. apply drains_queue. exact Hfifo.
    + lia.
  - destruct (Hidle eq_refl) as [Hz ->]. rewrite app_nil_r in Hfifo. subst st.
    destruct a; [|cbn in Hz; lia]. cbn in Hz. subst r. apply drains_done.
Qed.

(** X29. In every reachable state a call of [processWriteQueue] from
    outside the loop does nothing: either the loop is running, and the call
    returns at once without waiting for it, or nothing is queued.  So
    [disconnect], which awaits such a call, does not wait for the writes in
    progress; and when the loop is not running, every operation enqueued has
    been started and has settled. *)
Theorem processWriteQueue_outside_loop (s : state Op) :
  reachable s ->
  processWriteQueue s = s
  /\ (isWriting s = false ->
      writeQueue s = [] /\ awaiting s = [] /\ ready s = 0 /\ started s = enqueued s).
Proof.
  intros R. destruct (invariant_reachable s R) as (Hle & Hfifo & Hbusy & Hidle).
  split.
  - unfold processWriteQueue. destruct (isWriting s) eqn:W; [reflexivity|].
    destruct (Hidle eq_refl) as [_ ->]. reflexivity.
  - intros W. destruct (Hidle W) as [Hz Hq]. rewrite Hq, app_nil_r in Hfifo.
    repeat split; [exact Hq | | lia | symmetry; exact Hfifo].
    destruct (awaiting s); [reflexivity | cbn in Hz; lia].
Qed.

End WriteQueueProgress.

(** Two operations enqueued in a row: the first is in execution, the second
    waits; both end up started, in that order. *)
Lemma write_queue_drains_example :
  drains (WriteQueue.queueWrite 2 (WriteQueue.queueWrite 1 WriteQueue.init))
         {| WriteQueue.writeQueue := []; WriteQueue.isWriting := false;
            WriteQueue.awaiting := []; WriteQueue.ready := 0;
            WriteQueue.started := [1; 2]; WriteQueue.enqueued := [1; 2] |}.
Proof.
  apply (write_queue_drains
           (WriteQueue.queueWrite 2 (WriteQueue.queueWrite 1 WriteQueue.init))).
  apply (WriteQueue.reachable_step (WriteQueue.queueWrite 1 WriteQueue.init));
    [|apply WriteQueue.step_queueWrite].
  apply (WriteQueue.reachable_step WriteQueue.init);
    [apply WriteQueue.reachable_init | apply WriteQueue.step_queueWrite].
Defined.

Lemma processWriteQueue_outside_loop_example :
  WriteQueue.processWriteQueue (WriteQueue.queueWrite 1 WriteQueue.init)
  = WriteQueue.queueWrite 1 WriteQueue.init
  /\ (WriteQueue.isWriting (WriteQueue.queueWrite 1 WriteQueue.init) = false ->
      WriteQueue.writeQueue (WriteQueue.queueWrite 1 WriteQueue.init) = []
      /\ WriteQueue.awaiting (WriteQueue.queueWrite 1 WriteQueue.init) = []
      /\ WriteQueue.ready (WriteQueue.queueWrite 1 WriteQueue.init) = 0
      /\ WriteQueue.started (WriteQueue.queueWrite 1 WriteQueue.init)
         = WriteQueue.enqueued (WriteQueue.queueWrite 1 WriteQueue.init)).
Proof.
  apply (processWriteQueue_outside_loop (WriteQueue.queueWrite 1 WriteQueue.init)).
  apply (WriteQueue.reachable_step WriteQueue.init);
    [apply WriteQueue.reachable_init | apply WriteQueue.step_queueWrite].
Defined.

(** ** Collection.applySorting: the comparator *)

Section SortFacts.
Context (host : Host).

(** X30. The comparator of [applySorting] goes through the keys of the
    sort specification in their order: the first key on which the two
    documents differ decides, and the later keys are only read when the
    earlier ones tie.  Every direction other than 1 and ['asc'] sorts in
    descending order. *)
Theorem sort_keys_compare_in_order (field : string) (direction : value)
        (rest : list (string * value)) (a b : obj) :
  Collection.compareBy host ((field, direction) :: rest) a b
  = (if (Collection.compareBy host [(field, direction)] a b =? 0)%Z
     then Collection.compareBy host rest a b
     else Collection.compareBy host [(field, direction)] a b)
  /\ (strict_eq direction (VInt 1) || strict_eq direction (VStr "asc") = false ->
      Collection.compareBy host [(field, direction)] a b
      = (- Collection.compareBy host [(field, VInt 1)] a b)%Z).
Proof.
  cbn [Collection.compareBy]. split.
  - destruct (js_lt host (obj_get field a) (obj_get field b));
      [destruct (strict_eq direction (VInt 1) || strict_eq direction (VStr "asc")); reflexivity|].
    destruct (js_gt host (obj_get field a) (obj_get field b)); [|reflexivity].
    destruct (strict_eq direction (VInt 1) || strict_eq direction (VStr "asc")); reflexivity.
  - intros ->. change (strict_eq (VInt 1) (VInt 1)) with true. cbn [orb].
    destruct (js_lt host (obj_get field a) (obj_get field b)); [reflexivity|].
    destruct (js_gt host (obj_get field a) (obj_get field b)); reflexivity.
Qed.

End SortFacts.

Lemma sort_keys_compare_in_order_example :
  let a := Sample.product "Desk" 300 in
  let b := Sample.product "Lamp" 300 in
  Collection.compareBy node [("price", VStr "desc"); ("name", VInt 1)] a b
  = (if (Collection.compareBy node [("price", VStr "desc")] a b =? 0)%Z
     then Collection.compareBy node [("name", VInt 1)] a b
     else Collection.compareBy node [("price", VStr "desc")] a b)
  /\ (strict_eq (VStr "desc") (VInt 1) || strict_eq (VStr "desc") (VStr "asc") = false ->
      Collection.compareBy node [("price", VStr "desc")] a b
      = (- Collection.compareBy node [("price", VInt 1)] a b)%Z).
Proof.
  apply (sort_keys_compare_in_order node "price" (VStr "desc") [("name", VInt 1)]
           (Sample.product "Desk" 300) (Sample.product "Lamp" 300)).
Defined.

(** ** Collection.update: the copy handed to the indexes *)

(** An update without [$push] leaves the copy as the document was. *)
Lemma originalDoc_without_push (doc : obj) (update : value) :
  Forall (fun entry => String.eqb (fst entry) "$push" = false) (own_entries update) ->
  Collection.originalDoc doc update = doc.
Proof.
  unfold Collection.originalDoc. generalize (@nil string).
  induction (own_entries update) as [|[operator values] entries IH]; intros touched H;
    [reflexivity|].
  apply Forall_cons in H as [Hop H]. cbn [fst] in Hop. cbn [fold_left].
  unfold Collection.shareStep at 2. cbn [fst snd]. rewrite Hop.
  destruct (starts_with_dollar operator).
  - destruct (String.eqb operator "$set" || String.eqb operator "$unset"
              || String.eqb operator "$inc"); exact (IH _ H).
  - destruct (String.eqb operator "_id"); exact (IH _ H).
Qed.

(** [$push] on a field that holds an array extends the array of the copy
    too: after the update the copy is the document, both have the same key
    in every index, and [Index.update] leaves the indexes alone. *)
Lemma originalDoc_push_array (host : Host) (doc : obj) (key : string) (xs : list value)
      (v : value) :
  obj_get key doc = VArr xs ->
  Collection.originalDoc doc (VObj [("$push", VObj [(key, v)])])
  = snd (Collection.applyUpdateOperations host doc (VObj [("$push", VObj [(key, v)])]) VUndef).
Proof.
  intros H. unfold Collection.originalDoc, Collection.applyUpdateOperations.
  cbn [Object_entries own_entries fold_left Collection.applyUpdateOperations_loop].
  unfold Collection.shareStep, Collection.applyUpdateOperation, Collection.forEachKey.
  cbn [fst snd starts_with_dollar Ascii.eqb Bool.eqb String.eqb orb own_entries map
       fold_left Object_entries].
  unfold Collection.pushShared. cbn [snd fst existsb prop_get obj_get].
  rewrite H, String.eqb_refl. cbn [is_array]. rewrite H. reflexivity.
Qed.

(** The user's tags grow from [x] to [x, y]; the index on the tags keeps
    the user under the key of [x] alone. *)
Example push_leaves_the_index_alone :
  map (obj_get "tags") (contents "users" Sample.pushed) = [VArr [VStr "x"; VStr "y"]]
  /\ CoreDB.indexes Sample.pushed = CoreDB.indexes Sample.tagged
  /\ map (fun ni => Index.indexData (snd ni)) (CoreDB.indexes Sample.pushed)
     = [[(Node.stringify (VArr [VStr "x"]), [VStr "a"])]].
Proof. vm_compute. repeat split. Qed.

(** ** The snapshot writes of a store *)

Lemma queue_reachable (s : SnapshotWrites.state) :
  SnapshotWrites.reachable s -> WriteQueue.reachable (SnapshotWrites.queue s).
Proof.
  induction 1 as [|s s' _ IH Hstep]; [apply WriteQueue.reachable_init|].
  destruct Hstep as [s q' Hq | name s | i s s' Hw].
  - exact (WriteQueue.reachable_step _ _ IH Hq).
  - exact IH.
  - unfold SnapshotWrites.written in Hw.
    destruct (SnapshotWrites.direct s !! i); [|discriminate].
    injection Hw as <-. exact IH.
Qed.

(** C8, as the code has it: in every reachable state of a store at most
    one queued save operation is in execution, and the operations started
    so far followed by those still queued are the operations in the order
    they were enqueued; so among the snapshot writes in progress at most
    one comes from the queue, whatever [createCollection] has started
    beside it. *)
Theorem write_queue_is_serialized (s : SnapshotWrites.state) :
  SnapshotWrites.reachable s ->
  length (WriteQueue.awaiting (SnapshotWrites.queue s))
  + WriteQueue.ready (SnapshotWrites.queue s) <= 1
  /\ WriteQueue.enqueued (SnapshotWrites.queue s)
     = WriteQueue.started (SnapshotWrites.queue s)
       ++ WriteQueue.writeQueue (SnapshotWrites.queue s)
  /\ length (SnapshotWrites.writing s) <= 1 + length (SnapshotWrites.direct s).
Proof.
  intros H. destruct (queue_is_serialized _ (queue_reachable s H)) as [Hle Hfifo].
  split; [exact Hle|]. split; [exact Hfifo|].
  unfold SnapshotWrites.writing. rewrite length_app. lia.
Qed.

(** Two inserts (into users and into orders) in a row, then
    [createCollection]: the save of users is in execution and the save of
    orders waits behind it. *)
Lemma write_queue_is_serialized_example :
  let s := SnapshotWrites.createCollection "logs"
             {| SnapshotWrites.queue :=
                  WriteQueue.queueWrite "orders" (WriteQueue.queueWrite "users" WriteQueue.init);
                SnapshotWrites.direct := [] |} in
  length (WriteQueue.awaiting (SnapshotWrites.queue s))
  + WriteQueue.ready (SnapshotWrites.queue s) <= 1
  /\ WriteQueue.enqueued (SnapshotWrites.queue s)
     = WriteQueue.started (SnapshotWrites.queue s)
       ++ WriteQueue.writeQueue (SnapshotWrites.queue s)
  /\ length (SnapshotWrites.writing s) <= 1 + length (SnapshotWrites.direct s).
Proof.
  apply (write_queue_is_serialized
           (SnapshotWrites.createCollection "logs"
              {| SnapshotWrites.queue :=
                   WriteQueue.queueWrite "orders"
                     (WriteQueue.queueWrite "users" WriteQueue.init);
                 SnapshotWrites.direct := [] |})).
  apply (SnapshotWrites.reachable_step _ _
           (SnapshotWrites.reachable_step _ _
              (SnapshotWrites.reachable_step _ _ SnapshotWrites.reachable_init
                 (SnapshotWrites.step_queue SnapshotWrites.init _
                    (WriteQueue.step_queueWrite "users" WriteQueue.init)))
              (SnapshotWrites.step_queue
                 {| SnapshotWrites.queue := WriteQueue.queueWrite "users" WriteQueue.init;
                    SnapshotWrites.direct := [] |} _
                 (WriteQueue.step_queueWrite "orders"
                    (WriteQueue.queueWrite "users" WriteQueue.init))))
           (SnapshotWrites.step_createCollection "logs" _)).
Defined.

(** C8 fails as stated: an insert into users has its save in execution
    when [createCollection("users")] starts a save of its own; the two
    writes of the snapshot of users are in progress at once. *)
Lemma snapshot_writes_interleave_counterexample :
  let s := SnapshotWrites.createCollection "users"
             {| SnapshotWrites.queue := WriteQueue.queueWrite "users" WriteQueue.init;
                SnapshotWrites.direct := [] |} in
  SnapshotWrites.reachable s
  /\ SnapshotWrites.writing s = ["users"; "users"]
  /\ ~ (forall s', SnapshotWrites.reachable s' -> length (SnapshotWrites.writing s') <= 1).
Proof.
  assert (R : SnapshotWrites.reachable
                (SnapshotWrites.createCollection "users"
                   {| SnapshotWrites.queue := WriteQueue.queueWrite "users" WriteQueue.init;
                      SnapshotWrites.direct := [] |})).
  { apply (SnapshotWrites.reachable_step _ _
             (SnapshotWrites.reachable_step _ _ SnapshotWrites.reachable_init
                (SnapshotWrites.step_queue SnapshotWrites.init _
                   (WriteQueue.step_queueWrite "users" WriteQueue.init)))
             (SnapshotWrites.step_createCollection "users" _)). }
  cbv zeta. split; [exact R|]. split; [reflexivity|].
  intros H. specialize (H _ R). cbn in H. lia.
Qed.

(** ** The round trip of inserted documents *)

Section RoundTripFacts.
Context (host : Host).

Lemma keyed_is_stored (this : string) (db : CoreDB.t) :
  keyed_by_id this db -> stored this db.
Proof.
  intros [_ H]. unfold stored, Map_values. rewrite Forall_map.
  eapply Forall_impl; [exact H|]. intros kr. apply own_entry_valid.
Qed.

(** A returning [insert] under an identifier that is no key of the
    collection appends the document. *)
Lemma insert_appends (this : string) (document : obj) (env : Env)
      (db db' : CoreDB.t) (r : ref) :
  stored this db ->
  Forall (fun k => key_eq k (obj_get "_id" (Collection.stamp document env)) = false)
         (Map_keys (Collection.documents this db)) ->
  Collection.insert host this document env db = (Return r, db') ->
  contents this db' = contents this db ++ [Collection.stamp document env]
  /\ stored this db'
  /\ Map_keys (Collection.documents this db')
     = Map_keys (Collection.documents this db)
       ++ [obj_get "_id" (Collection.stamp document env)].
Proof.
  intros S N E. destruct (insert_returns host this document env db db' r E) as (H & D & _ & _).
  split; [|split].
  - unfold contents. rewrite D, (Map_set_absent _ _ _ N).
    unfold Map_values. rewrite !map_app. cbn [map snd]. f_equal.
    + apply map_ext_Forall. eapply Forall_impl; [exact S|]. intros x Hx.
      exact (deref_app db db' _ x H Hx).
    + rewrite (deref_new db db' _ H). reflexivity.
  - unfold stored. rewrite D, (Map_set_absent _ _ _ N). unfold Map_values.
    rewrite map_app. apply Forall_app. split.
    + eapply Forall_impl; [exact S|]. intros x Hx. simpl in Hx.
      rewrite H, length_app. lia.
    + constructor; [|constructor]. cbn [snd]. rewrite H, length_app. cbn. lia.
  - rewrite D, (Map_set_absent _ _ _ N). unfold Map_keys. rewrite map_app. reflexivity.
Qed.

(** [insertMany] of documents whose identifiers are new to the collection
    and pairwise distinct appends them in their order. *)
Lemma insertMany_appends (this : string) (docs : list (obj * Env)) :
  forall (db db' : CoreDB.t) (rs : list ref),
    stored this db ->
    distinct (Map_keys (Collection.documents this db)
              ++ map (fun de => obj_get "_id" (Collection.stamp (fst de) (snd de))) docs) ->
    Collection.insertMany host this docs db = (Return rs, db') ->
    contents this db'
    = contents this db ++ map (fun de => Collection.stamp (fst de) (snd de)) docs.
Proof.
  induction docs as [|[doc env] docs IH]; intros db db' rs S D; cbn [Collection.insertMany].
  - intros E. injection E as _ <-. rewrite app_nil_r. reflexivity.
  - destruct (Collection.insert host this doc env db) as [[r|e] db1] eqn:Hins; [|discriminate].
    destruct (Collection.insertMany host this docs db1) as [[rs'|e] db2] eqn:Hmany;
      [|discriminate].
    intros E. injection E as _ <-. cbn [map fst snd] in D |- *.
    destruct (insert_appends this doc env db db1 r S (distinct_before _ _ _ D) Hins)
      as (C1 & S1 & K1).
    rewrite (IH db1 db2 rs' S1); [|rewrite K1, <- app_assoc; exact D | exact Hmany].
    rewrite C1, <- app_assoc. reflexivity.
Qed.

(** C7, as the code has it: take a collection in which every document is
    stored under its own truthy identifier and is made of JSON values.
    If the store holds the collection, saving its snapshot and reopening
    the store over it gives back the same documents, field for field and
    in the same order.  After inserting any number of documents made of
    JSON values, each insert returning, the collection is still of that
    kind and, after disconnecting, the store reopened over the files holds
    the documents the collection held, in the same order; when the
    identifiers of the documents inserted are new to the collection and
    pairwise distinct, these are the documents it held before followed by
    the documents inserted, in the order of the inserts and as [insert]
    stored them. *)
Theorem snapshot_roundtrip (this : string) (db : CoreDB.t) :
  keyed_by_id this db ->
  (Map_has String.eqb this (CoreDB.collections db) = true ->
   contents this (CoreDB.reopen (CoreDB.saveCollection this db)) = contents this db)
  /\ forall (docs : list (obj * Env)) (rs : list ref) (db' : CoreDB.t),
      docs <> [] ->
      Forall (fun de =>
                truthy (obj_get "_id" (Collection.stamp (fst de) (snd de))) = true
                /\ json_norm (VObj (Collection.stamp (fst de) (snd de)))
                   = VObj (Collection.stamp (fst de) (snd de))) docs ->
      Collection.insertMany host this docs db = (Return rs, db') ->
      keyed_by_id this db'
      /\ length rs = length docs
      /\ contents this (CoreDB.reopen (CoreDB.disconnect db')) = contents this db'
      /\ (distinct (Map_keys (Collection.documents this db)
                    ++ map (fun de => obj_get "_id" (Collection.stamp (fst de) (snd de))) docs) ->
          contents this (CoreDB.reopen (CoreDB.disconnect db'))
          = contents this db ++ map (fun de => Collection.stamp (fst de) (snd de)) docs).
Proof.
  intros K. destruct (snapshot_reload host this db K) as [Hsave Hinsert].
  split; [exact Hsave|].
  intros docs rs db' Hne Hgood E.
  destruct (Hinsert docs rs db' Hne Hgood E) as (K' & L & R).
  split; [exact K'|]. split; [exact L|]. split; [exact R|].
  intros D. rewrite R.
  exact (insertMany_appends this docs db db' rs (keyed_is_stored this db K) D E).
Qed.

End RoundTripFacts.

(** The three users, saved and read back by a new process; and after a
    fourth user was inserted, the new process reads the three users
    followed by the fourth. *)
Lemma snapshot_roundtrip_example :
  contents "users" (CoreDB.reopen (CoreDB.saveCollection "users" Sample.ages))
  = contents "users" Sample.ages
  /\ contents "users"
       (CoreDB.reopen (CoreDB.disconnect (Sample.insert [("age", VInt 41)] "u4" Sample.ages)))
     = contents "users" Sample.ages
       ++ [Collection.stamp [("age", VInt 41)] (Sample.env "u4")].
Proof.
  assert (E : Collection.documents "users" Sample.ages
              = [(VStr "u1", 0); (VStr "u2", 1); (VStr "u3", 2)])
    by (vm_compute; reflexivity).
  assert (K : keyed_by_id "users" Sample.ages).
  { unfold keyed_by_id, own_entry. rewrite E. cbn [Map_keys map fst snd distinct].
    repeat match goal with
           | |- _ /\ _ => split
           | |- Forall _ _ => constructor
           | |- True => exact I
           end; vm_compute; reflexivity. }
  destruct (snapshot_roundtrip node "users" Sample.ages K) as [Hsave Hinsert].
  split; [apply Hsave; vm_compute; reflexivity|].
  destruct (Hinsert [([("age", VInt 41)], Sample.env "u4")] [3]
                    (Sample.insert [("age", VInt 41)] "u4" Sample.ages))
    as (_ & _ & _ & H).
  - discriminate.
  - constructor; [|constructor]. split; vm_compute; reflexivity.
  - vm_compute. reflexivity.
  - apply H. rewrite E. vm_compute. repeat split; repeat constructor.
Defined.

(** C7 fails as stated.  A document with a field that JSON has no notation
    for (here the number Infinity) is inserted and the store reopened: the
    document read back holds null in that field.  And two documents
    inserted with the same [_id]: both inserts return, one document is
    read back. *)
Lemma roundtrip_counterexample :
  (let db := Sample.insert [("_id", VStr "a"); ("score", VNum PosInf)] "unused" Sample.empty in
   map (obj_get "score") (contents "users" db) = [VNum PosInf]
   /\ map (obj_get "score") (contents "users" (CoreDB.reopen (CoreDB.disconnect db)))
      = [VNull])
  /\ (let r := Collection.insertMany node "users"
                 [([("_id", VStr "a"); ("n", VInt 1)], Sample.env "unused");
                  ([("_id", VStr "a"); ("n", VInt 2)], Sample.env "unused")]
                 Sample.empty in
      fst r = Return [0; 1]
      /\ map (obj_get "n") (contents "users" (CoreDB.reopen (CoreDB.disconnect (snd r))))
         = [VInt 2]).
Proof. vm_compute. repeat split. Qed.
